(** * dl: a concurrent, resumable HTTP downloader

    Shallow embedding of the Go package [dl] (the revision with the
    [int64] progress counters, [ErrInvalidURL] and [ErrAlreadyStopped]),
    together with the properties of its specification that are checked
    against it.

    Conventions.
    - Go's [int64] and [int] are [Z]; where the code can overflow the
      wrap-around is written with [wrap64].
    - Strings are [string]; files are lists of bytes.
    - [sync.Map] is a [gmap string _]; the set of cancelled contexts is a
      [gset].
    - Callbacks are modelled by their registration ([bool]) and by the
      [event] each invocation leaves in the trace of the run.
    - Goroutines are run by an explicit schedule, one atomic action at a
      time, so every statement over all schedules covers every
      interleaving of the workers at that granularity. *)

From Stdlib Require Import ZArith Lia List String Ascii DecimalString DecimalPos DecimalZ.
From Stdlib.Strings Require Import Byte.
From stdpp Require Import gmap strings list.

Open Scope string_scope.
Open Scope list_scope.
Open Scope Z_scope.

#[local] Set Warnings "-clear-no-such-hyp".

(** ** Machine integers *)

Definition wrap64 (z : Z) : Z := (z + 2 ^ 63) mod 2 ^ 64 - 2 ^ 63.

Definition min_int64 : Z := - 2 ^ 63.
Definition max_int64 : Z := 2 ^ 63 - 1.

Definition in_int64 (z : Z) : Prop := min_int64 <= z <= max_int64.

(** ** Decimal rendering ([%d] and the digits of [%.2f]) *)

(** [strconv.FormatInt(z, 10)]. *)
Definition FormatInt (z : Z) : string := NilZero.string_of_int (Z.to_int z).

(** The decimal digits of a natural number, at least one. *)
Definition FormatNat (n : N) : string := NilZero.string_of_uint (N.to_uint n).

Definition digit_char (d : Z) : ascii := ascii_of_N (48 + Z.to_N d).

Definition is_digit (c : ascii) : bool :=
  let n := N_of_ascii c in ((48 <=? n) && (n <=? 57))%N.

(** ** float64 values that occur in [calcRate]

    [calcRate] converts an [int64] to [float64], multiplies it by [4.0] and
    divides it by [1024.0], [1024.0^2] or [1024.0^3].  The conversion rounds
    to 53 significant bits, ties to even; the multiplication and the
    divisions are by powers of two and stay far inside the exponent range,
    so they are exact.  Every value is therefore a dyadic rational
    [num / 2^exp2] and is kept as such. *)

Definition float64_of_int64 (n : Z) : Z :=
  let a := Z.abs n in
  if a <? 2 ^ 53 then n
  else
    let e := Z.log2 a - 52 in
    let q := Z.shiftr a e in
    let r := a mod 2 ^ e in
    let half := 2 ^ (e - 1) in
    let q' := if (half <? r) || ((r =? half) && Z.odd q) then q + 1 else q in
    Z.sgn n * (q' * 2 ^ e).

(** [round_half_even num den]: the integer nearest to [num / den], ties to
    even, for [0 <= num] and [0 < den]. *)
Definition round_half_even (num den : Z) : Z :=
  let q := num / den in
  let r := num mod den in
  if (den <? 2 * r) || ((2 * r =? den) && Z.odd q) then q + 1 else q.

(** [fmt.Sprintf("%.2f", num / 2^exp2)]: sign, integer digits, a point and
    exactly two fraction digits, correctly rounded. *)
Definition Sprintf_2f (num : Z) (exp2 : Z) : string :=
  let scaled := round_half_even (Z.abs num * 100) (2 ^ exp2) in
  (if num <? 0 then "-" else "") +:+
  FormatNat (Z.to_N (scaled / 100)) +:+ "." +:+
  String (digit_char (scaled mod 100 / 10))
    (String (digit_char (scaled mod 10)) "").

(** ** The progress sink, [selfWriter] *)

Record selfWriter := {
  loaded : Z;
  total : Z;
  accPacketSize : Z;
  rate : string;
  onProgress : bool
}.

Definition initial_rate : string := "0.00 MB/s".

(** The closure [formatRate] of [calcRate]; the argument is the
    integer-valued float [bytesPerSecond]. *)
Definition formatRate (bytesPerSecond : Z) : string :=
  if 2 ^ 30 <=? bytesPerSecond then Sprintf_2f bytesPerSecond 30 +:+ " GB/s"
  else if 2 ^ 20 <=? bytesPerSecond then Sprintf_2f bytesPerSecond 20 +:+ " MB/s"
  else if 2 ^ 10 <=? bytesPerSecond then Sprintf_2f bytesPerSecond 10 +:+ " KB/s"
  else Sprintf_2f bytesPerSecond 0 +:+ " B/s".

(** [float64(accSize) * 4.0]. *)
Definition bytesPerSecond (accSize : Z) : Z := float64_of_int64 accSize * 4.

(** The first statement of [calcRate]. *)
Definition calcRate_start (sw : selfWriter) : selfWriter :=
  {| loaded := loaded sw; total := total sw;
     accPacketSize := accPacketSize sw;
     rate := initial_rate; onProgress := onProgress sw |}.

(** One firing of the 250 ms ticker in [calcRate]: swap the window count
    with zero and store the formatted rate. *)
Definition calcRate_tick (sw : selfWriter) : selfWriter :=
  let accSize := accPacketSize sw in
  {| loaded := loaded sw; total := total sw;
     accPacketSize := 0;
     rate := formatRate (bytesPerSecond accSize);
     onProgress := onProgress sw |}.

(** [selfWriter.Write] on a slice of [n] bytes: the window count and
    [loaded] grow by [n]; the result is the new sink and the
    [(loaded, total, rate)] triple handed to the progress callback, when one
    is registered. *)
Definition sw_Write (n : Z) (sw : selfWriter) : selfWriter * option (Z * Z * string) :=
  let sw' := {| loaded := wrap64 (loaded sw + n); total := total sw;
                accPacketSize := wrap64 (accPacketSize sw + n);
                rate := rate sw; onProgress := onProgress sw |} in
  (sw', if onProgress sw then Some (loaded sw', total sw', rate sw') else None).

Definition set_total (t : Z) (sw : selfWriter) : selfWriter :=
  {| loaded := loaded sw; total := t; accPacketSize := accPacketSize sw;
     rate := rate sw; onProgress := onProgress sw |}.

(** ** Errors *)

(** The package's three error values, the two library errors the code
    tests for or meets on cancellation, any other error of [net/http],
    [os] or [io], and the two forms of [fmt.Errorf] the code uses (with and
    without [%w]). *)
Inductive error : Type :=
| ErrAlreadyStopped
| ErrInvalidURL
| ErrInvalidConcurrency
| io_EOF
| context_Canceled
| ErrExternal (what : string)
| Errorf (msg : string)
| Errorf_w (msg : string) (cause : error).

Definition is_EOF (e : error) : bool :=
  match e with io_EOF => true | _ => false end.

Inductive result (A : Type) : Type :=
| Ok (a : A)
| Err (e : error).
Arguments Ok {A} a.
Arguments Err {A} e.

(** ** Paths *)

(** [filepath.Join] of two clean, non-empty elements. *)
Definition filepath_Join (a b : string) : string := a +:+ "/" +:+ b.

Fixpoint strip_trailing_slashes_rev (r : list ascii) : list ascii :=
  match r with
  | "/"%char :: r' => strip_trailing_slashes_rev r'
  | _ => r
  end.

Fixpoint last_element_rev (r : list ascii) : list ascii :=
  match r with
  | [] => []
  | "/"%char :: _ => []
  | c :: r' => c :: last_element_rev r'
  end.

(** [filepath.Base]: the last element of the path, trailing slashes
    removed; ["."] for the empty path and ["/"] for a path of slashes. *)
Definition filepath_Base (path : string) : string :=
  match list_ascii_of_string path with
  | [] => "."
  | l =>
      match strip_trailing_slashes_rev (rev l) with
      | [] => "/"
      | r => string_of_list_ascii (rev (last_element_rev r))
      end
  end.

(** ** Configuration *)

Module Options.
Record t := {
  FileName : string;
  BaseDir : string;
  Concurrency : Z;
  Resume : bool
}.
End Options.

Definition OptionFunc : Type := Options.t -> Options.t.

Definition WithFileName (filename : string) : OptionFunc := fun o =>
  {| Options.FileName := filename; Options.BaseDir := Options.BaseDir o;
     Options.Concurrency := Options.Concurrency o; Options.Resume := Options.Resume o |}.

Definition WithBaseDir (basedir : string) : OptionFunc := fun o =>
  {| Options.FileName := Options.FileName o; Options.BaseDir := basedir;
     Options.Concurrency := Options.Concurrency o; Options.Resume := Options.Resume o |}.

Definition WithConcurrency (concurrency : Z) : OptionFunc := fun o =>
  {| Options.FileName := Options.FileName o; Options.BaseDir := Options.BaseDir o;
     Options.Concurrency := concurrency; Options.Resume := Options.Resume o |}.

Definition WithResume (resume : bool) : OptionFunc := fun o =>
  {| Options.FileName := Options.FileName o; Options.BaseDir := Options.BaseDir o;
     Options.Concurrency := Options.Concurrency o; Options.Resume := resume |}.

Definition DefaultBaseDir : string := "downloader_cache".
Definition DefaultBufferSize : Z := 32 * 1024.

(** ** The downloader object

    [stopSignal] is the identity of the current channel; which channels
    are closed is part of the [world].  [mCancelFunc] maps a key to the
    identity of the context its [CancelFunc] cancels.  The three observer
    fields say whether a callback is registered. *)
Record Downloader := {
  url : string;
  concurrency : Z;
  resume : bool;
  partDir : string;
  sw : selfWriter;
  options : Options.t;
  stopSignal : nat;
  mCancelFunc : gmap string nat;
  onDownloadStart : bool;
  onDownloadFinished : bool;
  onDownloadCanceled : bool
}.

Definition set_sw (s : selfWriter) (d : Downloader) : Downloader :=
  {| url := url d; concurrency := concurrency d; resume := resume d;
     partDir := partDir d; sw := s; options := options d;
     stopSignal := stopSignal d; mCancelFunc := mCancelFunc d;
     onDownloadStart := onDownloadStart d;
     onDownloadFinished := onDownloadFinished d;
     onDownloadCanceled := onDownloadCanceled d |}.

Definition set_partDir (p : string) (d : Downloader) : Downloader :=
  {| url := url d; concurrency := concurrency d; resume := resume d;
     partDir := p; sw := sw d; options := options d;
     stopSignal := stopSignal d; mCancelFunc := mCancelFunc d;
     onDownloadStart := onDownloadStart d;
     onDownloadFinished := onDownloadFinished d;
     onDownloadCanceled := onDownloadCanceled d |}.

Definition set_stopSignal (c : nat) (d : Downloader) : Downloader :=
  {| url := url d; concurrency := concurrency d; resume := resume d;
     partDir := partDir d; sw := sw d; options := options d;
     stopSignal := c; mCancelFunc := mCancelFunc d;
     onDownloadStart := onDownloadStart d;
     onDownloadFinished := onDownloadFinished d;
     onDownloadCanceled := onDownloadCanceled d |}.

Definition set_mCancelFunc (m : gmap string nat) (d : Downloader) : Downloader :=
  {| url := url d; concurrency := concurrency d; resume := resume d;
     partDir := partDir d; sw := sw d; options := options d;
     stopSignal := stopSignal d; mCancelFunc := m;
     onDownloadStart := onDownloadStart d;
     onDownloadFinished := onDownloadFinished d;
     onDownloadCanceled := onDownloadCanceled d |}.

(** [NewDownloader]; [ncpu] is the value of [runtime.NumCPU()], at least
    one, and [chan] the identity of the channel [make] returns. *)
Definition NewDownloader (ncpu : positive) (chan : nat)
    (url : string) (opts : list OptionFunc) : Downloader :=
  let options0 :=
    {| Options.FileName := filepath_Base url; Options.BaseDir := DefaultBaseDir;
       Options.Concurrency := Z.pos ncpu; Options.Resume := true |} in
  let options1 := fold_left (fun o opt => opt o) opts options0 in
  let options2 :=
    if Options.Concurrency options1 =? 0
    then WithConcurrency (Z.pos ncpu) options1
    else options1 in
  {| url := url;
     concurrency := Options.Concurrency options2;
     resume := Options.Resume options2;
     partDir := "";
     sw := {| loaded := 0; total := 0; accPacketSize := 0;
              rate := initial_rate; onProgress := false |};
     options := options2;
     stopSignal := chan;
     mCancelFunc := ∅;
     onDownloadStart := false;
     onDownloadFinished := false;
     onDownloadCanceled := false |}.

(** ** The outside world: file system, HTTP, channels and contexts *)

Inductive fs_op : Type :=
| OpMkdirAll (path : string)
| OpReadFile (path : string)
| OpOpenFile (path : string) (trunc append : bool)
| OpOpen (path : string)
| OpWrite (path : string) (k : nat)
| OpCopy (dst src : string)
| OpClose (path : string)
| OpRemove (path : string)
| OpRemoveAll (path : string).

(** What a run does that can be seen from outside, in order. *)
Inductive event : Type :=
| EvHead (u : string)
| EvGet (u : string) (range : option string)
| EvSinkWrite (n : Z)
| EvOnProgress (l t : Z) (r : string)
| EvOnStart (t : Z) (filename : string)
| EvOnFinished (filename : string)
| EvOnCanceled (filename : string)
| EvFs (op : fs_op)
| EvStore (key : string) (ctx : nat)
| EvDelete (key : string)
| EvCancel (ctx : nat).

(** An HTTP response: the body is the sequence of slices the successive
    [Read]s return, then the error of the last [Read] ([io_EOF] at the
    regular end of the stream). *)
Record Response := {
  StatusCode : Z;
  Accept_Ranges : string;
  ContentLength : Z;
  Body : list (list byte);
  BodyEnd : error
}.

Definition StatusOK : Z := 200.
Definition StatusPartialContent : Z := 206.

(** The environment of a run: what the URL parser, the server and the
    file system answer.  [fs_fault] lets any file operation fail. *)
Record env := {
  url_error : string -> option error;
  head : string -> result Response;
  get : string -> option string -> result Response;
  fs_fault : fs_op -> option error
}.

Record world := {
  dl : Downloader;
  files : gmap string (list byte);
  closed : gset nat;
  cancelled : gset nat;
  next_ctx : nat;
  trace : list event
}.

Definition with_dl (d : Downloader) (w : world) : world :=
  {| dl := d; files := files w; closed := closed w; cancelled := cancelled w;
     next_ctx := next_ctx w; trace := trace w |}.

Definition with_files (f : gmap string (list byte)) (w : world) : world :=
  {| dl := dl w; files := f; closed := closed w; cancelled := cancelled w;
     next_ctx := next_ctx w; trace := trace w |}.

Definition with_closed (c : gset nat) (w : world) : world :=
  {| dl := dl w; files := files w; closed := c; cancelled := cancelled w;
     next_ctx := next_ctx w; trace := trace w |}.

Definition with_cancelled (c : gset nat) (w : world) : world :=
  {| dl := dl w; files := files w; closed := closed w; cancelled := c;
     next_ctx := next_ctx w; trace := trace w |}.

Definition with_next_ctx (n : nat) (w : world) : world :=
  {| dl := dl w; files := files w; closed := closed w; cancelled := cancelled w;
     next_ctx := n; trace := trace w |}.

Definition emit (e : event) (w : world) : world :=
  {| dl := dl w; files := files w; closed := closed w; cancelled := cancelled w;
     next_ctx := next_ctx w; trace := trace w ++ [e] |}.

Definition emits (es : list event) (w : world) : world :=
  {| dl := dl w; files := files w; closed := closed w; cancelled := cancelled w;
     next_ctx := next_ctx w; trace := trace w ++ es |}.

(** [select { case <-d.stopSignal: ... default: ... }]: is the channel
    closed? *)
Definition stopped (w : world) : bool :=
  bool_decide (stopSignal (dl w) ∈ closed w).

(** A call of the sink's [Write] with [n] bytes, in the world.  The update
    of the counters and the reading of the values the progress callback is
    called with happen under the lock and are one action; the trace records
    the callback at that point.  The call itself follows the unlock: in
    which order the callbacks of several goroutines reach the observer is
    left open by a trace (see [delivered]). *)
Definition Write (n : Z) (w : world) : world :=
  let '(s, cb) := sw_Write n (sw (dl w)) in
  let w1 := emit (EvSinkWrite n) (with_dl (set_sw s (dl w)) w) in
  match cb with
  | Some (l, t, r) => emit (EvOnProgress l t r) w1
  | None => w1
  end.

(** [mCancelFunc.Store] and [mCancelFunc.Delete]. *)
Definition Store (key : string) (ctx : nat) (w : world) : world :=
  emit (EvStore key ctx)
    (with_dl (set_mCancelFunc (<[key := ctx]> (mCancelFunc (dl w))) (dl w)) w).

Definition Delete (key : string) (w : world) : world :=
  emit (EvDelete key)
    (with_dl (set_mCancelFunc (delete key (mCancelFunc (dl w))) (dl w)) w).

(** [context.WithCancel(context.Background())]: a new context, not
    cancelled. *)
Definition WithCancel (w : world) : nat * world :=
  (next_ctx w,
   with_next_ctx (S (next_ctx w)) (with_cancelled (cancelled w ∖ {[next_ctx w]}) w)).

(** ** The controller: [init], [Stop] *)

Definition init (w : world) : world :=
  let d := dl w in
  let s := {| loaded := 0; total := total (sw d); accPacketSize := 0;
              rate := initial_rate; onProgress := onProgress (sw d) |} in
  let c := fresh ({[stopSignal d]} ∪ closed w) in
  with_dl (set_mCancelFunc ∅ (set_stopSignal c (set_sw s d))) w.

(** [Stop]: the result is [None] for a nil error. *)
Definition Stop (w : world) : world * option error :=
  if stopped w then (w, Some ErrAlreadyStopped)
  else
    let d := dl w in
    let w1 := with_closed ({[stopSignal d]} ∪ closed w) w in
    let handles := (map_to_list (mCancelFunc d)).*2 in
    let w2 := emits (EvCancel <$> handles)
                (with_cancelled (list_to_set handles ∪ cancelled w1) w1) in
    (with_dl (set_mCancelFunc ∅ d) w2, None).

Definition Pause (w : world) : world * option error := Stop w.

(** ** File operations *)

Definition ReadFile (E : env) (path : string) (w : world) : world * result (list byte) :=
  let w1 := emit (EvFs (OpReadFile path)) w in
  match fs_fault E (OpReadFile path) with
  | Some e => (w1, Err e)
  | None =>
      match files w !! path with
      | Some c => (w1, Ok c)
      | None => (w1, Err (ErrExternal "no such file or directory"))
      end
  end.

(** [os.OpenFile(path, O_CREATE|O_WRONLY|flags, perm)]. *)
Definition OpenFile (E : env) (path : string) (trunc append : bool) (w : world)
    : world * option error :=
  let op := OpOpenFile path trunc append in
  let w1 := emit (EvFs op) w in
  match fs_fault E op with
  | Some e => (w1, Some e)
  | None =>
      let c := if trunc then [] else default [] (files w !! path) in
      (with_files (<[path := c]> (files w1)) w1, None)
  end.

(** The bytes of a file after a write of [chunk] through a handle that is
    in append mode, or else at offset [off]. *)
Definition write_at (append : bool) (off : nat) (chunk content : list byte) : list byte :=
  if append then (content ++ chunk)%list
  else (take off content ++ chunk ++ drop (off + length chunk) content)%list.

Definition FileWrite (E : env) (path : string) (k : nat) (append : bool) (off : nat)
    (chunk : list byte) (w : world) : world * option error :=
  let op := OpWrite path k in
  let w1 := emit (EvFs op) w in
  match fs_fault E op with
  | Some e => (w1, Some e)
  | None =>
      let c := default [] (files w !! path) in
      (with_files (<[path := write_at append off chunk c]> (files w1)) w1, None)
  end.

(** ** Part files *)

Definition getPartDir (d : Downloader) (filename : string) : string :=
  filepath_Join (Options.BaseDir (options d)) filename.

Definition getPartFilename (d : Downloader) (filename : string) (partNum : Z) : string :=
  filepath_Join (partDir d) (filename +:+ "_" +:+ FormatInt partNum).

(** ** [merge] *)

Fixpoint merge_parts (E : env) (d : Downloader) (filename : string)
    (parts : list Z) (w : world) : world * option error :=
  match parts with
  | [] => (w, None)
  | i :: rest =>
      let partFileName := getPartFilename d filename i in
      let w1 := emit (EvFs (OpOpen partFileName)) w in
      match fs_fault E (OpOpen partFileName), files w !! partFileName with
      | Some e, _ => (w1, Some (Errorf_w ("failed to open part " +:+ FormatInt i) e))
      | None, None =>
          (w1, Some (Errorf_w ("failed to open part " +:+ FormatInt i)
                       (ErrExternal "no such file or directory")))
      | None, Some content =>
          let w2 := emit (EvFs (OpCopy filename partFileName)) w1 in
          match fs_fault E (OpCopy filename partFileName) with
          | Some e =>
              (emit (EvFs (OpClose partFileName)) w2,
               Some (Errorf_w ("failed to copy part " +:+ FormatInt i) e))
          | None =>
              let dest := default [] (files w !! filename) in
              let w3 := with_files (<[filename := (dest ++ content)%list]> (files w2)) w2 in
              let w4 := emit (EvFs (OpClose partFileName)) w3 in
              match fs_fault E (OpClose partFileName) with
              | Some e => (w4, Some (Errorf_w ("failed to close part " +:+ FormatInt i) e))
              | None =>
                  let w5 := emit (EvFs (OpRemove partFileName)) w4 in
                  match fs_fault E (OpRemove partFileName) with
                  | Some e =>
                      (w5, Some (Errorf_w ("failed to remove part " +:+ FormatInt i) e))
                  | None =>
                      merge_parts E d filename rest
                        (with_files (delete partFileName (files w5)) w5)
                  end
              end
          end
      end
  end.

Definition merge (E : env) (w : world) : world * option error :=
  let d := dl w in
  let filename := Options.FileName (options d) in
  let '(w1, err) := OpenFile E filename true false w in
  match err with
  | Some e => (w1, Some (Errorf_w "failed to create destination file" e))
  | None =>
      let '(w2, r) := merge_parts E d filename (seqZ 0 (concurrency d)) w1 in
      (emit (EvFs (OpClose filename)) w2, r)
  end.

(** [os.RemoveAll(partDir)]; its error is dropped by the caller. *)
Definition RemoveAll (E : env) (dir : string) (w : world) : world :=
  let w1 := emit (EvFs (OpRemoveAll dir)) w in
  match fs_fault E (OpRemoveAll dir) with
  | Some _ => w1
  | None =>
      with_files
        (filter (fun kv => negb (String.prefix (dir +:+ "/") kv.1) = true) (files w1)) w1
  end.

(** ** Workers of the multi-range download

    A worker is the goroutine the spawn loop starts: its index, the
    [rangeStart] it was given, and where it stands.  [contentLen] and
    [partSize] are the variables of [multiDownload] its closure reads. *)

Inductive worker_pc : Type :=
| WStart
| WFetch (rangeStart rangeEnd : Z)
| WDo (rangeStart rangeEnd : Z) (ctx : nat)
| WCopy (ctx : nat) (chunks : list (list byte)) (fin : error) (k off : nat)
| WDone (err : option error).

Record worker := {
  w_i : Z;
  w_rangeStart : Z;
  w_pc : worker_pc
}.

(** The value of the [Range] header for the half-open range
    [rangeStart, rangeEnd): the end on the wire is inclusive. *)
Definition Range_header (rangeStart rangeEnd : Z) : string :=
  "bytes=" +:+ FormatInt rangeStart +:+ "-" +:+ FormatInt (rangeEnd - 1).

Definition worker_rangeEnd (d : Downloader) (contentLen partSize : Z) (wk : worker) : Z :=
  if w_i wk =? concurrency d - 1 then contentLen else w_rangeStart wk + partSize.

(** The deferred calls of [downloadPartial]: [partFile.Close()] once the
    part file is open, and [mCancelFunc.Delete]. *)
Definition partial_exit (partFilename : string) (opened : bool) (w : world) : world :=
  Delete partFilename (if opened then emit (EvFs (OpClose partFilename)) w else w).

(** One step of worker [wk].  [WStart] is the resume prologue of the
    goroutine; [WFetch], [WDo] and [WCopy] are [downloadPartial]: its guard
    and the registration of the cancel handle, the request with the opening
    of the part file, and one round of [io.CopyBuffer] each.  [WDone]
    carries what [downloadPartial] returned. *)
Definition worker_step (E : env) (contentLen partSize : Z) (wk : worker) (w : world)
    : worker_pc * world :=
  let d := dl w in
  let filename := Options.FileName (options d) in
  let i := w_i wk in
  let partFilename := getPartFilename d filename i in
  match w_pc wk with
  | WStart =>
      let rangeEnd := worker_rangeEnd d contentLen partSize wk in
      if resume d then
        match ReadFile E partFilename w with
        | (w1, Ok content) =>
            let downloaded := Z.of_nat (length content) in
            (WFetch (w_rangeStart wk + downloaded) rangeEnd, Write downloaded w1)
        | (w1, Err _) => (WFetch (w_rangeStart wk) rangeEnd, w1)
        end
      else (WFetch (w_rangeStart wk) rangeEnd, w)
  | WFetch rangeStart rangeEnd =>
      if rangeEnd <=? rangeStart then (WDone None, w)
      else
        let '(ctx, w1) := WithCancel w in
        let w2 := Store partFilename ctx w1 in
        match url_error E (url d) with
        | Some e =>
            (WDone (Some (Errorf_w "failed to create request" e)),
             partial_exit partFilename false w2)
        | None => (WDo rangeStart rangeEnd ctx, w2)
        end
  | WDo rangeStart rangeEnd ctx =>
      let failed e :=
        Some (Errorf_w ("failed to download part " +:+ FormatInt i) e) in
      if bool_decide (ctx ∈ cancelled w)
      then (WDone (failed context_Canceled), partial_exit partFilename false w)
      else
        let hdr := Range_header rangeStart rangeEnd in
        let w1 := emit (EvGet (url d) (Some hdr)) w in
        match get E (url d) (Some hdr) with
        | Err e => (WDone (failed e), partial_exit partFilename false w1)
        | Ok resp =>
            if negb (StatusCode resp =? StatusOK)
               && negb (StatusCode resp =? StatusPartialContent)
            then (WDone (Some (Errorf ("unexpected status code "
                                        +:+ FormatInt (StatusCode resp)
                                        +:+ " for part " +:+ FormatInt i))),
                  partial_exit partFilename false w1)
            else
              match OpenFile E partFilename false (resume d) w1 with
              | (w2, Some e) =>
                  (WDone (Some (Errorf_w "failed to open part file" e)),
                   partial_exit partFilename false w2)
              | (w2, None) => (WCopy ctx (Body resp) (BodyEnd resp) 0 0, w2)
              end
        end
  | WCopy ctx chunks fin k off =>
      let failed e :=
        if is_EOF e then None
        else Some (Errorf_w ("failed to write part " +:+ FormatInt i) e) in
      match chunks with
      | [] => (WDone (failed fin), partial_exit partFilename true w)
      | c :: rest =>
          if bool_decide (ctx ∈ cancelled w)
          then (WDone (failed context_Canceled), partial_exit partFilename true w)
          else
            match FileWrite E partFilename k (resume d) off c w with
            | (w1, Some e) => (WDone (failed e), partial_exit partFilename true w1)
            | (w1, None) =>
                (WCopy ctx rest fin (S k) (off + length c)%nat,
                 Write (Z.of_nat (length c)) w1)
            end
      end
  | WDone err => (WDone err, w)
  end.

(** ** The coordinator: [download], [multiDownload], [singleDownload]

    [coord_pc] is where the goroutine that called [Start] stands; the
    calls between two of these points touch nothing another goroutine can
    see in between and are one step. *)

Inductive coord_pc : Type :=
| CSpawn (i rangeStart : Z)
| CJoin
| CSingleDo (ctx : nat)
| CSingleCopy (ctx : nat) (chunks : list (list byte)) (fin : error) (k off : nat)
| CReturn (err : option error)
| CPanic.

(** A run of [download]: the world, the coordinator, the variables
    [contentLen], [partSize] and [partDir] of [multiDownload], the workers
    started so far, and whether [calcRate] has entered its loop. *)
Record run := {
  r_world : world;
  r_pc : coord_pc;
  r_contentLen : Z;
  r_partSize : Z;
  r_partDir : string;
  r_workers : list worker;
  r_rate : bool
}.

Definition with_world (w : world) (r : run) : run :=
  {| r_world := w; r_pc := r_pc r; r_contentLen := r_contentLen r;
     r_partSize := r_partSize r; r_partDir := r_partDir r;
     r_workers := r_workers r; r_rate := r_rate r |}.

Definition with_pc (pc : coord_pc) (r : run) : run :=
  {| r_world := r_world r; r_pc := pc; r_contentLen := r_contentLen r;
     r_partSize := r_partSize r; r_partDir := r_partDir r;
     r_workers := r_workers r; r_rate := r_rate r |}.

Definition with_workers (ws : list worker) (r : run) : run :=
  {| r_world := r_world r; r_pc := r_pc r; r_contentLen := r_contentLen r;
     r_partSize := r_partSize r; r_partDir := r_partDir r;
     r_workers := ws; r_rate := r_rate r |}.

Definition with_rate (b : bool) (r : run) : run :=
  {| r_world := r_world r; r_pc := r_pc r; r_contentLen := r_contentLen r;
     r_partSize := r_partSize r; r_partDir := r_partDir r;
     r_workers := r_workers r; r_rate := b |}.

Definition returning (w : world) (err : option error) : run :=
  {| r_world := w; r_pc := CReturn err; r_contentLen := 0; r_partSize := 0;
     r_partDir := ""; r_workers := []; r_rate := false |}.

Definition on_start (t : Z) (filename : string) (w : world) : world :=
  if onDownloadStart (dl w) then emit (EvOnStart t filename) w else w.

Definition on_finished (filename : string) (w : world) : world :=
  if onDownloadFinished (dl w) then emit (EvOnFinished filename) w else w.

Definition on_canceled (filename : string) (w : world) : world :=
  if onDownloadCanceled (dl w) then emit (EvOnCanceled filename) w else w.

(** [multiDownload] up to the head of the spawn loop.  Go's integer
    division truncates and panics on a zero divisor. *)
Definition multiDownload_begin (E : env) (contentLen : Z) (w : world) : run :=
  if contentLen <=? 0
  then returning w (Some (Errorf ("invalid content length: " +:+ FormatInt contentLen)))
  else
    let filename := Options.FileName (options (dl w)) in
    let w1 := with_dl (set_sw (set_total contentLen (sw (dl w))) (dl w)) w in
    let w2 := on_start contentLen filename w1 in
    if concurrency (dl w2) =? 0 then with_pc CPanic (returning w2 None)
    else
      let partSize := contentLen ÷ concurrency (dl w2) in
      let partDir := getPartDir (dl w2) filename in
      let w3 := emit (EvFs (OpMkdirAll partDir)) w2 in
      match fs_fault E (OpMkdirAll partDir) with
      | Some e => returning w3 (Some (Errorf_w "failed to create cache directory" e))
      | None =>
          {| r_world := with_dl (set_partDir partDir (dl w3)) w3;
             r_pc := CSpawn 0 0;
             r_contentLen := contentLen; r_partSize := partSize;
             r_partDir := partDir; r_workers := []; r_rate := false |}
      end.

(** [singleDownload] up to the call of [Do]. *)
Definition singleDownload_begin (E : env) (w : world) : run :=
  let filename := Options.FileName (options (dl w)) in
  let '(ctx, w1) := WithCancel w in
  let w2 := Store filename ctx w1 in
  match url_error E (url (dl w)) with
  | Some e => returning (Delete filename w2) (Some (Errorf_w "failed to create request" e))
  | None => with_pc (CSingleDo ctx) (returning w2 None)
  end.

(** [http.Head]: the request is built, which checks the URL, and sent. *)
Definition http_Head (E : env) (u : string) (w : world) : world * result Response :=
  match url_error E u with
  | Some e => (w, Err e)
  | None => (emit (EvHead u) w, head E u)
  end.

(** [download] up to the first point where another goroutine matters. *)
Definition download_begin (E : env) (w : world) : run :=
  if String.eqb (url (dl w)) "" then returning w (Some ErrInvalidURL)
  else
    match http_Head E (url (dl w)) w with
    | (w1, Err e) => returning w1 (Some (Errorf_w "failed to get file info" e))
    | (w1, Ok resp) =>
        if (StatusCode resp =? StatusOK) && String.eqb (Accept_Ranges resp) "bytes"
        then multiDownload_begin E (ContentLength resp) w1
        else singleDownload_begin E w1
    end.

Definition all_done (ws : list worker) : bool :=
  forallb (fun wk => match w_pc wk with WDone _ => true | _ => false end) ws.

(** After [wg.Wait()]: the check of the stop signal, [merge], the removal
    of the part directory and the completion callback. *)
Definition post_join (E : env) (r : run) : run :=
  let w := r_world r in
  let filename := Options.FileName (options (dl w)) in
  if stopped w then with_pc (CReturn None) (with_world (on_canceled filename w) r)
  else
    match merge E w with
    | (w1, Some e) =>
        with_pc (CReturn (Some (Errorf_w "failed to merge parts" e))) (with_world w1 r)
    | (w1, None) =>
        let w2 := RemoveAll E (r_partDir r) w1 in
        with_pc (CReturn None) (with_world (on_finished filename w2) r)
    end.

(** The end of [singleDownload] once [io.CopyBuffer] has returned
    [copy_err]; the deferred [f.Close()] and [Delete] run last. *)
Definition single_finish (copy_err : option error) (r : run) : run :=
  let w := r_world r in
  let filename := Options.FileName (options (dl w)) in
  let exit w' := Delete filename (emit (EvFs (OpClose filename)) w') in
  let completes :=
    if stopped w
    then with_pc (CReturn None) (with_world (exit (on_canceled filename w)) r)
    else with_pc (CReturn None) (with_world (exit (on_finished filename w)) r) in
  match copy_err with
  | Some e =>
      if is_EOF e then completes
      else with_pc (CReturn (Some (Errorf_w "failed to write file" e))) (with_world (exit w) r)
  | None => completes
  end.

Definition coord_step (E : env) (r : run) : run :=
  let w := r_world r in
  let d := dl w in
  let filename := Options.FileName (options d) in
  match r_pc r with
  | CSpawn i rangeStart =>
      if i <? concurrency d then
        if stopped w then with_pc (CReturn None) r
        else
          with_pc (CSpawn (i + 1) (rangeStart + r_partSize r))
            (with_workers
               (r_workers r ++ [{| w_i := i; w_rangeStart := rangeStart; w_pc := WStart |}]) r)
      else with_pc CJoin r
  | CJoin => if all_done (r_workers r) then post_join E r else r
  | CSingleDo ctx =>
      if bool_decide (ctx ∈ cancelled w)
      then with_pc (CReturn (Some (Errorf_w "failed to download file" context_Canceled)))
             (with_world (Delete filename w) r)
      else
        let w1 := emit (EvGet (url d) None) w in
        match get E (url d) None with
        | Err e =>
            with_pc (CReturn (Some (Errorf_w "failed to download file" e)))
              (with_world (Delete filename w1) r)
        | Ok resp =>
            if negb (StatusCode resp =? StatusOK)
            then with_pc
                   (CReturn (Some (Errorf ("unexpected status code: "
                                            +:+ FormatInt (StatusCode resp)))))
                   (with_world (Delete filename w1) r)
            else
              let contentLen := ContentLength resp in
              let w2 := with_dl (set_sw (set_total contentLen (sw (dl w1))) (dl w1)) w1 in
              let w3 := on_start contentLen filename w2 in
              match OpenFile E filename true false w3 with
              | (w4, Some e) =>
                  with_pc (CReturn (Some (Errorf_w "failed to create file" e)))
                    (with_world (Delete filename w4) r)
              | (w4, None) =>
                  with_pc (CSingleCopy ctx (Body resp) (BodyEnd resp) 0 0) (with_world w4 r)
              end
        end
  | CSingleCopy ctx chunks fin k off =>
      match chunks with
      | [] => single_finish (if is_EOF fin then None else Some fin) r
      | c :: rest =>
          if bool_decide (ctx ∈ cancelled w) then single_finish (Some context_Canceled) r
          else
            match FileWrite E filename k false off c w with
            | (w1, Some e) => single_finish (Some e) (with_world w1 r)
            | (w1, None) =>
                with_pc (CSingleCopy ctx rest fin (S k) (off + length c)%nat)
                  (with_world (Write (Z.of_nat (length c)) w1) r)
            end
      end
  | CReturn _ => r
  | CPanic => r
  end.

(** ** Schedules

    A run is driven by a schedule: which goroutine takes its next step.
    [SStop] is a call of [Stop] from another goroutine, [SRate] a step of
    the [calcRate] task (its first statement, then one tick each). *)

Inductive sched_item : Type :=
| SCoord
| SWorker (k : nat)
| SStop
| SRate.

Definition running (r : run) : bool :=
  match r_pc r with
  | CReturn _ | CPanic => false
  | _ => true
  end.

Definition set_pc (pc : worker_pc) (wk : worker) : worker :=
  {| w_i := w_i wk; w_rangeStart := w_rangeStart wk; w_pc := pc |}.

Definition rate_step (r : run) : run :=
  let w := r_world r in
  let f := if r_rate r then calcRate_tick else calcRate_start in
  with_rate true (with_world (with_dl (set_sw (f (sw (dl w))) (dl w)) w) r).

Definition step (E : env) (r : run) (it : sched_item) : run :=
  match it with
  | SCoord => coord_step E r
  | SWorker k =>
      match r_workers r !! k with
      | Some wk =>
          let '(pc, w) := worker_step E (r_contentLen r) (r_partSize r) wk (r_world r) in
          with_workers (<[k := set_pc pc wk]> (r_workers r)) (with_world w r)
      | None => r
      end
  | SStop => with_world (Stop (r_world r)).1 r
  | SRate => if running r then rate_step r else r
  end.

(** How many steps a goroutine still takes, at most, before it changes
    phase; used to run a schedule that ends early to completion. *)
Definition worker_remaining (pc : worker_pc) : nat :=
  match pc with
  | WCopy _ chunks _ _ _ => S (length chunks)
  | WDone _ => 0
  | _ => 1
  end.

Definition coord_remaining (r : run) : nat :=
  match r_pc r with
  | CSpawn i _ => S (Z.to_nat (concurrency (dl (r_world r)) - i))
  | CSingleCopy _ chunks _ _ _ => S (length chunks)
  | CReturn _ | CPanic => 0
  | _ => 1
  end.

Definition worker_phase (E : env) (k : nat) (r : run) : run :=
  match r_workers r !! k with
  | Some wk => Nat.iter (worker_remaining (w_pc wk)) (fun r' => step E r' (SWorker k)) r
  | None => r
  end.

Definition worker_finish (E : env) (k : nat) (r : run) : run :=
  worker_phase E k (worker_phase E k (worker_phase E k (worker_phase E k r))).

Definition coord_phase (E : env) (r : run) : run :=
  Nat.iter (coord_remaining r) (coord_step E) r.

(** The join: every worker started runs to its end. *)
Definition join (E : env) (r : run) : run :=
  match r_pc r with
  | CJoin => fold_left (fun r' k => worker_finish E k r') (seq 0 (length (r_workers r))) r
  | _ => r
  end.

Definition finish (E : env) (r : run) : run :=
  coord_phase E (join E (coord_phase E (coord_phase E r))).

Inductive outcome : Type :=
| Returned (err : option error)
| Panicked
| Unfinished.

Definition outcome_of (r : run) : outcome :=
  match r_pc r with
  | CReturn err => Returned err
  | CPanic => Panicked
  | _ => Unfinished
  end.

(** The schedule is followed while the coordinator has not returned. *)
Fixpoint exec (E : env) (sched : list sched_item) (r : run) : run :=
  match sched with
  | [] => r
  | it :: rest => if running r then exec E rest (step E r it) else r
  end.

Definition run_sched (E : env) (sched : list sched_item) (r : run) : run :=
  finish E (exec E sched r).

(** [download], [Start] and [Resume] under a schedule. *)
Definition download (E : env) (sched : list sched_item) (w : world) : world * outcome :=
  let r := run_sched E sched (download_begin E w) in
  (r_world r, outcome_of r).

Definition Start (E : env) (sched : list sched_item) (w : world) : world * outcome :=
  download E sched (if stopped w then init w else w).

Definition Resume (E : env) (sched : list sched_item) (w : world) : world * outcome :=
  Start E sched w.

(** The world in which a downloader has just been constructed. *)
Definition new_world (d : Downloader) (fs : gmap string (list byte)) : world :=
  {| dl := d; files := fs; closed := ∅; cancelled := ∅; next_ctx := 0; trace := [] |}.

(** ** The format of rate strings *)

Inductive regex : Type :=
| RChar (c : ascii)
| RDigit
| RStr (s : string)
| RSeq (a b : regex)
| RAlt (a b : regex)
| ROpt (a : regex)
| RPlus (a : regex).

Inductive matches : regex -> string -> Prop :=
| MChar c : matches (RChar c) (String c "")
| MDigit c : is_digit c = true -> matches RDigit (String c "")
| MStr s : matches (RStr s) s
| MSeq a b s t : matches a s -> matches b t -> matches (RSeq a b) (s +:+ t)
| MAltL a b s : matches a s -> matches (RAlt a b) s
| MAltR a b s : matches b s -> matches (RAlt a b) s
| MOptNone a : matches (ROpt a) ""
| MOptSome a s : matches a s -> matches (ROpt a) s
| MPlusOne a s : matches a s -> matches (RPlus a) s
| MPlusMore a s t : matches a s -> matches (RPlus a) t -> matches (RPlus a) (s +:+ t).

(** [-?\d+\.\d{2} (B|KB|MB|GB)/s] *)
Definition rate_regex : regex :=
  RSeq (ROpt (RChar "-"))
    (RSeq (RPlus RDigit)
       (RSeq (RChar ".")
          (RSeq RDigit
             (RSeq RDigit
                (RSeq (RChar " ")
                   (RSeq (RAlt (RStr "B") (RAlt (RStr "KB") (RAlt (RStr "MB") (RStr "GB"))))
                      (RStr "/s"))))))).

(** The unit [formatRate] selects, by thresholds at powers of 1024. *)
Definition rate_unit (bytesPerSecond : Z) : string :=
  if 2 ^ 30 <=? bytesPerSecond then "GB"
  else if 2 ^ 20 <=? bytesPerSecond then "MB"
  else if 2 ^ 10 <=? bytesPerSecond then "KB"
  else "B".

(** ** Observer registration *)

Definition OnProgress (registered : bool) (d : Downloader) : Downloader :=
  set_sw {| loaded := loaded (sw d); total := total (sw d);
            accPacketSize := accPacketSize (sw d); rate := rate (sw d);
            onProgress := registered |} d.

Definition OnDownloadStart (registered : bool) (d : Downloader) : Downloader :=
  {| url := url d; concurrency := concurrency d; resume := resume d;
     partDir := partDir d; sw := sw d; options := options d;
     stopSignal := stopSignal d; mCancelFunc := mCancelFunc d;
     onDownloadStart := registered;
     onDownloadFinished := onDownloadFinished d;
     onDownloadCanceled := onDownloadCanceled d |}.

Definition OnDownloadFinished (registered : bool) (d : Downloader) : Downloader :=
  {| url := url d; concurrency := concurrency d; resume := resume d;
     partDir := partDir d; sw := sw d; options := options d;
     stopSignal := stopSignal d; mCancelFunc := mCancelFunc d;
     onDownloadStart := onDownloadStart d;
     onDownloadFinished := registered;
     onDownloadCanceled := onDownloadCanceled d |}.

Definition OnDownloadCanceled (registered : bool) (d : Downloader) : Downloader :=
  {| url := url d; concurrency := concurrency d; resume := resume d;
     partDir := partDir d; sw := sw d; options := options d;
     stopSignal := stopSignal d; mCancelFunc := mCancelFunc d;
     onDownloadStart := onDownloadStart d;
     onDownloadFinished := onDownloadFinished d;
     onDownloadCanceled := registered |}.

Definition observed (d : Downloader) : Downloader :=
  OnDownloadCanceled true (OnDownloadFinished true (OnDownloadStart true (OnProgress true d))).

(** ** A server for the examples

    It serves [content], announces range support when [ranges] is set, and
    answers a range request with status 206 and the bytes asked for, as
    one slice. *)

Definition slice (lo hi : Z) (l : list byte) : list byte :=
  take (Z.to_nat (hi - lo)) (drop (Z.to_nat lo) l).

Definition parse_range (len : Z) (hdr : string) : option (Z * Z) :=
  List.find (fun p => String.eqb hdr (Range_header p.1 p.2))
    (flat_map (fun lo => map (fun hi => (lo, hi)) (seqZ 0 (len + 1))) (seqZ 0 (len + 1))).

Definition serve (ranges : bool) (content : list byte) : env :=
  let len := Z.of_nat (length content) in
  {| url_error := fun _ => None;
     head := fun _ =>
       Ok {| StatusCode := StatusOK;
             Accept_Ranges := if ranges then "bytes" else "";
             ContentLength := len; Body := []; BodyEnd := io_EOF |};
     get := fun _ hdr =>
       match hdr with
       | None =>
           Ok {| StatusCode := StatusOK; Accept_Ranges := ""; ContentLength := len;
                 Body := [content]; BodyEnd := io_EOF |}
       | Some h =>
           match parse_range len h with
           | Some (lo, hi) =>
               Ok {| StatusCode := StatusPartialContent; Accept_Ranges := "bytes";
                     ContentLength := hi - lo;
                     Body := [slice lo hi content]; BodyEnd := io_EOF |}
           | None =>
               Ok {| StatusCode := 416; Accept_Ranges := "bytes"; ContentLength := 0;
                     Body := []; BodyEnd := io_EOF |}
           end
       end;
     fs_fault := fun _ => None |}.

Definition ten_bytes : list byte :=
  ["A"; "B"; "C"; "D"; "E"; "F"; "G"; "H"; "I"; "J"]%byte.

Definition is_get (e : event) : bool :=
  match e with EvGet _ _ => true | _ => false end.

(** ** The operations of a merge, for its specification *)

(** What [merge] does with part [i] when nothing fails. *)
Definition part_ops (d : Downloader) (filename : string) (i : Z) : list fs_op :=
  let p := getPartFilename d filename i in
  [OpOpen p; OpCopy filename p; OpClose p; OpRemove p].

Inductive merge_stage : Type := AtOpen | AtCopy | AtClose | AtRemove.

(** What [merge] has done with part [i] when the operation of stage [st]
    fails: after a failed copy the part is still closed. *)
Definition failed_part_ops (d : Downloader) (filename : string) (i : Z)
    (st : merge_stage) : list fs_op :=
  let p := getPartFilename d filename i in
  match st with
  | AtOpen => [OpOpen p]
  | AtCopy => [OpOpen p; OpCopy filename p; OpClose p]
  | AtClose => [OpOpen p; OpCopy filename p; OpClose p]
  | AtRemove => [OpOpen p; OpCopy filename p; OpClose p; OpRemove p]
  end.

Definition stage_message (st : merge_stage) (i : Z) : string :=
  match st with
  | AtOpen => "failed to open part " +:+ FormatInt i
  | AtCopy => "failed to copy part " +:+ FormatInt i
  | AtClose => "failed to close part " +:+ FormatInt i
  | AtRemove => "failed to remove part " +:+ FormatInt i
  end.

(** The operation at which [merge] fails on part [i] when it meets the
    part as the file system [fs] has it, with the cause: a fault of one of
    the four operations, or a part file that does not exist. *)
Definition part_failure (E : env) (fs : gmap string (list byte)) (d : Downloader)
    (filename : string) (i : Z) : option (merge_stage * error) :=
  let p := getPartFilename d filename i in
  match fs_fault E (OpOpen p) with
  | Some cause => Some (AtOpen, cause)
  | None =>
      match fs !! p with
      | None => Some (AtOpen, ErrExternal "no such file or directory")
      | Some _ =>
          match fs_fault E (OpCopy filename p) with
          | Some cause => Some (AtCopy, cause)
          | None =>
              match fs_fault E (OpClose p) with
              | Some cause => Some (AtClose, cause)
              | None =>
                  match fs_fault E (OpRemove p) with
                  | Some cause => Some (AtRemove, cause)
                  | None => None
                  end
              end
          end
      end
  end.

(** The first part of [parts] at which [merge] fails. *)
Fixpoint first_failure (E : env) (fs : gmap string (list byte)) (d : Downloader)
    (filename : string) (parts : list Z) : option (Z * merge_stage * error) :=
  match parts with
  | [] => None
  | i :: rest =>
      match part_failure E fs d filename i with
      | Some (st, cause) => Some (i, st, cause)
      | None => first_failure E fs d filename rest
      end
  end.

(** What the destination has received, as [tail], of a part of content
    [c] when the merge fails on it at stage [st]: nothing before the copy,
    all of it after, and some beginning of it when the copy itself fails. *)
Definition received (st : merge_stage) (c tail : list byte) : Prop :=
  match st with
  | AtOpen => tail = []
  | AtCopy => tail `prefix_of` c
  | AtClose | AtRemove => tail = c
  end.

(** ** Classes of events, for the specifications *)

Definition is_observer (e : event) : bool :=
  match e with
  | EvOnProgress _ _ _ | EvOnStart _ _ | EvOnFinished _ | EvOnCanceled _ => true
  | _ => false
  end.

Definition is_completion (e : event) : bool :=
  match e with
  | EvOnFinished _ | EvOnCanceled _ => true
  | _ => false
  end.

Definition is_open_for_write (e : event) : bool :=
  match e with
  | EvFs (OpOpenFile _ _ _) => true
  | _ => false
  end.

(** The events of [w] after the trace [t0] all satisfy [P]. *)
Definition since (t0 : list event) (P : event -> Prop) (w : world) : Prop :=
  exists evs, trace w = t0 ++ evs /\ Forall P evs.

(** The events of file operations, of the registry and of [Stop], and
    the HEAD request. *)
Definition is_plumbing (e : event) : bool :=
  match e with
  | EvFs _ | EvStore _ _ | EvDelete _ | EvCancel _ | EvHead _ => true
  | _ => false
  end.

(** What a run never changes of the downloader: its configuration and
    the registration of its callbacks. *)
Definition settings (d : Downloader) : string * Z * bool * Options.t * (bool * bool * bool * bool) :=
  (url d, concurrency d, resume d, options d,
   (onDownloadStart d, onDownloadFinished d, onDownloadCanceled d, onProgress (sw d))).

(** ** What the progress callback is told

    [selfWriter.Write] updates the counter and reads [loaded] and [total]
    under the lock, and calls the progress callback after the unlock.  A
    trace records the callback where its arguments are read, next to the
    write it belongs to; the calls of different goroutines can reach the
    observer in another order than the trace's.  [delivered evs obs] says
    that [obs] is an order in which the callbacks recorded in [evs] are
    delivered; every permutation is admitted, which covers every order the
    goroutines can produce.  The rate string is loaded after the unlock and
    is not part of what is compared. *)

(** The lengths of the writes to the sink, in the order of the updates of
    the counter. *)
Definition sink_writes (evs : list event) : list Z :=
  omap (fun e => match e with EvSinkWrite n => Some n | _ => None end) evs.

(** The [(loaded, total)] arguments of the progress callbacks. *)
Definition progress_calls (evs : list event) : list (Z * Z) :=
  omap (fun e => match e with EvOnProgress l t _ => Some (l, t) | _ => None end) evs.

Definition delivered (evs : list event) (obs : list (Z * Z)) : Prop :=
  obs ≡ₚ progress_calls evs.

Fixpoint sumZ (ns : list Z) : Z :=
  match ns with
  | [] => 0
  | n :: rest => n + sumZ rest
  end.

(** The [int64] counter after writes of the lengths [ns]. *)
Definition counter_after (l : Z) (ns : list Z) : Z :=
  fold_left (fun l' n => wrap64 (l' + n)) ns l.

(** What a run does to the counter, from the count [l0] it starts with:
    every write is of a slice, the counter ends after all of them, and
    every progress callback was handed the counter as it stood after one
    of them. *)
Definition counted (l0 : Z) (evs : list event) (l : Z) : Prop :=
  let ns := sink_writes evs in
  Forall (fun n => 0 <= n) ns /\
  l = counter_after l0 ns /\
  Forall (fun lt => exists k, (0 < k <= length ns)%nat /\ lt.1 = counter_after l0 (take k ns))
    (progress_calls evs).

Definition is_sink (e : event) : bool :=
  match e with
  | EvSinkWrite _ | EvOnProgress _ _ _ => true
  | _ => false
  end.

Definition reported (e : event) : option Z :=
  match e with
  | EvOnProgress l _ _ => Some l
  | _ => None
  end.

(** ** The partition of a multi-range download, for its specification

    The half-open range of worker [i] for a length [L] and [N] workers, as
    the spawn loop and the worker compute it with nothing on disk. *)
Definition part_lo (L N i : Z) : Z := i * (L ÷ N).

Definition part_hi (L N i : Z) : Z :=
  if i =? N - 1 then L else i * (L ÷ N) + L ÷ N.

(** The [Range] headers of the GET requests among some events. *)
Definition gets (evs : list event) : list (option string) :=
  omap (fun e => match e with EvGet _ h => Some h | _ => None end) evs.

(** The requests of the workers with a non-empty range. *)
Definition partition_requests (L N : Z) : list (option string) :=
  (fun i => Some (Range_header (part_lo L N i) (part_hi L N i)))
    <$> filter (fun i => part_lo L N i < part_hi L N i) (seqZ 0 N).

(** How far a worker is from its end, by phase, and where the worker at
    position [k] of a run stands. *)
Definition rank (pc : worker_pc) : nat :=
  match pc with
  | WStart => 4
  | WFetch _ _ => 3
  | WDo _ _ _ => 2
  | WCopy _ _ _ _ _ => 1
  | WDone _ => 0
  end.

Definition pc_at (r : run) (k : nat) : option worker_pc := w_pc <$> r_workers r !! k.

(** The request a worker has sent once it is past [Do], and the requests
    of a list of workers. *)
Definition past_request (pc : worker_pc) : bool :=
  match pc with
  | WCopy _ _ _ _ _ | WDone _ => true
  | _ => false
  end.

Definition issued_by (N L partSize : Z) (wk : worker) : list (option string) :=
  let hi := if w_i wk =? N - 1 then L else w_rangeStart wk + partSize in
  if past_request (w_pc wk) && (w_rangeStart wk <? hi)
  then [Some (Range_header (w_rangeStart wk) hi)]
  else [].

Definition issued (N L partSize : Z) (ws : list worker) : list (option string) :=
  flat_map (issued_by N L partSize) ws.

(** What holds of a worker of a run without [Stop]: the range it
    fetches is the one of its index, and its context is not cancelled. *)
Definition pc_ok (N L partSize : Z) (wk : worker) (w : world) : Prop :=
  let hi := if w_i wk =? N - 1 then L else w_rangeStart wk + partSize in
  match w_pc wk with
  | WFetch a b => a = w_rangeStart wk /\ b = hi
  | WDo a b ctx => a = w_rangeStart wk /\ b = hi /\ a < b /\ ctx ∉ cancelled w
  | WCopy _ _ _ _ _ => w_rangeStart wk < hi
  | _ => True
  end.

(** ** The command line

    What [main] makes of its flags: the output name, taken from the URL
    when the flag is empty, and the options it constructs the downloader
    with; the [-c] flag is passed on only when it is positive. *)
Definition main_output (url output : string) : string :=
  if String.eqb output "" then
    let output := filepath_Base url in
    if String.eqb output "/" || String.eqb output "." then "downloaded_file" else output
  else output.

Definition main_opts (output cacheDir : string) (noResume : bool) (concurrency : Z)
    : list OptionFunc :=
  [WithFileName output; WithBaseDir cacheDir; WithResume (negb noResume)]
  ++ (if 0 <? concurrency then [WithConcurrency concurrency] else []).

(** The options [NewDownloader] keeps: a concurrency of zero is replaced. *)
Definition fixup_concurrency (ncpu : positive) (o : Options.t) : Options.t :=
  if Options.Concurrency o =? 0 then WithConcurrency (Z.pos ncpu) o else o.

(** ** Sequences of writes to the sink *)

Definition Writes (ns : list Z) (w : world) : world :=
  fold_left (fun w' n => Write n w') ns w.

Fixpoint running_sums (l : Z) (ns : list Z) : list Z :=
  match ns with
  | [] => []
  | n :: rest => (l + n) :: running_sums (l + n) rest
  end.

(** ** The errors of [Start], by their message *)

Definition download_errors : list string :=
  ["failed to get file info"; "failed to create cache directory"; "failed to merge parts";
   "failed to create request"; "failed to download file"; "failed to create file";
   "failed to write file"].

Definition is_Start_error (e : error) : bool :=
  match e with
  | ErrInvalidURL => true
  | Errorf_w msg _ => bool_decide (msg ∈ download_errors)
  | Errorf msg =>
      String.prefix "invalid content length: " msg
      || String.prefix "unexpected status code: " msg
  | _ => false
  end.

(** * Properties *)

(** ** Machine integers *)

Lemma wrap64_in_range (z : Z) : in_int64 (wrap64 z).
Proof.
  unfold in_int64, wrap64, min_int64, max_int64.
  pose proof (Z.mod_pos_bound (z + 2 ^ 63) (2 ^ 64) ltac:(lia)). lia.
Qed.

Lemma wrap64_id (z : Z) : in_int64 z -> wrap64 z = z.
Proof.
  unfold in_int64, wrap64, min_int64, max_int64. intros H.
  rewrite Z.mod_small by lia. lia.
Qed.

(** ** Rate strings *)

Lemma string_app_assoc (a b c : string) : (a +:+ b) +:+ c = a +:+ (b +:+ c).
Proof.
  induction a as [|x a IH]; [reflexivity |].
  change (String x ((a +:+ b) +:+ c) = String x (a +:+ (b +:+ c))).
  now rewrite IH.
Qed.

Lemma digit_char_is_digit (d : Z) : 0 <= d <= 9 -> is_digit (digit_char d) = true.
Proof.
  intros H. assert (Hc : d = 0 \/ d = 1 \/ d = 2 \/ d = 3 \/ d = 4 \/ d = 5
                         \/ d = 6 \/ d = 7 \/ d = 8 \/ d = 9) by lia.
  repeat (destruct Hc as [-> | Hc]; [reflexivity |]). subst; reflexivity.
Qed.

Lemma digits_nonnil (d : Decimal.uint) :
  d <> Decimal.Nil -> matches (RPlus RDigit) (NilEmpty.string_of_uint d).
Proof.
  induction d as [|d IH|d IH|d IH|d IH|d IH|d IH|d IH|d IH|d IH|d IH];
    intros Hd; [congruence | ..];
    (destruct d as [| | | | | | | | | |];
     [ apply MPlusOne, MDigit; reflexivity
     | apply (MPlusMore RDigit (String _ "")); [apply MDigit; reflexivity | apply IH; discriminate] .. ]).
Qed.

Lemma FormatNat_digits (n : N) : matches (RPlus RDigit) (FormatNat n).
Proof.
  unfold FormatNat, NilZero.string_of_uint.
  destruct (N.to_uint n) eqn:Hn;
    [apply MPlusOne, MDigit; reflexivity | apply digits_nonnil; discriminate ..].
Qed.

Lemma round_half_even_nonneg (num den : Z) :
  0 <= num -> 0 < den -> 0 <= round_half_even num den.
Proof.
  intros Hn Hd. unfold round_half_even.
  assert (0 <= num / den) by (apply Z.div_pos; lia).
  destruct (_ || _); lia.
Qed.

Lemma Sprintf_2f_matches (num exp2 : Z) (R : regex) (rest : string) :
  0 <= exp2 ->
  matches R rest ->
  matches
    (RSeq (ROpt (RChar "-"))
       (RSeq (RPlus RDigit) (RSeq (RChar ".") (RSeq RDigit (RSeq RDigit R)))))
    (Sprintf_2f num exp2 +:+ rest).
Proof.
  intros He HR. unfold Sprintf_2f.
  set (scaled := round_half_even (Z.abs num * 100) (2 ^ exp2)).
  assert (Hs : 0 <= scaled)
    by (apply round_half_even_nonneg; [lia | apply Z.pow_pos_nonneg; lia]).
  rewrite !string_app_assoc.
  apply MSeq.
  { destruct (num <? 0); [apply MOptSome, MChar | apply MOptNone]. }
  apply MSeq; [apply FormatNat_digits |].
  apply (MSeq (RChar ".") _ (String "." "")); [apply MChar |].
  apply (MSeq RDigit _ (String _ "")).
  { apply MDigit, digit_char_is_digit.
    pose proof (Z.mod_pos_bound scaled 100 ltac:(lia)).
    split; [apply Z.div_pos; lia |].
    enough ((scaled mod 100) / 10 < 10) by lia. apply Z.div_lt_upper_bound; lia. }
  apply (MSeq RDigit _ (String _ "")); [| exact HR].
  apply MDigit, digit_char_is_digit.
  pose proof (Z.mod_pos_bound scaled 10 ltac:(lia)). lia.
Qed.

Lemma unit_suffix_matches (u : string) :
  u = "B" \/ u = "KB" \/ u = "MB" \/ u = "GB" ->
  matches
    (RSeq (RChar " ")
       (RSeq (RAlt (RStr "B") (RAlt (RStr "KB") (RAlt (RStr "MB") (RStr "GB"))))
          (RStr "/s")))
    (" " +:+ u +:+ "/s").
Proof.
  intros Hu. apply (MSeq (RChar " ") _ (String " " "")); [apply MChar |].
  apply MSeq; [| apply MStr].
  destruct Hu as [-> | [-> | [-> | ->]]].
  - apply MAltL, MStr.
  - apply MAltR, MAltL, MStr.
  - apply MAltR, MAltR, MAltL, MStr.
  - apply MAltR, MAltR, MAltR, MStr.
Qed.

Lemma formatRate_unit (v : Z) :
  formatRate v =
    Sprintf_2f v (if 2 ^ 30 <=? v then 30 else if 2 ^ 20 <=? v then 20
                  else if 2 ^ 10 <=? v then 10 else 0)
    +:+ " " +:+ rate_unit v +:+ "/s".
Proof.
  unfold formatRate, rate_unit.
  destruct (2 ^ 30 <=? v); [reflexivity |].
  destruct (2 ^ 20 <=? v); [reflexivity |].
  destruct (2 ^ 10 <=? v); reflexivity.
Qed.

Lemma formatRate_matches (v : Z) : matches rate_regex (formatRate v).
Proof.
  rewrite formatRate_unit. apply Sprintf_2f_matches.
  - repeat (destruct (_ <=? _); [lia |]). lia.
  - apply unit_suffix_matches. unfold rate_unit.
    repeat (destruct (_ <=? _); [tauto |]). tauto.
Qed.

Lemma float64_of_int64_exact (n : Z) : Z.abs n <= 2 ^ 53 -> float64_of_int64 n = n.
Proof.
  intros H. unfold float64_of_int64.
  destruct (Z.abs n <? 2 ^ 53) eqn:Hlt; [reflexivity |].
  apply Z.ltb_ge in Hlt. assert (Ha : Z.abs n = 2 ^ 53) by lia.
  rewrite Ha. rewrite Z.log2_pow2 by lia.
  replace (53 - 52) with 1 by lia. cbn -[Z.sgn Z.mul Z.pow].
  destruct (Z.abs_spec n) as [[? Hn] | [? Hn]]; rewrite Ha in Hn.
  - rewrite <- Hn. reflexivity.
  - assert (n = - 2 ^ 53) as -> by lia. reflexivity.
Qed.

(** C9. The initial rate string and every string a tick of the rate task
    publishes match [-?\d+\.\d{2} (B|KB|MB|GB)/s]; the unit is chosen by the
    thresholds 2^30, 2^20 and 2^10 on the bytes-per-second value; and a tick
    swaps the window count with zero and publishes the rate for that count
    times four (the count itself as long as float64 holds it exactly). *)
Theorem calcRate_rate_strings :
  matches rate_regex initial_rate /\
  (forall sw : selfWriter,
      rate (calcRate_start sw) = initial_rate /\
      accPacketSize (calcRate_tick sw) = 0 /\
      rate (calcRate_tick sw) = formatRate (bytesPerSecond (accPacketSize sw)) /\
      matches rate_regex (rate (calcRate_tick sw)) /\
      loaded (calcRate_tick sw) = loaded sw /\ total (calcRate_tick sw) = total sw) /\
  (forall acc : Z, Z.abs acc <= 2 ^ 53 -> bytesPerSecond acc = acc * 4) /\
  (forall v : Z,
      (2 ^ 30 <= v -> formatRate v = Sprintf_2f v 30 +:+ " GB/s") /\
      (2 ^ 20 <= v < 2 ^ 30 -> formatRate v = Sprintf_2f v 20 +:+ " MB/s") /\
      (2 ^ 10 <= v < 2 ^ 20 -> formatRate v = Sprintf_2f v 10 +:+ " KB/s") /\
      (v < 2 ^ 10 -> formatRate v = Sprintf_2f v 0 +:+ " B/s")).
Proof.
  split; [| split; [| split]].
  - change initial_rate with (Sprintf_2f 0 20 +:+ " " +:+ "MB" +:+ "/s").
    apply Sprintf_2f_matches; [lia |]. apply unit_suffix_matches. tauto.
  - intros s. repeat split. apply formatRate_matches.
  - intros acc H. unfold bytesPerSecond. now rewrite float64_of_int64_exact.
  - intros v. unfold formatRate. repeat split; intros H.
    + destruct (Z.leb_spec (2 ^ 30) v); [reflexivity | lia].
    + destruct (Z.leb_spec (2 ^ 30) v); [lia |].
      destruct (Z.leb_spec (2 ^ 20) v); [reflexivity | lia].
    + destruct (Z.leb_spec (2 ^ 30) v); [lia |].
      destruct (Z.leb_spec (2 ^ 20) v); [lia |].
      destruct (Z.leb_spec (2 ^ 10) v); [reflexivity | lia].
    + destruct (Z.leb_spec (2 ^ 30) v); [lia |].
      destruct (Z.leb_spec (2 ^ 20) v); [lia |].
      destruct (Z.leb_spec (2 ^ 10) v); [lia | reflexivity].
Qed.

Lemma calcRate_rate_strings_witness :
  bytesPerSecond 1048576 = 4194304 /\ formatRate 4194304 = "4.00 MB/s".
Proof.
  destruct calcRate_rate_strings as (_ & _ & Hbps & Hunit).
  split.
  - rewrite (Hbps 1048576); [reflexivity | vm_compute; discriminate].
  - destruct (Hunit 4194304) as (_ & Hmb & _).
    rewrite Hmb; [reflexivity | lia].
Defined.

(** ** The controller *)

Lemma stopped_true (w : world) : stopped w = true <-> stopSignal (dl w) ∈ closed w.
Proof. unfold stopped. apply bool_decide_eq_true. Qed.

Lemma stopped_false (w : world) : stopped w = false <-> stopSignal (dl w) ∉ closed w.
Proof. unfold stopped. apply bool_decide_eq_false. Qed.

(** C4. [Stop] on a raised signal fails with [ErrAlreadyStopped] and leaves
    the world as it is; [Stop] on an unraised signal raises it, invokes the
    handles of the registry and no other, empties the registry and returns
    nil; so the second of two [Stop]s in a row always fails with
    [ErrAlreadyStopped]. *)
Theorem Stop_then_Stop (w : world) :
  (stopped w = true -> Stop w = (w, Some ErrAlreadyStopped)) /\
  (stopped w = false ->
     (Stop w).2 = None /\
     stopped (Stop w).1 = true /\
     (forall key ctx, mCancelFunc (dl w) !! key = Some ctx -> ctx ∈ cancelled (Stop w).1) /\
     trace (Stop w).1 = trace w ++ (EvCancel <$> (map_to_list (mCancelFunc (dl w))).*2) /\
     mCancelFunc (dl (Stop w).1) = ∅ /\
     files (Stop w).1 = files w /\ sw (dl (Stop w).1) = sw (dl w)) /\
  Stop (Stop w).1 = ((Stop w).1, Some ErrAlreadyStopped).
Proof.
  assert (Hraise : stopped w = false -> stopped (Stop w).1 = true).
  { intros Hs. unfold Stop. rewrite Hs. cbn. apply stopped_true. cbn. set_solver. }
  split; [| split].
  - intros Hs. unfold Stop. now rewrite Hs.
  - intros Hs. split; [| split; [| split; [| split; [| split; [| split]]]]];
      try (unfold Stop; rewrite Hs; reflexivity); [exact (Hraise Hs) |].
    intros key ctx Hk. unfold Stop. rewrite Hs. cbn.
    apply elem_of_union_l, elem_of_list_to_set, list_elem_of_fmap.
    exists (key, ctx). split; [reflexivity |]. now apply elem_of_map_to_list.
  - destruct (stopped w) eqn:Hs.
    + unfold Stop at 2 3. rewrite Hs. cbn. unfold Stop. now rewrite Hs.
    + specialize (Hraise eq_refl). unfold Stop at 1. now rewrite Hraise.
Qed.

Lemma Stop_then_Stop_witness :
  let w := new_world (NewDownloader 4 0 "http://h/f.bin" []) ∅ in
  stopped w = false /\ (Stop w).2 = None /\
  (Stop (Stop w).1).2 = Some ErrAlreadyStopped.
Proof.
  intros w. destruct (Stop_then_Stop w) as (_ & H2 & H3).
  assert (Hs : stopped w = false) by (vm_compute; reflexivity).
  split; [exact Hs |]. split; [exact (proj1 (H2 Hs)) | now rewrite H3].
Defined.

(** ** Runs that have returned *)

Lemma exec_not_running (E : env) (sched : list sched_item) (r : run) :
  running r = false -> exec E sched r = r.
Proof. intros H. destruct sched; cbn; [reflexivity | now rewrite H]. Qed.

Lemma coord_phase_not_running (E : env) (r : run) :
  running r = false -> coord_phase E r = r.
Proof.
  unfold running, coord_phase, coord_remaining.
  destruct (r_pc r); intros H; try discriminate; reflexivity.
Qed.

Lemma join_not_running (E : env) (r : run) : running r = false -> join E r = r.
Proof. unfold running, join. destruct (r_pc r); intros H; try discriminate; reflexivity. Qed.

Lemma finish_not_running (E : env) (r : run) : running r = false -> finish E r = r.
Proof.
  intros H. unfold finish.
  now rewrite !(coord_phase_not_running E r H), (join_not_running E r H),
    (coord_phase_not_running E r H).
Qed.

Lemma run_sched_not_running (E : env) (sched : list sched_item) (r : run) :
  running r = false -> run_sched E sched r = r.
Proof.
  intros H. unfold run_sched. rewrite exec_not_running by exact H.
  now apply finish_not_running.
Qed.

(** C6. With an empty URL [Start] returns [ErrInvalidURL]; the world it
    leaves is the one it was called in (re-initialised when the stop signal
    was raised): no request, no file operation and no callback. *)
Theorem Start_empty_url (E : env) (sched : list sched_item) (w : world) :
  url (dl w) = "" ->
  Start E sched w = (if stopped w then init w else w, Returned (Some ErrInvalidURL)) /\
  trace (Start E sched w).1 = trace w /\
  files (Start E sched w).1 = files w.
Proof.
  intros Hu.
  assert (Hd : forall w0, url (dl w0) = "" ->
             download E sched w0 = (w0, Returned (Some ErrInvalidURL))).
  { intros w0 H0. unfold download, download_begin. rewrite H0. cbn [String.eqb].
    now rewrite run_sched_not_running. }
  unfold Start. destruct (stopped w).
  - rewrite Hd by exact Hu. repeat split.
  - rewrite Hd by exact Hu. repeat split.
Qed.

Lemma Start_empty_url_witness :
  let w := new_world (NewDownloader 4 0 "" [WithFileName "test.txt"]) ∅ in
  url (dl w) = "" /\
  (Start {| url_error := fun _ => None; head := fun _ => Err (ErrExternal "unreachable");
            get := fun _ _ => Err (ErrExternal "unreachable");
            fs_fault := fun _ => None |} [SCoord; SStop] w).2
  = Returned (Some ErrInvalidURL).
Proof.
  intros w. split; [reflexivity |].
  now rewrite (proj1 (Start_empty_url _ _ w eq_refl)).
Defined.

(** ** Construction and the divisor of the partition *)

Lemma NewDownloader_concurrency (ncpu : positive) (chan : nat) (u : string)
    (opts : list OptionFunc) :
  let requested :=
    Options.Concurrency
      (fold_left (fun o opt => opt o) opts
         {| Options.FileName := filepath_Base u; Options.BaseDir := DefaultBaseDir;
            Options.Concurrency := Z.pos ncpu; Options.Resume := true |}) in
  concurrency (NewDownloader ncpu chan u opts)
  = if requested =? 0 then Z.pos ncpu else requested.
Proof. cbn zeta. unfold NewDownloader. cbn zeta. now destruct (_ =? 0). Qed.

Lemma NewDownloader_concurrency_nonzero (ncpu : positive) (chan : nat) (u : string)
    (opts : list OptionFunc) :
  concurrency (NewDownloader ncpu chan u opts) <> 0.
Proof.
  rewrite NewDownloader_concurrency.
  destruct (Z.eqb_spec
    (Options.Concurrency
      (fold_left (fun o opt => opt o) opts
         {| Options.FileName := filepath_Base u; Options.BaseDir := DefaultBaseDir;
            Options.Concurrency := Z.pos ncpu; Options.Resume := true |})) 0); lia.
Qed.

Lemma NewDownloader_zero_is_default (ncpu : positive) (chan : nat) (u : string)
    (opts : list OptionFunc) :
  concurrency (NewDownloader ncpu chan u (opts ++ [WithConcurrency 0])) = Z.pos ncpu.
Proof. rewrite NewDownloader_concurrency, fold_left_app. reflexivity. Qed.

(** *** Invariants of runs

    A property that every step of a running coordinator or worker keeps
    holds at the end of every run. *)

Lemma coord_step_not_running (E : env) (r : run) :
  running r = false -> coord_step E r = r.
Proof. unfold running, coord_step. destruct (r_pc r); intros H; try discriminate; reflexivity. Qed.

Lemma worker_step_pc (E : env) (r : run) (k : nat) : r_pc (step E r (SWorker k)) = r_pc r.
Proof. cbn. repeat case_match; reflexivity. Qed.

Section RunInvariant.
Variable E : env.
Variable P : run -> Prop.
Variable ok_item : sched_item -> Prop.
Hypothesis ok_coord : ok_item SCoord.
Hypothesis ok_worker : forall k, ok_item (SWorker k).
Hypothesis step_keeps :
  forall r it, ok_item it -> running r = true -> P r -> P (step E r it).

Lemma exec_keeps_if (sched : list sched_item) (r : run) :
  Forall ok_item sched -> P r -> P (exec E sched r).
Proof.
  intros Hs. revert r. induction Hs as [|it sched Hit Hs IH]; intros r H; cbn; [exact H |].
  destruct (running r) eqn:Hr; [| exact H]. now apply IH, step_keeps.
Qed.

Lemma coord_step_keeps (r : run) : P r -> P (coord_step E r).
Proof.
  intros H. destruct (running r) eqn:Hr.
  - exact (step_keeps r SCoord ok_coord Hr H).
  - now rewrite coord_step_not_running.
Qed.

Lemma coord_phase_keeps (r : run) : P r -> P (coord_phase E r).
Proof.
  intros H. unfold coord_phase. generalize (coord_remaining r). intros n.
  induction n as [|n IH]; [exact H | rewrite Nat.iter_succ; now apply coord_step_keeps].
Qed.

Lemma worker_steps_keep (k n : nat) (r : run) :
  running r = true -> P r ->
  P (Nat.iter n (fun r' => step E r' (SWorker k)) r) /\
  r_pc (Nat.iter n (fun r' => step E r' (SWorker k)) r) = r_pc r.
Proof.
  intros Hr H. induction n as [|n [IH1 IH2]]; [now split |].
  rewrite Nat.iter_succ. split; [| now rewrite worker_step_pc].
  apply step_keeps; [apply ok_worker | | exact IH1]. unfold running in *. now rewrite IH2.
Qed.

Lemma worker_phase_keeps (k : nat) (r : run) :
  running r = true -> P r ->
  P (worker_phase E k r) /\ r_pc (worker_phase E k r) = r_pc r.
Proof.
  intros Hr H. unfold worker_phase. destruct (_ !! _); [| now split].
  now apply worker_steps_keep.
Qed.

Lemma worker_finish_keeps (k : nat) (r : run) :
  running r = true -> P r ->
  P (worker_finish E k r) /\ r_pc (worker_finish E k r) = r_pc r.
Proof.
  intros Hr H. unfold worker_finish.
  destruct (worker_phase_keeps k r Hr H) as [H1 E1].
  assert (R1 : running (worker_phase E k r) = true) by (unfold running in *; now rewrite E1).
  destruct (worker_phase_keeps k _ R1 H1) as [H2 E2].
  assert (R2 : running (worker_phase E k (worker_phase E k r)) = true)
    by (unfold running in *; now rewrite E2).
  destruct (worker_phase_keeps k _ R2 H2) as [H3 E3].
  assert (R3 : running (worker_phase E k (worker_phase E k (worker_phase E k r))) = true)
    by (unfold running in *; now rewrite E3).
  destruct (worker_phase_keeps k _ R3 H3) as [H4 E4].
  split; [exact H4 | congruence].
Qed.

Lemma join_keeps (r : run) : P r -> P (join E r).
Proof.
  intros H. unfold join. destruct (r_pc r) eqn:Hpc; try exact H.
  assert (Hr : running r = true) by (unfold running; now rewrite Hpc).
  clear Hpc. generalize (seq 0 (length (r_workers r))). intros l.
  revert r H Hr. induction l as [|k l IH]; intros r H Hr; cbn; [exact H |].
  destruct (worker_finish_keeps k r Hr H) as [H1 E1].
  apply IH; [exact H1 |]. unfold running in *. now rewrite E1.
Qed.

Lemma finish_keeps (r : run) : P r -> P (finish E r).
Proof.
  intros H. unfold finish.
  now apply coord_phase_keeps, join_keeps, coord_phase_keeps, coord_phase_keeps.
Qed.

Lemma run_sched_keeps_if (sched : list sched_item) (r : run) :
  Forall ok_item sched -> P r -> P (run_sched E sched r).
Proof. intros Hs H. unfold run_sched. now apply finish_keeps, exec_keeps_if. Qed.
End RunInvariant.

Lemma exec_keeps (E : env) (P : run -> Prop) :
  (forall r it, running r = true -> P r -> P (step E r it)) ->
  forall sched r, P r -> P (exec E sched r).
Proof.
  intros H sched r. apply (exec_keeps_if E P (fun _ => True)); [auto |].
  apply Forall_forall. auto.
Qed.

Lemma run_sched_keeps (E : env) (P : run -> Prop) :
  (forall r it, running r = true -> P r -> P (step E r it)) ->
  forall sched r, P r -> P (run_sched E sched r).
Proof.
  intros H sched r. apply (run_sched_keeps_if E P (fun _ => True)); [exact I | auto | auto |].
  apply Forall_forall. auto.
Qed.

Lemma coord_step_no_panic (E : env) (r : run) :
  r_pc r <> CPanic -> r_pc (coord_step E r) <> CPanic.
Proof.
  intros H. unfold coord_step, post_join, single_finish.
  repeat case_match; cbn; congruence.
Qed.

Lemma step_no_panic (E : env) (r : run) (it : sched_item) :
  r_pc r <> CPanic -> r_pc (step E r it) <> CPanic.
Proof.
  intros H. destruct it.
  - now apply coord_step_no_panic.
  - now rewrite worker_step_pc.
  - exact H.
  - cbn. unfold rate_step. repeat case_match; cbn; congruence.
Qed.

Lemma run_sched_no_panic (E : env) (sched : list sched_item) (r : run) :
  r_pc r <> CPanic -> r_pc (run_sched E sched r) <> CPanic.
Proof.
  apply (run_sched_keeps E (fun r => r_pc r <> CPanic)).
  intros r' it _. apply step_no_panic.
Qed.

Lemma download_begin_no_panic (E : env) (w : world) :
  concurrency (dl w) <> 0 -> r_pc (download_begin E w) <> CPanic.
Proof.
  intros Hc. unfold download_begin, http_Head, multiDownload_begin, singleDownload_begin,
    on_start.
  repeat case_match; cbn in *; try congruence;
    simplify_eq; cbn in *; try congruence; lia.
Qed.

(** A downloader built by [NewDownloader] never divides by zero. *)
Lemma NewDownloader_never_panics (E : env) (sched : list sched_item) (w : world)
    (ncpu : positive) (chan : nat) (u : string) (opts : list OptionFunc) :
  concurrency (dl w) = concurrency (NewDownloader ncpu chan u opts) ->
  (Start E sched w).2 <> Panicked.
Proof.
  intros Hc.
  assert (Hn : concurrency (dl (if stopped w then init w else w)) <> 0).
  { destruct (stopped w); cbn; rewrite Hc; apply NewDownloader_concurrency_nonzero. }
  unfold Start, download. cbn.
  pose proof (run_sched_no_panic E sched _ (download_begin_no_panic E _ Hn)) as Hp.
  unfold outcome_of. destruct (r_pc _); congruence.
Qed.

(** C8. Construction with a negative concurrency: only zero is replaced by
    the number of CPUs, so the effective concurrency is negative; the
    download of ten bytes then starts no worker, issues no GET, writes an
    empty file and reports success. *)
Theorem NewDownloader_negative_concurrency :
  let d := NewDownloader 4 0 "http://h/f.bin" [WithConcurrency (-1)] in
  let out := Start (serve true ten_bytes) [] (new_world (observed d) ∅) in
  concurrency d = -1 /\
  out.2 = Returned None /\
  files out.1 !! "f.bin" = Some [] /\
  existsb is_get (trace out.1) = false /\
  last (trace out.1) = Some (EvOnFinished "f.bin").
Proof. vm_compute. repeat split. Qed.

(** ** Workers: resume and the effective range *)

Lemma Write_trace (n : Z) (w : world) :
  trace (Write n w) =
    trace w ++ EvSinkWrite n ::
      (if onProgress (sw (dl w))
       then [EvOnProgress (wrap64 (loaded (sw (dl w)) + n)) (total (sw (dl w))) (rate (sw (dl w)))]
       else []).
Proof.
  unfold Write, sw_Write. destruct (onProgress (sw (dl w))); cbn;
    now rewrite <- ?app_assoc.
Qed.

Lemma Write_loaded (n : Z) (w : world) :
  loaded (sw (dl (Write n w))) = wrap64 (loaded (sw (dl w)) + n).
Proof. unfold Write, sw_Write. destruct (onProgress (sw (dl w))); reflexivity. Qed.

(** C2. With resume enabled, a worker whose part file holds [d_i] bytes
    feeds them to the sink and goes on to fetch [lo_i + d_i, hi_i); the
    fetcher called on an empty range returns nil and leaves the world as it
    is (no handle registered, no request, no file operation); called on a
    non-empty range it registers a handle and its request carries
    [bytes=lo-(hi-1)] for exactly the range it was called with. *)
Theorem worker_resumes_part (E : env) (contentLen partSize : Z) (wk : worker) (w : world) :
  let d := dl w in
  let p := getPartFilename d (Options.FileName (options d)) (w_i wk) in
  let lo := w_rangeStart wk in
  let hi := worker_rangeEnd d contentLen partSize wk in
  (forall content,
      w_pc wk = WStart -> resume d = true ->
      fs_fault E (OpReadFile p) = None -> files w !! p = Some content ->
      let d_i := Z.of_nat (length content) in
      let out := worker_step E contentLen partSize wk w in
      out.1 = WFetch (lo + d_i) hi /\
      trace out.2 =
        trace w ++ EvFs (OpReadFile p) :: EvSinkWrite d_i ::
          (if onProgress (sw d)
           then [EvOnProgress (wrap64 (loaded (sw d) + d_i)) (total (sw d)) (rate (sw d))]
           else []) /\
      loaded (sw (dl out.2)) = wrap64 (loaded (sw d) + d_i) /\
      files out.2 = files w /\ mCancelFunc (dl out.2) = mCancelFunc d) /\
  (forall rangeStart rangeEnd,
      w_pc wk = WFetch rangeStart rangeEnd -> rangeEnd <= rangeStart ->
      worker_step E contentLen partSize wk w = (WDone None, w)) /\
  (forall rangeStart rangeEnd,
      w_pc wk = WFetch rangeStart rangeEnd -> rangeStart < rangeEnd ->
      url_error E (url d) = None ->
      let out := worker_step E contentLen partSize wk w in
      out.1 = WDo rangeStart rangeEnd (next_ctx w) /\
      trace out.2 = trace w ++ [EvStore p (next_ctx w)] /\
      mCancelFunc (dl out.2) = <[p := next_ctx w]> (mCancelFunc d)) /\
  (forall rangeStart rangeEnd ctx,
      w_pc wk = WDo rangeStart rangeEnd ctx -> ctx ∉ cancelled w ->
      let out := worker_step E contentLen partSize wk w in
      exists rest,
        trace out.2 =
          trace w ++
            EvGet (url d)
              (Some ("bytes=" +:+ FormatInt rangeStart +:+ "-" +:+ FormatInt (rangeEnd - 1)))
            :: rest /\
        existsb is_get rest = false).
Proof.
  cbn zeta. split; [| split; [| split]].
  - intros content Hpc Hres Hfault Hfile. unfold worker_step, ReadFile.
    rewrite Hpc, Hres, Hfault, Hfile. cbn [fst snd].
    split; [reflexivity |]. rewrite Write_trace, Write_loaded. cbn.
    rewrite <- app_assoc. repeat split;
      unfold Write, sw_Write; now destruct (onProgress _).
  - intros lo hi Hpc Hle. unfold worker_step. rewrite Hpc.
    destruct (Z.leb_spec hi lo); [reflexivity | lia].
  - intros lo hi Hpc Hlt Hurl. unfold worker_step. rewrite Hpc, Hurl.
    destruct (Z.leb_spec hi lo); [lia |]. cbn. repeat split.
  - intros lo hi ctx Hpc Hctx. unfold worker_step. rewrite Hpc.
    rewrite bool_decide_eq_false_2 by exact Hctx. unfold Range_header.
    unfold partial_exit, Delete, OpenFile.
    repeat case_match; simplify_eq; cbn; rewrite <- ?app_assoc; cbn;
      eexists; (split; [reflexivity | reflexivity]).
Qed.

Lemma worker_resumes_part_witness :
  let d := set_partDir "downloader_cache/f.bin"
             (NewDownloader 4 0 "http://h/f.bin" [WithConcurrency 2]) in
  let w := new_world d {[ "downloader_cache/f.bin/f.bin_0" := ["A"; "B"; "C"]%byte ]} in
  let wk := {| w_i := 0; w_rangeStart := 0; w_pc := WStart |} in
  (worker_step (serve true ten_bytes) 10 5 wk w).1 = WFetch 3 5 /\
  worker_step (serve true ten_bytes) 10 5 (set_pc (WFetch 5 5) wk) w = (WDone None, w).
Proof.
  intros d w wk. split.
  - destruct (worker_resumes_part (serve true ten_bytes) 10 5 wk w) as [H _].
    exact (proj1 (H ["A"; "B"; "C"]%byte eq_refl eq_refl eq_refl
                   ltac:(vm_compute; reflexivity))).
  - destruct (worker_resumes_part (serve true ten_bytes) 10 5 (set_pc (WFetch 5 5) wk) w)
      as (_ & H & _).
    exact (H 5 5 eq_refl ltac:(lia)).
Defined.

(** ** Events since a point of the trace *)

Lemma since_refl (P : event -> Prop) (w : world) : since (trace w) P w.
Proof. exists []. now rewrite app_nil_r. Qed.

Lemma since_app (t0 : list event) (P : event -> Prop) (w w' : world) (evs : list event) :
  trace w' = trace w ++ evs -> Forall P evs -> since t0 P w -> since t0 P w'.
Proof.
  intros Ht Hevs (evs0 & H0 & HP). exists (evs0 ++ evs).
  split; [now rewrite Ht, H0, app_assoc | apply Forall_app; now split].
Qed.

Lemma since_same (t0 : list event) (P : event -> Prop) (w w' : world) :
  trace w' = trace w -> since t0 P w -> since t0 P w'.
Proof. intros Ht. apply (since_app t0 P w w' []); [now rewrite app_nil_r | constructor]. Qed.

Lemma since_emit (t0 : list event) (P : event -> Prop) (w : world) (e : event) :
  P e -> since t0 P w -> since t0 P (emit e w).
Proof. intros He. apply (since_app t0 P w _ [e]); [reflexivity | now repeat constructor]. Qed.

Lemma since_weaken (t0 : list event) (P Q : event -> Prop) (w : world) :
  (forall e, P e -> Q e) -> since t0 P w -> since t0 Q w.
Proof. intros H (evs & Ht & HP). exists evs. split; [exact Ht | eapply Forall_impl; eauto]. Qed.

Lemma Stop_since (t0 : list event) (P : event -> Prop) (w : world) :
  (forall c, P (EvCancel c)) -> since t0 P w -> since t0 P (Stop w).1.
Proof.
  intros Hc. unfold Stop. destruct (stopped w); [trivial |].
  apply (since_app t0 P w _ (EvCancel <$> (map_to_list (mCancelFunc (dl w))).*2));
    [reflexivity |].
  apply Forall_fmap, Forall_forall. intros; apply Hc.
Qed.

(** ** Single mode: the status of the GET *)

Section SingleStatus.
Variable E : env.
Variable w : world.
Variable resp : Response.
Hypothesis get_resp : get E (url (dl w)) None = Ok resp.
Hypothesis not_ok : StatusCode resp <> StatusOK.

Let quiet (e : event) : Prop := is_observer e = false /\ is_open_for_write e = false.

(** What holds of a single-mode run until it returns: no worker, the same
    URL and files, no callback and no file opened for writing, and the
    coordinator about to send the GET or returned with an error. *)
Let inv (r : run) : Prop :=
  r_workers r = [] /\
  url (dl (r_world r)) = url (dl w) /\
  files (r_world r) = files w /\
  since (trace w) quiet (r_world r) /\
  ((exists ctx, r_pc r = CSingleDo ctx) \/ (exists e, r_pc r = CReturn (Some e))).

Lemma single_do_step (r : run) (ctx : nat) :
  inv r -> r_pc r = CSingleDo ctx ->
  inv (coord_step E r) /\ exists e, r_pc (coord_step E r) = CReturn (Some e).
Proof.
  intros (Hw & Hu & Hf & Hs & _) Hpc. unfold coord_step. rewrite Hpc, Hu, get_resp.
  destruct (Z.eqb_spec (StatusCode resp) StatusOK) as [Heq | _]; [contradiction |].
  cbn [negb]. unfold inv.
  destruct (bool_decide (ctx ∈ cancelled (r_world r))); cbn.
  - repeat split; try assumption; [| right; eauto | eauto].
    apply since_emit; [now split | exact Hs].
  - repeat split; try assumption; [| right; eauto | eauto].
    apply since_emit; [now split |]. apply since_emit; [now split | exact Hs].
Qed.

Lemma single_status_step (r : run) (it : sched_item) :
  running r = true -> inv r -> inv (step E r it).
Proof.
  intros Hr Hinv. destruct it.
  - destruct Hinv as (Hw & Hu & Hf & Hs & [[ctx Hpc] | [e Hpc]]).
    + apply (single_do_step r ctx); [| exact Hpc]. unfold inv; eauto 10.
    + unfold running in Hr. now rewrite Hpc in Hr.
  - destruct Hinv as (Hw & Hrest). cbn. rewrite Hw. cbn. unfold inv; eauto.
  - destruct Hinv as (Hw & Hu & Hf & Hs & Hpc). cbn. unfold inv. cbn.
    repeat split; try assumption.
    + unfold Stop. now destruct (stopped _).
    + unfold Stop. now destruct (stopped _).
    + apply Stop_since; [now split | exact Hs].
  - destruct Hinv as (Hw & Hu & Hf & Hs & Hpc). cbn. rewrite Hr.
    unfold inv, rate_step. cbn. repeat split; assumption.
Qed.

Lemma single_status_run (sched : list sched_item) (r : run) :
  inv r -> inv (run_sched E sched r) /\ exists e, r_pc (run_sched E sched r) = CReturn (Some e).
Proof.
  intros Hinv. unfold run_sched.
  pose proof (exec_keeps E inv single_status_step sched r Hinv) as H1.
  destruct H1 as (Hw & Hu & Hf & Hs & [[ctx Hpc] | [e Hpc]]).
  - assert (H1 : inv (exec E sched r)) by (unfold inv; eauto 10).
    destruct (single_do_step _ ctx H1 Hpc) as [H2 [e He]].
    assert (Hfin : finish E (exec E sched r) = coord_step E (exec E sched r)).
    { unfold finish. unfold coord_phase at 3. unfold coord_remaining. rewrite Hpc. cbn [Nat.iter].
      assert (Hn : running (coord_step E (exec E sched r)) = false)
        by (unfold running; now rewrite He).
      now rewrite (coord_phase_not_running _ _ Hn), (join_not_running _ _ Hn),
        (coord_phase_not_running _ _ Hn). }
    rewrite Hfin. split; [exact H2 | eauto].
  - assert (Hn : running (exec E sched r) = false) by (unfold running; now rewrite Hpc).
    rewrite finish_not_running by exact Hn. split; [unfold inv; eauto 10 | eauto].
Qed.

(** C7. In single mode a GET answered with a status other than 200 makes
    the run return an error; until then no callback has fired and no file
    has been opened for writing, and the files are as they were. *)
Theorem single_mode_requires_200 (sched : list sched_item) (head_resp : Response) :
  url (dl w) <> "" ->
  url_error E (url (dl w)) = None ->
  head E (url (dl w)) = Ok head_resp ->
  (StatusCode head_resp =? StatusOK) && String.eqb (Accept_Ranges head_resp) "bytes" = false ->
  let out := download E sched w in
  (exists e, out.2 = Returned (Some e)) /\
  since (trace w) (fun e => is_observer e = false /\ is_open_for_write e = false) out.1 /\
  files out.1 = files w.
Proof.
  intros Hne Hurl Hhead Hmode. cbn zeta. unfold download.
  assert (Hb : inv (download_begin E w)).
  { unfold download_begin, http_Head.
    destruct (String.eqb_spec (url (dl w)) "") as [Heq | _]; [contradiction |].
    rewrite Hurl, Hhead, Hmode. unfold singleDownload_begin. cbn. rewrite Hurl.
    unfold inv. cbn. repeat split; [| left; eauto].
    apply since_emit; [now split |]. apply since_emit; [now split | apply since_refl]. }
  destruct (single_status_run sched _ Hb) as [(Hw & Hu & Hf & Hs & _) [e He]].
  cbn [fst snd]. split; [| split; [exact Hs | exact Hf]].
  exists e. unfold outcome_of. now rewrite He.
Qed.
End SingleStatus.

Lemma single_mode_requires_200_witness :
  let E := {| url_error := fun _ => None;
              head := fun _ => Ok {| StatusCode := 200; Accept_Ranges := ""; ContentLength := 10;
                                     Body := []; BodyEnd := io_EOF |};
              get := fun _ _ => Ok {| StatusCode := 404; Accept_Ranges := ""; ContentLength := 9;
                                      Body := [["n"]%byte]; BodyEnd := io_EOF |};
              fs_fault := fun _ => None |} in
  let w := new_world (observed (NewDownloader 4 0 "http://h/f.bin" [])) ∅ in
  (exists e, (download E [SRate; SCoord] w).2 = Returned (Some e)) /\
  files (download E [SRate; SCoord] w).1 = ∅.
Proof.
  intros E w.
  destruct (single_mode_requires_200 E w _ eq_refl ltac:(vm_compute; discriminate)
              [SRate; SCoord] _ ltac:(vm_compute; discriminate) eq_refl eq_refl eq_refl)
    as (He & _ & Hf).
  split; [exact He | exact Hf].
Defined.

(** ** Invariants of the world

    An invariant that survives the emission of the events of a class [C],
    a sink write of a slice, and any change that leaves the trace and
    [loaded] alone,
    survives every step of a worker, every [Stop] and every step of the
    rate task. *)

Section Stable.
Variable E : env.
Variable I : world -> Prop.
Variable C : event -> Prop.
Hypothesis I_emit : forall e w, C e -> I w -> I (emit e w).
Hypothesis I_Write : forall n w, 0 <= n -> I w -> I (Write n w).
Hypothesis I_frame :
  forall w w', trace w' = trace w -> loaded (sw (dl w')) = loaded (sw (dl w)) -> I w -> I w'.
Hypothesis C_plumbing : forall e, is_plumbing e = true -> C e.
Hypothesis C_get : forall u h, C (EvGet u h).

Ltac stable :=
  repeat first
    [ assumption
    | apply I_Write; [lia |]
    | apply I_emit; [first [apply C_plumbing; reflexivity | apply C_get] |]
    | match goal with
      | |- I (with_files _ ?w) => apply (I_frame w); [reflexivity | reflexivity |]
      | |- I (with_dl _ ?w) => apply (I_frame w); [reflexivity | reflexivity |]
      | |- I (with_next_ctx _ ?w) => apply (I_frame w); [reflexivity | reflexivity |]
      | |- I (with_cancelled _ ?w) => apply (I_frame w); [reflexivity | reflexivity |]
      | |- I (with_closed _ ?w) => apply (I_frame w); [reflexivity | reflexivity |]
      end ].

Lemma Store_stable key ctx w : I w -> I (Store key ctx w).
Proof. intros H. unfold Store. stable. Qed.

Lemma Delete_stable key w : I w -> I (Delete key w).
Proof. intros H. unfold Delete. stable. Qed.

Lemma partial_exit_stable p opened w : I w -> I (partial_exit p opened w).
Proof. intros H. unfold partial_exit. apply Delete_stable. destruct opened; stable. Qed.

Lemma ReadFile_stable p w : I w -> I (ReadFile E p w).1.
Proof. intros H. unfold ReadFile. repeat case_match; cbn; stable. Qed.

Lemma OpenFile_stable p tr ap w : I w -> I (OpenFile E p tr ap w).1.
Proof. intros H. unfold OpenFile. repeat case_match; cbn; stable. Qed.

Lemma FileWrite_stable p k ap off c w : I w -> I (FileWrite E p k ap off c w).1.
Proof. intros H. unfold FileWrite. repeat case_match; cbn; stable. Qed.

Lemma emits_stable es w : Forall C es -> I w -> I (emits es w).
Proof.
  intros Hes. revert w. induction Hes as [|e es He Hes IH]; intros w H.
  - apply (I_frame w); [cbn; now rewrite app_nil_r | reflexivity | exact H].
  - apply (I_frame (emits es (emit e w))).
    + cbn. now rewrite <- app_assoc.
    + reflexivity.
    + apply IH. now apply I_emit.
Qed.

Lemma Stop_stable w : I w -> I (Stop w).1.
Proof.
  intros H. unfold Stop. destruct (stopped w); [exact H |]. cbn [fst].
  apply (I_frame (emits (EvCancel <$> (map_to_list (mCancelFunc (dl w))).*2) w));
    [reflexivity | reflexivity |].
  apply emits_stable; [| exact H].
  apply Forall_fmap, Forall_forall. intros x _. now apply C_plumbing.
Qed.

Lemma worker_step_stable cl ps wk w : I w -> I (worker_step E cl ps wk w).2.
Proof.
  intros H. unfold worker_step, WithCancel.
  repeat first
    [ progress cbn [fst snd]
    | match goal with
      | |- context [ReadFile E ?p ?w0] =>
          let H' := fresh in
          pose proof (ReadFile_stable p w0 ltac:(stable)) as H';
          destruct (ReadFile E p w0) as [? []]; cbn [fst snd] in H'
      | |- context [OpenFile E ?p ?a ?b ?w0] =>
          let H' := fresh in
          assert (H' : I (OpenFile E p a b w0).1) by (apply OpenFile_stable; stable);
          destruct (OpenFile E p a b w0) as [? []]; cbn [fst snd] in H'
      | |- context [FileWrite E ?p ?k ?a ?o ?c ?w0] =>
          let H' := fresh in
          assert (H' : I (FileWrite E p k a o c w0).1) by (apply FileWrite_stable; stable);
          destruct (FileWrite E p k a o c w0) as [? []]; cbn [fst snd] in H'
      end
    | case_match ];
    cbn [fst snd];
    repeat first [ apply partial_exit_stable | apply Store_stable | stable ].
Qed.

Lemma rate_step_stable r : I (r_world r) -> I (r_world (rate_step r)).
Proof.
  intros H. unfold rate_step. cbn. apply (I_frame (r_world r)); [reflexivity | | exact H].
  cbn. now destruct (r_rate r).
Qed.

(** Steps other than the coordinator's. *)
Lemma other_step_stable r it :
  it <> SCoord -> I (r_world r) -> I (r_world (step E r it)).
Proof.
  intros Hit H. destruct it; [contradiction | | |]; cbn.
  - destruct (r_workers r !! k) as [wk|]; [| exact H].
    pose proof (worker_step_stable (r_contentLen r) (r_partSize r) wk (r_world r) H) as H'.
    destruct (worker_step _ _ _ _ _). exact H'.
  - now apply Stop_stable.
  - destruct (running r); [now apply rate_step_stable | exact H].
Qed.

Lemma merge_parts_stable d filename parts w :
  I w -> I (merge_parts E d filename parts w).1.
Proof.
  revert w. induction parts as [|i rest IH]; intros w H; cbn [merge_parts]; [exact H |].
  repeat case_match; cbn [fst]; try apply IH; stable.
Qed.

Lemma merge_stable w : I w -> I (merge E w).1.
Proof.
  intros H. unfold merge.
  pose proof (OpenFile_stable (Options.FileName (options (dl w))) true false w H) as H1.
  destruct (OpenFile E _ true false w) as [w1 [e|]]; cbn [fst] in *; [exact H1 |].
  pose proof (merge_parts_stable (dl w) (Options.FileName (options (dl w)))
                (seqZ 0 (concurrency (dl w))) w1 H1) as H2.
  destruct (merge_parts E _ _ _ w1) as [w2 r]. cbn [fst] in *. stable.
Qed.

Lemma RemoveAll_stable dir w : I w -> I (RemoveAll E dir w).
Proof. intros H. unfold RemoveAll. case_match; stable. Qed.

Hypothesis C_start : forall t f, C (EvOnStart t f).

Lemma on_start_stable t f w : I w -> I (on_start t f w).
Proof. intros H. unfold on_start. case_match; [apply I_emit; [apply C_start | exact H] | exact H]. Qed.

Lemma post_join_stable r :
  (forall e, is_completion e = true -> C e) ->
  I (r_world r) -> I (r_world (post_join E r)).
Proof.
  intros Hc H. unfold post_join. destruct (stopped (r_world r)).
  - cbn. unfold on_canceled. case_match; [| exact H].
    apply I_emit; [now apply Hc | exact H].
  - pose proof (merge_stable (r_world r) H) as Hm.
    destruct (merge E (r_world r)) as [w1 [e|]]; cbn in *; [exact Hm |].
    unfold on_finished. case_match; [apply I_emit; [now apply Hc |] |];
      now apply RemoveAll_stable.
Qed.

(** A step of the coordinator; the completion callbacks need be in the
    class only when the step returns. *)
Lemma coord_step_stable r :
  (running (coord_step E r) = false -> forall e, is_completion e = true -> C e) ->
  I (r_world r) -> I (r_world (coord_step E r)).
Proof.
  intros Hc H. unfold coord_step in *.
  destruct (r_pc r) eqn:Hpc; try exact H.
  - repeat case_match; exact H.
  - destruct (all_done (r_workers r)); [| exact H].
    unfold post_join in *. destruct (stopped (r_world r)).
    + cbn in *. unfold on_canceled. case_match; [| exact H].
      apply I_emit; [now apply (Hc eq_refl) | exact H].
    + pose proof (merge_stable (r_world r) H) as Hm.
      destruct (merge E (r_world r)) as [w1 [e|]]; cbn in *; [exact Hm |].
      unfold on_finished. case_match; [apply I_emit; [now apply (Hc eq_refl) |] |];
        now apply RemoveAll_stable.
  - destruct (bool_decide (ctx ∈ cancelled (r_world r))); [cbn; now apply Delete_stable |].
    destruct (get E _ None) as [resp | e]; [| cbn; apply Delete_stable; stable].
    destruct (negb _); [cbn; apply Delete_stable; stable |].
    match goal with
    | |- context [OpenFile E ?p ?a ?b ?w0] =>
        assert (Ho : I (OpenFile E p a b w0).1)
          by (apply OpenFile_stable, on_start_stable; stable);
        destruct (OpenFile E p a b w0) as [w4 [e|]]; cbn [fst] in Ho
    end; cbn; [now apply Delete_stable | exact Ho].
  - assert (Hfin : forall ce r',
        I (r_world r') ->
        (running (single_finish ce r') = false -> forall e, is_completion e = true -> C e) ->
        I (r_world (single_finish ce r'))).
    { intros ce r' H' Hc'. unfold single_finish in *. unfold on_canceled, on_finished.
      repeat case_match; cbn in *; apply Delete_stable; stable;
        apply I_emit; try exact H'; now apply (Hc' eq_refl). }
    destruct chunks as [|c rest]; [now apply Hfin |].
    destruct (bool_decide (ctx ∈ cancelled (r_world r))); [now apply Hfin |].
    match goal with
    | |- context [FileWrite E ?p ?k ?a ?o ?c ?w0] =>
        assert (Hw : I (FileWrite E p k a o c w0).1) by (now apply FileWrite_stable);
        destruct (FileWrite E p k a o c w0) as [w1 [e|]]; cbn [fst] in Hw
    end.
    + apply Hfin; [exact Hw | exact Hc].
    + cbn. apply I_Write; [lia | exact Hw].
Qed.

Lemma download_begin_stable w : I w -> I (r_world (download_begin E w)).
Proof.
  intros H. unfold download_begin, http_Head, multiDownload_begin, singleDownload_begin,
    WithCancel.
  repeat case_match; simplify_eq; cbn;
    repeat first [ apply Delete_stable | apply Store_stable | apply on_start_stable | stable ].
Qed.
End Stable.

(** ** The configuration is constant *)

Lemma worker_step_settings (E : env) cl ps wk w :
  settings (dl (worker_step E cl ps wk w).2) = settings (dl w) /\
  partDir (dl (worker_step E cl ps wk w).2) = partDir (dl w).
Proof.
  unfold worker_step, ReadFile, OpenFile, FileWrite, Write, sw_Write, partial_exit,
    Delete, Store, WithCancel.
  repeat case_match; simplify_eq; (split; unfold settings; cbn in *; congruence).
Qed.

Lemma Stop_settings w :
  settings (dl (Stop w).1) = settings (dl w) /\ partDir (dl (Stop w).1) = partDir (dl w).
Proof. unfold Stop. destruct (stopped w); (split; unfold settings; cbn in *; congruence). Qed.

Lemma merge_parts_dl (E : env) d filename parts w :
  dl (merge_parts E d filename parts w).1 = dl w.
Proof.
  revert w. induction parts as [|i rest IH]; intros w; cbn [merge_parts]; [reflexivity |].
  repeat case_match; cbn [fst]; try rewrite IH; reflexivity.
Qed.

Lemma merge_dl (E : env) w : dl (merge E w).1 = dl w.
Proof.
  unfold merge, OpenFile. repeat case_match; simplify_eq; cbn; try reflexivity.
  match goal with
  | H : merge_parts E ?d ?f ?l ?w0 = _ |- _ =>
      pose proof (merge_parts_dl E d f l w0) as Hm; rewrite H in Hm
  end.
  exact Hm.
Qed.

Lemma coord_step_settings (E : env) r :
  settings (dl (r_world (coord_step E r))) = settings (dl (r_world r)) /\
  partDir (dl (r_world (coord_step E r))) = partDir (dl (r_world r)).
Proof.
  unfold coord_step. destruct (r_pc r); try ((split; unfold settings; cbn in *; congruence)).
  - repeat case_match; (split; unfold settings; cbn in *; congruence).
  - destruct (all_done _); [| (split; unfold settings; cbn in *; congruence)].
    unfold post_join. destruct (stopped _).
    + unfold on_canceled. case_match; (split; unfold settings; cbn in *; congruence).
    + pose proof (merge_dl E (r_world r)) as Hm.
      destruct (merge E (r_world r)) as [w1 [e|]]; cbn in *; rewrite <- Hm.
      * (split; unfold settings; cbn in *; congruence).
      * unfold on_finished, RemoveAll. repeat case_match; (split; unfold settings; cbn in *; congruence).
  - unfold OpenFile, on_start, Delete. repeat case_match; simplify_eq; (split; unfold settings; cbn in *; congruence).
  - unfold single_finish, FileWrite, Write, sw_Write, on_canceled, on_finished, Delete.
    repeat case_match; simplify_eq; (split; unfold settings; cbn in *; congruence).
Qed.

Lemma step_settings (E : env) r it :
  settings (dl (r_world (step E r it))) = settings (dl (r_world r)) /\
  partDir (dl (r_world (step E r it))) = partDir (dl (r_world r)).
Proof.
  destruct it; cbn.
  - apply coord_step_settings.
  - destruct (r_workers r !! k) as [wk|]; [| (split; unfold settings; cbn in *; congruence)].
    pose proof (worker_step_settings E (r_contentLen r) (r_partSize r) wk (r_world r)) as H.
    destruct (worker_step _ _ _ _ _). exact H.
  - apply Stop_settings.
  - unfold rate_step. repeat case_match; (split; unfold settings; cbn in *; congruence).
Qed.

Lemma exec_settings (E : env) sched r :
  settings (dl (r_world (exec E sched r))) = settings (dl (r_world r)) /\
  partDir (dl (r_world (exec E sched r))) = partDir (dl (r_world r)).
Proof.
  apply (exec_keeps E (fun r' =>
           settings (dl (r_world r')) = settings (dl (r_world r)) /\
           partDir (dl (r_world r')) = partDir (dl (r_world r)))); [| now split].
  intros r' it _ [H1 H2]. destruct (step_settings E r' it) as [H3 H4]. split; congruence.
Qed.

Lemma run_sched_settings (E : env) sched r :
  settings (dl (r_world (run_sched E sched r))) = settings (dl (r_world r)) /\
  partDir (dl (r_world (run_sched E sched r))) = partDir (dl (r_world r)).
Proof.
  apply (run_sched_keeps E (fun r' =>
           settings (dl (r_world r')) = settings (dl (r_world r)) /\
           partDir (dl (r_world r')) = partDir (dl (r_world r)))); [| now split].
  intros r' it _ [H1 H2]. destruct (step_settings E r' it) as [H3 H4]. split; congruence.
Qed.

Lemma download_begin_settings (E : env) w :
  settings (dl (r_world (download_begin E w))) = settings (dl w).
Proof.
  unfold download_begin, http_Head, multiDownload_begin, singleDownload_begin, on_start,
    WithCancel.
  repeat case_match; simplify_eq; unfold settings; cbn in *; congruence.
Qed.

Lemma init_settings w : settings (dl (init w)) = settings (dl w).
Proof. reflexivity. Qed.

Lemma settings_inv (d d' : Downloader) :
  settings d = settings d' ->
  url d = url d' /\ concurrency d = concurrency d' /\ resume d = resume d' /\
  options d = options d' /\ onDownloadStart d = onDownloadStart d' /\
  onDownloadFinished d = onDownloadFinished d' /\
  onDownloadCanceled d = onDownloadCanceled d' /\
  onProgress (sw d) = onProgress (sw d').
Proof. unfold settings. intros [=]. repeat split; assumption. Qed.

(** ** Completion callbacks fire only when the coordinator returns *)

Lemma since_Write (t0 : list event) (P : event -> Prop) (n : Z) (w : world) :
  P (EvSinkWrite n) -> (forall l t r, P (EvOnProgress l t r)) ->
  since t0 P w -> since t0 P (Write n w).
Proof.
  intros Hs Hp. eapply since_app; [apply Write_trace |].
  constructor; [exact Hs |]. destruct (onProgress _); repeat constructor. apply Hp.
Qed.

Lemma no_completion_while_running (E : env) (sched : list sched_item) (w : world) :
  let r := exec E sched (download_begin E w) in
  running r = true -> since (trace w) (fun e => is_completion e = false) (r_world r).
Proof.
  set (nocomp := fun e => is_completion e = false).
  assert (Hemit : forall e w', nocomp e -> since (trace w) nocomp w' ->
                               since (trace w) nocomp (emit e w'))
    by (intros; now apply since_emit).
  assert (HWrite : forall n w', 0 <= n -> since (trace w) nocomp w' ->
                                since (trace w) nocomp (Write n w'))
    by (intros; now apply since_Write).
  assert (Hframe : forall w1 w2, trace w2 = trace w1 ->
                     loaded (sw (dl w2)) = loaded (sw (dl w1)) ->
                     since (trace w) nocomp w1 -> since (trace w) nocomp w2)
    by (intros w1 w2 Ht _; now apply since_same).
  assert (Hpl : forall e, is_plumbing e = true -> nocomp e)
    by (intros [] H; unfold nocomp; cbn in *; congruence).
  assert (Hst : forall t f, nocomp (EvOnStart t f)) by reflexivity.
  assert (Hget : forall u h, nocomp (EvGet u h)) by reflexivity.
  cbn zeta.
  apply (exec_keeps E
           (fun r => running r = true -> since (trace w) nocomp (r_world r))).
  - intros r it Hr Hinv Hr'. specialize (Hinv Hr). destruct it.
    + eapply (coord_step_stable E _ nocomp); eauto.
      intros Hn. cbn in Hr'. congruence.
    + eapply (other_step_stable E _ nocomp); eauto; discriminate.
    + eapply (other_step_stable E _ nocomp); eauto; discriminate.
    + eapply (other_step_stable E _ nocomp); eauto; discriminate.
  - intros _. eapply (download_begin_stable E _ nocomp); eauto using since_refl.
Qed.

Lemma finish_at_join (E : env) (r : run) :
  r_pc r = CJoin -> all_done (r_workers r) = true -> finish E r = post_join E r.
Proof.
  intros Hpc Hdone. unfold finish.
  assert (H1 : coord_phase E r = post_join E r).
  { unfold coord_phase, coord_remaining. rewrite Hpc.
    change (coord_step E r = post_join E r).
    unfold coord_step. now rewrite Hpc, Hdone. }
  assert (Hn : running (post_join E r) = false).
  { unfold post_join. repeat case_match; reflexivity. }
  rewrite H1.
  now rewrite (coord_phase_not_running _ _ Hn), (join_not_running _ _ Hn),
    (coord_phase_not_running _ _ Hn).
Qed.

(** C3. A multi-mode run whose coordinator finds the stop signal raised
    once all workers are joined returns nil; [on_canceled] is invoked then,
    when registered, and is the only completion callback of the run
    ([on_finished] is not invoked); the files, the part files among them,
    are left as the workers left them. *)
Theorem stop_at_join_cancels (E : env) (sched : list sched_item) (w : world) :
  let w0 := if stopped w then init w else w in
  let rj := exec E sched (download_begin E w0) in
  r_pc rj = CJoin -> all_done (r_workers rj) = true -> stopped (r_world rj) = true ->
  let out := Start E sched w in
  out.2 = Returned None /\
  trace out.1 =
    trace (r_world rj) ++
      (if onDownloadCanceled (dl w)
       then [EvOnCanceled (Options.FileName (options (dl w)))] else []) /\
  since (trace w) (fun e => is_completion e = false) (r_world rj) /\
  since (trace w) (fun e => forall f, e <> EvOnFinished f) out.1 /\
  files out.1 = files (r_world rj).
Proof.
  cbn zeta. intros Hpc Hdone Hstop.
  set (w0 := if stopped w then init w else w) in *.
  set (rj := exec E sched (download_begin E w0)) in *.
  assert (Htr0 : trace w0 = trace w) by (subst w0; now destruct (stopped w)).
  assert (Hset : settings (dl (r_world rj)) = settings (dl w)).
  { subst rj. rewrite (proj1 (exec_settings E sched _)), download_begin_settings.
    subst w0. now destruct (stopped w). }
  apply settings_inv in Hset. destruct Hset as (_ & _ & _ & Hopt & _ & _ & Hcb & _).
  assert (Hbefore : since (trace w) (fun e => is_completion e = false) (r_world rj)).
  { rewrite <- Htr0. apply no_completion_while_running. unfold running.
    fold rj. now rewrite Hpc. }
  unfold Start, download, run_sched. fold w0 rj.
  rewrite (finish_at_join E rj Hpc Hdone). unfold post_join. rewrite Hstop.
  cbn [fst snd r_world with_pc with_world outcome_of r_pc].
  unfold on_canceled. rewrite Hcb, Hopt.
  split; [reflexivity |]. split; [| split; [exact Hbefore | split]].
  - destruct (onDownloadCanceled (dl w)); cbn; [reflexivity | now rewrite app_nil_r].
  - assert (Hb' : since (trace w) (fun e => forall f, e <> EvOnFinished f) (r_world rj)).
    { eapply since_weaken; [| exact Hbefore]. intros [] He f; cbn in He; congruence. }
    destruct (onDownloadCanceled (dl w)); [| exact Hb'].
    apply since_emit; [congruence | exact Hb'].
  - now destruct (onDownloadCanceled (dl w)).
Qed.

Lemma stop_at_join_cancels_witness :
  let w := new_world (observed (NewDownloader 4 0 "http://h/f.bin" [WithConcurrency 1])) ∅ in
  let sched := [SCoord; SCoord; SWorker 0; SWorker 0; SStop; SWorker 0] in
  (Start (serve true ten_bytes) sched w).2 = Returned None /\
  last (trace (Start (serve true ten_bytes) sched w).1) = Some (EvOnCanceled "f.bin").
Proof.
  intros w sched.
  destruct (stop_at_join_cancels (serve true ten_bytes) sched w
              ltac:(vm_compute; reflexivity) ltac:(vm_compute; reflexivity)
              ltac:(vm_compute; reflexivity))
    as (Hret & Htr & _).
  split; [exact Hret |]. rewrite Htr. reflexivity.
Defined.

(** ** The loaded counter across runs *)

Lemma counter_after_snoc (l : Z) (ns : list Z) (n : Z) :
  counter_after l (ns ++ [n]) = wrap64 (counter_after l ns + n).
Proof. unfold counter_after. now rewrite fold_left_app. Qed.

Lemma sumZ_nonneg (ns : list Z) : Forall (fun n => 0 <= n) ns -> 0 <= sumZ ns.
Proof. induction 1; cbn; lia. Qed.

Lemma sumZ_take (ns : list Z) (k : nat) :
  Forall (fun n => 0 <= n) ns -> 0 <= sumZ (take k ns) <= sumZ ns.
Proof.
  intros H. revert k. induction H as [|n ns Hn Hns IH]; intros [|k]; cbn; try lia.
  - pose proof (sumZ_nonneg ns Hns). lia.
  - specialize (IH k). lia.
Qed.

(** Without overflow the counter is the sum. *)
Lemma counter_after_exact (ns : list Z) :
  forall l, in_int64 l -> Forall (fun n => 0 <= n) ns -> l + sumZ ns <= max_int64 ->
            counter_after l ns = l + sumZ ns.
Proof.
  induction ns as [|n ns IH]; intros l Hl Hns Hmax; cbn in *; [lia |].
  apply Forall_cons in Hns as [Hn Hns]. pose proof (sumZ_nonneg ns Hns) as Hs.
  assert (Hw : wrap64 (l + n) = l + n).
  { apply wrap64_id. unfold in_int64, min_int64, max_int64 in *. lia. }
  change (counter_after (wrap64 (l + n)) ns = l + (n + sumZ ns)).
  rewrite Hw, IH; [lia | | assumption | lia].
  unfold in_int64, min_int64, max_int64 in *. lia.
Qed.

Lemma merge_parts_closed (E : env) d filename parts w :
  closed (merge_parts E d filename parts w).1 = closed w.
Proof.
  revert w. induction parts as [|i rest IH]; intros w; cbn [merge_parts]; [reflexivity |].
  repeat case_match; cbn [fst]; try reflexivity. now rewrite IH.
Qed.

Lemma post_join_signal (E : env) (r : run) :
  stopSignal (dl (r_world (post_join E r))) = stopSignal (dl (r_world r)) /\
  closed (r_world (post_join E r)) = closed (r_world r).
Proof.
  unfold post_join, on_canceled, on_finished, RemoveAll, merge, OpenFile.
  repeat case_match; simplify_eq; cbn; try (now split);
  match goal with
  | H : merge_parts E ?d ?f ?l ?w1 = _ |- _ =>
      pose proof (merge_parts_closed E d f l w1) as Hc;
      pose proof (merge_parts_dl E d f l w1) as Hd;
      rewrite H in Hc, Hd; cbn in Hc, Hd
  end; rewrite ?Hd; split; congruence.
Qed.

Lemma coord_step_signal (E : env) (r : run) :
  stopSignal (dl (r_world (coord_step E r))) = stopSignal (dl (r_world r)) /\
  closed (r_world (coord_step E r)) = closed (r_world r).
Proof.
  unfold coord_step. destruct (r_pc r); try (now split).
  - repeat case_match; now split.
  - destruct (all_done _); [apply post_join_signal | now split].
  - unfold OpenFile, on_start, Delete. repeat case_match; simplify_eq; now split.
  - unfold single_finish, FileWrite, Write, sw_Write, on_canceled, on_finished, Delete.
    repeat case_match; simplify_eq; now split.
Qed.

Lemma worker_step_signal (E : env) cl ps wk w :
  stopSignal (dl (worker_step E cl ps wk w).2) = stopSignal (dl w) /\
  closed (worker_step E cl ps wk w).2 = closed w.
Proof.
  unfold worker_step, ReadFile, OpenFile, FileWrite, Write, sw_Write, partial_exit,
    Delete, Store, WithCancel.
  repeat case_match; simplify_eq; cbn; now split.
Qed.

(** A step never replaces the stop channel, and only [Stop] closes one. *)
Lemma step_signal (E : env) (r : run) (it : sched_item) :
  stopSignal (dl (r_world (step E r it))) = stopSignal (dl (r_world r)) /\
  closed (r_world r) ⊆ closed (r_world (step E r it)) /\
  (it <> SStop -> closed (r_world (step E r it)) = closed (r_world r)).
Proof.
  destruct it; cbn.
  - destruct (coord_step_signal E r) as [-> ->]. set_solver.
  - destruct (r_workers r !! k) as [wk|]; [| set_solver].
    pose proof (worker_step_signal E (r_contentLen r) (r_partSize r) wk (r_world r)) as H.
    destruct (worker_step _ _ _ _ _). cbn in *.
    destruct H as (-> & ->). set_solver.
  - unfold Stop. destruct (stopped _); cbn; set_solver.
  - unfold rate_step. destruct (running r); cbn; set_solver.
Qed.

Lemma download_begin_signal (E : env) (w : world) :
  stopSignal (dl (r_world (download_begin E w))) = stopSignal (dl w) /\
  closed (r_world (download_begin E w)) = closed w.
Proof.
  unfold download_begin, http_Head, multiDownload_begin, singleDownload_begin, on_start,
    WithCancel, Store, Delete.
  repeat case_match; simplify_eq; cbn; now split.
Qed.

Lemma download_signal (E : env) (sched : list sched_item) (w : world) :
  stopSignal (dl (download E sched w).1) = stopSignal (dl w).
Proof.
  unfold download. cbn [fst].
  apply (run_sched_keeps E (fun r => stopSignal (dl (r_world r)) = stopSignal (dl w))).
  - intros r it _ H. now rewrite (proj1 (step_signal E r it)).
  - apply download_begin_signal.
Qed.

Lemma counted_other (l0 : Z) (evs : list event) (l : Z) (e : event) :
  is_sink e = false -> counted l0 evs l -> counted l0 (evs ++ [e]) l.
Proof.
  intros He H. unfold counted, sink_writes, progress_calls in *. rewrite !omap_app.
  destruct e; try discriminate; cbn; now rewrite !app_nil_r.
Qed.

Lemma counted_Write (l0 : Z) (evs : list event) (n : Z) (w : world) :
  0 <= n -> counted l0 evs (loaded (sw (dl w))) ->
  exists evs',
    trace (Write n w) = trace w ++ evs' /\
    counted l0 (evs ++ evs') (loaded (sw (dl (Write n w)))).
Proof.
  intros Hn (Hnn & Hl & Hp). rewrite Write_trace, Write_loaded.
  eexists. split; [reflexivity |].
  set (ns := sink_writes evs) in *.
  assert (Hns : sink_writes (evs ++ EvSinkWrite n ::
                  (if onProgress (sw (dl w))
                   then [EvOnProgress (wrap64 (loaded (sw (dl w)) + n)) (total (sw (dl w)))
                           (rate (sw (dl w)))]
                   else [])) = ns ++ [n]).
  { unfold sink_writes. rewrite omap_app. cbn. now destruct (onProgress _). }
  assert (Hold : Forall (fun lt => exists k, (0 < k <= length (ns ++ [n]))%nat /\
                                   lt.1 = counter_after l0 (take k (ns ++ [n])))
                   (progress_calls evs)).
  { eapply Forall_impl; [exact Hp |]. intros lt (k & Hk & Hlt). exists k.
    rewrite length_app. split; [lia |]. now rewrite take_app_le by lia. }
  unfold counted. rewrite Hns. split; [| split].
  - apply Forall_app. split; [exact Hnn | now constructor].
  - now rewrite counter_after_snoc, <- Hl.
  - unfold progress_calls in *. rewrite omap_app. apply Forall_app. split; [exact Hold |].
    cbn. destruct (onProgress _); cbn; [| constructor].
    constructor; [| constructor]. exists (length (ns ++ [n])). split.
    + rewrite length_app. cbn. lia.
    + cbn. now rewrite firstn_all, counter_after_snoc, <- Hl.
Qed.

Lemma download_counter (E : env) (sched : list sched_item) (w : world) :
  exists evs,
    trace (download E sched w).1 = trace w ++ evs /\
    counted (loaded (sw (dl w))) evs (loaded (sw (dl (download E sched w).1))).
Proof.
  set (l0 := loaded (sw (dl w))).
  set (I := fun w' : world =>
              exists evs, trace w' = trace w ++ evs /\
                          counted l0 evs (loaded (sw (dl w')))).
  set (C := fun e => is_sink e = false).
  assert (Hemit : forall e w', C e -> I w' -> I (emit e w')).
  { intros e w' He (evs & Ht & Hc). exists (evs ++ [e]). split.
    - cbn. now rewrite Ht, app_assoc.
    - now apply counted_other. }
  assert (HWrite : forall n w', 0 <= n -> I w' -> I (Write n w')).
  { intros n w' Hn (evs & Ht & Hc).
    destruct (counted_Write l0 evs n w' Hn Hc) as (evs' & Ht' & Hc').
    exists (evs ++ evs'). split; [now rewrite Ht', Ht, app_assoc | exact Hc']. }
  assert (Hframe : forall w1 w2, trace w2 = trace w1 ->
                     loaded (sw (dl w2)) = loaded (sw (dl w1)) -> I w1 -> I w2).
  { intros w1 w2 Ht Hl (evs & Ht1 & Hc). exists evs. split; congruence. }
  assert (Hpl : forall e, is_plumbing e = true -> C e)
    by (intros [] H; unfold C; cbn in *; congruence).
  assert (Hst : forall t f, C (EvOnStart t f)) by reflexivity.
  assert (Hget : forall u h, C (EvGet u h)) by reflexivity.
  assert (Hcomp : forall e, is_completion e = true -> C e)
    by (intros [] H; unfold C; cbn in *; congruence).
  enough (I (r_world (run_sched E sched (download_begin E w)))) by assumption.
  apply (run_sched_keeps E (fun r => I (r_world r))).
  - intros r it _ Hinv. destruct it.
    + eapply (coord_step_stable E I C); eauto.
    + eapply (other_step_stable E I C); eauto; discriminate.
    + eapply (other_step_stable E I C); eauto; discriminate.
    + eapply (other_step_stable E I C); eauto; discriminate.
  - eapply (download_begin_stable E I C); eauto.
    exists []. split; [now rewrite app_nil_r |].
    repeat split; constructor.
Qed.

(** C10. [Start] on an unraised stop signal does not call [init]: it is
    [download] in the world as the caller left it, the stop channel stays
    the one it was, and the counter goes on from the count [l0] the run
    starts with.  The counter ends at [l0] advanced by the lengths of all
    writes of the run, and, in whichever order the progress callbacks
    reach the observer, each reports [l0] advanced by the writes up to and
    including its own; while the counter does not overflow every reported
    count lies between [l0] and [l0] plus the bytes of the run, so a run
    that follows a completed one reports counts from the total of that
    one upwards. *)
Theorem Start_without_stop_skips_init (E : env) (sched : list sched_item) (w : world) :
  stopped w = false ->
  let out := Start E sched w in
  let l0 := loaded (sw (dl w)) in
  out = download E sched w /\
  stopSignal (dl out.1) = stopSignal (dl w) /\
  exists evs,
    trace out.1 = trace w ++ evs /\
    let ns := sink_writes evs in
    Forall (fun n => 0 <= n) ns /\
    loaded (sw (dl out.1)) = counter_after l0 ns /\
    (forall obs, delivered evs obs ->
       Forall (fun lt => exists k, (0 < k <= length ns)%nat /\
                                   lt.1 = counter_after l0 (take k ns)) obs) /\
    (in_int64 l0 -> l0 + sumZ ns <= max_int64 ->
     loaded (sw (dl out.1)) = l0 + sumZ ns /\
     forall obs, delivered evs obs -> Forall (fun lt => l0 <= lt.1 <= l0 + sumZ ns) obs).
Proof.
  intros Hs. cbn zeta. unfold Start. rewrite Hs.
  split; [reflexivity |]. split; [apply download_signal |].
  destruct (download_counter E sched w) as (evs & Ht & Hnn & Hl & Hp).
  exists evs. split; [exact Ht |]. cbn zeta.
  split; [exact Hnn |]. split; [exact Hl |]. split.
  - intros obs Hobs. unfold delivered in Hobs. now rewrite Hobs.
  - intros Hin Hmax. split; [rewrite Hl; now apply counter_after_exact |].
    intros obs Hobs. unfold delivered in Hobs. rewrite Hobs.
    eapply Forall_impl; [exact Hp |]. intros lt (k & Hk & ->).
    pose proof (sumZ_take (sink_writes evs) k Hnn) as Hb.
    rewrite counter_after_exact; [lia | exact Hin | | lia].
    now apply Forall_take.
Qed.

Lemma Start_without_stop_skips_init_witness :
  let E := serve true ten_bytes in
  let w1 := (Start E [] (new_world (observed (NewDownloader 4 0 "http://h/f.bin"
                                                [WithConcurrency 3])) ∅)).1 in
  stopped w1 = false /\ loaded (sw (dl w1)) = 10 /\
  omap reported (drop (length (trace w1)) (trace (Start E [] w1).1)) = [13; 16; 20].
Proof.
  intros E w1.
  assert (Hs : stopped w1 = false) by (vm_compute; reflexivity).
  destruct (Start_without_stop_skips_init E [] w1 Hs) as [Heq _].
  split; [exact Hs |]. split; [vm_compute; reflexivity |].
  rewrite Heq. vm_compute. reflexivity.
Defined.

(** ** The partition covers [0, L) exactly *)

Lemma partition_covers (L N b : Z) :
  0 < L -> 1 <= N ->
  (0 <= b < L <-> exists i, 0 <= i < N /\ part_lo L N i <= b <= part_hi L N i - 1) /\
  (forall i j, 0 <= i < N -> 0 <= j < N ->
     part_lo L N i <= b <= part_hi L N i - 1 ->
     part_lo L N j <= b <= part_hi L N j - 1 -> i = j).
Proof.
  intros HL HN. unfold part_lo, part_hi.
  rewrite Z.quot_div_nonneg by lia.
  set (ps := L / N).
  assert (Hps : 0 <= ps) by (apply Z.div_pos; lia).
  assert (Hmul : N * ps <= L) by (apply Z.mul_div_le; lia).
  assert (Hhi : forall i, 0 <= i < N ->
            (if i =? N - 1 then L else i * ps + ps) <= L).
  { intros i Hi. destruct (Z.eqb_spec i (N - 1)); [lia | nia]. }
  split; [split |].
  - intros Hb. destruct (Z.lt_ge_cases b ((N - 1) * ps)) as [Hlt | Hge].
    + assert (Hpos : 0 < ps) by nia.
      exists (b / ps).
      assert (Hq : 0 <= b / ps) by (apply Z.div_pos; lia).
      assert (Hlow : b / ps * ps <= b) by (rewrite Z.mul_comm; apply Z.mul_div_le; lia).
      assert (Hup : b < b / ps * ps + ps).
      { pose proof (Z.mod_pos_bound b ps Hpos). pose proof (Z.div_mod b ps). nia. }
      assert (Hlast : b / ps < N - 1) by (apply Z.div_lt_upper_bound; nia).
      destruct (Z.eqb_spec (b / ps) (N - 1)); lia.
    + exists (N - 1). rewrite Z.eqb_refl. lia.
  - intros (i & Hi & Hlo & Hhi'). specialize (Hhi i Hi). nia.
  - intros i j Hi Hj Hbi Hbj.
    destruct (Z.eqb_spec i (N - 1)) as [-> | Hni]; destruct (Z.eqb_spec j (N - 1)) as [-> | Hnj];
      try reflexivity; nia.
Qed.

(** ** Every run returns *)

Lemma step_worker_workers (E : env) (r : run) (k : nat) (wk : worker) :
  r_workers r !! k = Some wk ->
  r_workers (step E r (SWorker k)) =
    <[k := set_pc (worker_step E (r_contentLen r) (r_partSize r) wk (r_world r)).1 wk]>
      (r_workers r) /\
  r_world (step E r (SWorker k)) =
    (worker_step E (r_contentLen r) (r_partSize r) wk (r_world r)).2 /\
  r_contentLen (step E r (SWorker k)) = r_contentLen r /\
  r_partSize (step E r (SWorker k)) = r_partSize r.
Proof. intros H. cbn. rewrite H. destruct (worker_step _ _ _ _ _). now repeat split. Qed.

Lemma step_worker_pc_at (E : env) (r : run) (k : nat) (wk : worker) :
  r_workers r !! k = Some wk ->
  pc_at (step E r (SWorker k)) k =
    Some (worker_step E (r_contentLen r) (r_partSize r) wk (r_world r)).1.
Proof.
  intros H. unfold pc_at. rewrite (proj1 (step_worker_workers E r k wk H)).
  rewrite list_lookup_insert_eq by (now apply lookup_lt_Some in H). reflexivity.
Qed.

Lemma step_worker_other (E : env) (r : run) (k j : nat) :
  j <> k -> r_workers (step E r (SWorker k)) !! j = r_workers r !! j.
Proof.
  intros Hne. destruct (r_workers r !! k) as [wk|] eqn:Hk.
  - rewrite (proj1 (step_worker_workers E r k wk Hk)).
    now rewrite list_lookup_insert_ne by congruence.
  - cbn. now rewrite Hk.
Qed.

Lemma step_worker_length (E : env) (r : run) (k : nat) :
  length (r_workers (step E r (SWorker k))) = length (r_workers r).
Proof.
  destruct (r_workers r !! k) as [wk|] eqn:Hk.
  - rewrite (proj1 (step_worker_workers E r k wk Hk)). apply length_insert.
  - cbn. now rewrite Hk.
Qed.

Lemma pc_at_Some (r : run) (k : nat) (pc : worker_pc) :
  pc_at r k = Some pc -> exists wk, r_workers r !! k = Some wk /\ w_pc wk = pc.
Proof.
  unfold pc_at. destruct (r_workers r !! k) as [wk|]; [| discriminate].
  intros [= <-]. eauto.
Qed.

(** A worker step moves to a later phase, or stays in the copy loop with
    one chunk less. *)
Lemma worker_step_rank (E : env) cl ps wk w :
  let pc' := (worker_step E cl ps wk w).1 in
  match w_pc wk with
  | WCopy ctx chunks fin k off =>
      (exists e, pc' = WDone e) \/
      (exists c rest, chunks = c :: rest /\
                      pc' = WCopy ctx rest fin (S k) (off + length c)%nat)
  | WDone e => pc' = WDone e
  | pc => (rank pc' < rank pc)%nat
  end.
Proof.
  cbn zeta. unfold worker_step.
  destruct (w_pc wk) eqn:Hpc; repeat case_match; simplify_eq; cbn; eauto; lia.
Qed.

Lemma worker_done_stays (E : env) (k n : nat) (r : run) (e : option error) :
  pc_at r k = Some (WDone e) ->
  pc_at (Nat.iter n (fun r' => step E r' (SWorker k)) r) k = Some (WDone e).
Proof.
  intros H. induction n as [|n IH]; [exact H |]. rewrite Nat.iter_succ.
  destruct (pc_at_Some _ _ _ IH) as (wk & Hk & Hpc).
  rewrite (step_worker_pc_at E _ k wk Hk).
  pose proof (worker_step_rank E (r_contentLen (Nat.iter n (fun r' => step E r' (SWorker k)) r))
                (r_partSize (Nat.iter n (fun r' => step E r' (SWorker k)) r)) wk
                (r_world (Nat.iter n (fun r' => step E r' (SWorker k)) r))) as Hr.
  cbn zeta in Hr. rewrite Hpc in Hr. now rewrite Hr.
Qed.

Lemma worker_copy_ends (E : env) (k : nat) chunks :
  forall (r : run) ctx fin n off,
    pc_at r k = Some (WCopy ctx chunks fin n off) ->
    exists e, pc_at (Nat.iter (S (length chunks)) (fun r' => step E r' (SWorker k)) r) k
              = Some (WDone e).
Proof.
  induction chunks as [|c rest IH]; intros r ctx fin n off H;
    rewrite Nat.iter_succ_r;
    destruct (pc_at_Some _ _ _ H) as (wk & Hk & Hpc);
    pose proof (step_worker_pc_at E r k wk Hk) as Hstep;
    pose proof (worker_step_rank E (r_contentLen r) (r_partSize r) wk (r_world r)) as Hr;
    cbn zeta in Hr; rewrite Hpc in Hr.
  - destruct Hr as [[e He] | (c & rest & Hc & _)]; [| discriminate].
    exists e. change (pc_at (step E r (SWorker k)) k = Some (WDone e)).
    now rewrite Hstep, He.
  - destruct Hr as [[e He] | (c' & rest' & [= <- <-] & He)].
    + exists e. apply worker_done_stays. now rewrite Hstep, He.
    + eapply IH. rewrite Hstep, He. reflexivity.
Qed.

Lemma worker_phase_rank (E : env) (k : nat) (r : run) (pc : worker_pc) :
  pc_at r k = Some pc ->
  exists pc', pc_at (worker_phase E k r) k = Some pc' /\
              (rank pc' < rank pc \/ rank pc' = 0)%nat.
Proof.
  intros H. destruct (pc_at_Some _ _ _ H) as (wk & Hk & Hpc).
  unfold worker_phase. rewrite Hk, Hpc.
  pose proof (step_worker_pc_at E r k wk Hk) as Hstep.
  pose proof (worker_step_rank E (r_contentLen r) (r_partSize r) wk (r_world r)) as Hr.
  cbn zeta in Hr. rewrite Hpc in Hr.
  destruct pc; cbn [worker_remaining Nat.iter].
  - eexists. split; [exact Hstep | left; exact Hr].
  - eexists. split; [exact Hstep | left; exact Hr].
  - eexists. split; [exact Hstep | left; exact Hr].
  - destruct (worker_copy_ends E k chunks r ctx fin k0 off H) as [e He].
    exists (WDone e). split; [exact He | right; reflexivity].
  - exists (WDone err). split; [exact H | right; reflexivity].
Qed.

Lemma worker_phase_frame (E : env) (k j : nat) (r : run) :
  j <> k ->
  r_workers (worker_phase E k r) !! j = r_workers r !! j /\
  length (r_workers (worker_phase E k r)) = length (r_workers r).
Proof.
  intros Hne. unfold worker_phase. destruct (r_workers r !! k); [| now split].
  generalize (worker_remaining (w_pc w)). intros n.
  induction n as [|n [IH1 IH2]]; [now split |]. rewrite Nat.iter_succ.
  rewrite step_worker_other by exact Hne. now rewrite step_worker_length.
Qed.

Lemma worker_phase_length (E : env) (k : nat) (r : run) :
  length (r_workers (worker_phase E k r)) = length (r_workers r).
Proof.
  unfold worker_phase. destruct (r_workers r !! k); [| reflexivity].
  generalize (worker_remaining (w_pc w)). intros n.
  induction n as [|n IH]; [reflexivity |]. rewrite Nat.iter_succ.
  now rewrite step_worker_length.
Qed.

Lemma worker_finish_done (E : env) (k : nat) (r : run) :
  (k < length (r_workers r))%nat ->
  (exists e, pc_at (worker_finish E k r) k = Some (WDone e)) /\
  length (r_workers (worker_finish E k r)) = length (r_workers r) /\
  forall j, j <> k -> r_workers (worker_finish E k r) !! j = r_workers r !! j.
Proof.
  intros Hk. unfold worker_finish. split; [| split].
  - destruct (lookup_lt_is_Some_2 _ _ Hk) as [wk Hwk].
    assert (H0 : pc_at r k = Some (w_pc wk)) by (unfold pc_at; now rewrite Hwk).
    destruct (worker_phase_rank E k _ _ H0) as (pc1 & H1 & R1).
    destruct (worker_phase_rank E k _ _ H1) as (pc2 & H2 & R2).
    destruct (worker_phase_rank E k _ _ H2) as (pc3 & H3 & R3).
    destruct (worker_phase_rank E k _ _ H3) as (pc4 & H4 & R4).
    assert (Hr : rank pc4 = 0%nat) by (destruct (w_pc wk), pc1, pc2, pc3, pc4; cbn in *; lia).
    destruct pc4; try discriminate. eauto.
  - now rewrite !worker_phase_length.
  - intros j Hne.
    now rewrite !(proj1 (worker_phase_frame E k j _ Hne)).
Qed.

Lemma worker_phase_pc (E : env) (k : nat) (r : run) : r_pc (worker_phase E k r) = r_pc r.
Proof.
  unfold worker_phase. destruct (r_workers r !! k); [| reflexivity].
  generalize (worker_remaining (w_pc w)). intros n.
  induction n as [|n IH]; [reflexivity |]. rewrite Nat.iter_succ. now rewrite worker_step_pc.
Qed.

Lemma worker_finish_pc (E : env) (k : nat) (r : run) : r_pc (worker_finish E k r) = r_pc r.
Proof. unfold worker_finish. now rewrite !worker_phase_pc. Qed.

Lemma join_fold_done (E : env) (l : list nat) :
  forall r : run,
    (forall k, k ∈ l -> (k < length (r_workers r))%nat) ->
    let r' := fold_left (fun r' k => worker_finish E k r') l r in
    length (r_workers r') = length (r_workers r) /\
    r_pc r' = r_pc r /\
    (forall j e, pc_at r j = Some (WDone e) -> exists e', pc_at r' j = Some (WDone e')) /\
    (forall k, k ∈ l -> exists e, pc_at r' k = Some (WDone e)).
Proof.
  induction l as [|k l IH]; intros r Hl; cbn zeta; cbn [fold_left].
  - repeat split; [eauto | intros k Hk; now apply elem_of_nil in Hk].
  - assert (Hk : (k < length (r_workers r))%nat) by (apply Hl; left).
    destruct (worker_finish_done E k r Hk) as ([e He] & Hlen & Hother).
    specialize (IH (worker_finish E k r)). cbn zeta in IH.
    destruct IH as (IH1 & IH2 & IH3 & IH4).
    { intros j Hj. rewrite Hlen. apply Hl. now right. }
    split; [congruence |]. split; [now rewrite IH2, worker_finish_pc |]. split.
    + intros j e' Hj. destruct (Nat.eq_dec j k) as [-> | Hne]; [now apply (IH3 k e) |].
      apply (IH3 j e'). unfold pc_at in *. now rewrite Hother.
    + intros j Hj. apply elem_of_cons in Hj as [-> | Hj]; [now apply (IH3 k e) | now apply IH4].
Qed.

Lemma join_all_done (E : env) (r : run) :
  r_pc r = CJoin ->
  r_pc (join E r) = CJoin /\ all_done (r_workers (join E r)) = true /\
  length (r_workers (join E r)) = length (r_workers r).
Proof.
  intros Hpc. unfold join. rewrite Hpc.
  destruct (join_fold_done E (seq 0 (length (r_workers r))) r) as (Hlen & Hpc' & _ & Hdone).
  { intros k Hk. apply elem_of_seq in Hk. lia. }
  cbn zeta in *. split; [congruence |]. split; [| exact Hlen].
  unfold all_done. apply forallb_forall. intros wk Hin.
  apply list_elem_of_In, list_elem_of_lookup in Hin. destruct Hin as [k Hk].
  destruct (Hdone k) as [e He].
  { apply elem_of_seq. apply lookup_lt_Some in Hk. lia. }
  unfold pc_at in He. rewrite Hk in He. cbn in He. injection He as ->. reflexivity.
Qed.

Lemma coord_iter_not_running (E : env) (n : nat) (r : run) :
  running r = false -> Nat.iter n (coord_step E) r = r.
Proof.
  intros H. induction n as [|n IH]; [reflexivity |].
  rewrite Nat.iter_succ, IH. now apply coord_step_not_running.
Qed.

Lemma single_finish_returns (ce : option error) (r : run) :
  running (single_finish ce r) = false.
Proof. unfold single_finish. repeat case_match; reflexivity. Qed.

Lemma post_join_returns (E : env) (r : run) : running (post_join E r) = false.
Proof. unfold post_join. repeat case_match; reflexivity. Qed.

Lemma spawn_phase (E : env) (n : nat) :
  forall (r : run) (i rangeStart : Z),
    r_pc r = CSpawn i rangeStart ->
    n = Z.to_nat (concurrency (dl (r_world r)) - i) ->
    r_pc (Nat.iter (S n) (coord_step E) r) = CJoin \/
    running (Nat.iter (S n) (coord_step E) r) = false.
Proof.
  induction n as [|n IH]; intros r i rs Hpc Hn; rewrite Nat.iter_succ_r.
  - left. change (r_pc (coord_step E r) = CJoin). unfold coord_step. rewrite Hpc.
    destruct (Z.ltb_spec i (concurrency (dl (r_world r)))); [lia | reflexivity].
  - assert (Hstep : coord_step E r =
      if stopped (r_world r) then with_pc (CReturn None) r
      else with_pc (CSpawn (i + 1) (rs + r_partSize r))
             (with_workers
                (r_workers r ++ [{| w_i := i; w_rangeStart := rs; w_pc := WStart |}]) r)).
    { unfold coord_step. rewrite Hpc.
      destruct (Z.ltb_spec i (concurrency (dl (r_world r)))); [reflexivity | lia]. }
    rewrite Hstep. destruct (stopped (r_world r)).
    + right. rewrite coord_iter_not_running; reflexivity.
    + eapply IH; [reflexivity |]. cbn. lia.
Qed.

Lemma single_copy_phase (E : env) (chunks : list (list byte)) :
  forall (r : run) ctx fin k off,
    r_pc r = CSingleCopy ctx chunks fin k off ->
    running (Nat.iter (S (length chunks)) (coord_step E) r) = false.
Proof.
  induction chunks as [|c rest IH]; intros r ctx fin k off Hpc; rewrite Nat.iter_succ_r.
  - change (running (coord_step E r) = false). unfold coord_step. rewrite Hpc.
    apply single_finish_returns.
  -     cbn [length].
    assert (Hstep : (exists ce r', coord_step E r = single_finish ce r') \/
                    (exists ctx' k' off', r_pc (coord_step E r)
                                          = CSingleCopy ctx' rest fin k' off')).
    { unfold coord_step. rewrite Hpc.
      destruct (bool_decide _); [left; eauto |].
      destruct (FileWrite E _ k false off c (r_world r)) as [w1 [e|]]; [left; eauto |].
      right. cbn. eauto. }
    destruct Hstep as [(ce & r' & ->) | (ctx' & k' & off' & Hpc')].
    + rewrite coord_iter_not_running; apply single_finish_returns.
    + eapply IH. exact Hpc'.
Qed.

(** After its first two phases the coordinator waits at the join or has
    returned; after the join every worker is done; the last phase
    returns. *)
Theorem finish_returns (E : env) (r : run) : running (finish E r) = false.
Proof.
  unfold finish.
  assert (Hphase : forall r0,
    running (coord_phase E r0) = false \/ r_pc (coord_phase E r0) = CJoin \/
    (exists ctx, r_pc r0 = CSingleDo ctx) /\
    exists ctx chunks fin k off, r_pc (coord_phase E r0) = CSingleCopy ctx chunks fin k off).
  { intros r0. unfold coord_phase, coord_remaining.
    destruct (r_pc r0) eqn:Hpc.
    - destruct (spawn_phase E _ r0 i rangeStart Hpc eq_refl) as [H | H]; auto.
    - change (Nat.iter 1 (coord_step E) r0) with (coord_step E r0).
      unfold coord_step. rewrite Hpc. destruct (all_done _); [| auto].
      left. apply post_join_returns.
    - change (Nat.iter 1 (coord_step E) r0) with (coord_step E r0).
      unfold coord_step. rewrite Hpc.
      repeat case_match; cbn; eauto 10.
    - left. now apply (single_copy_phase E chunks r0 ctx fin k off).
    - left. cbn. unfold running. now rewrite Hpc.
    - left. cbn. unfold running. now rewrite Hpc. }
  assert (Hlast : forall r0, r_pc r0 = CJoin ->
            running (coord_phase E (join E r0)) = false).
  { intros r0 Hpc. destruct (join_all_done E r0 Hpc) as (Hpc' & Hdone & _).
    unfold coord_phase, coord_remaining. rewrite Hpc'.
    change (Nat.iter 1 (coord_step E) (join E r0)) with (coord_step E (join E r0)).
    unfold coord_step. rewrite Hpc', Hdone. apply post_join_returns. }
  assert (Hdone : forall r0, running r0 = false ->
            running (coord_phase E (join E r0)) = false).
  { intros r0 H0. now rewrite (join_not_running E r0 H0), (coord_phase_not_running E r0 H0). }
  destruct (Hphase r) as [H1 | [H1 | [_ (ctx & chunks & fin & k & off & H1)]]].
  - rewrite (coord_phase_not_running E _ H1). now apply Hdone.
  - destruct (Hphase (coord_phase E r)) as [H2 | [H2 | [[ctx Hc] _]]];
      [now apply Hdone | now apply Hlast | congruence].
  - apply Hdone. unfold coord_phase at 1, coord_remaining. rewrite H1.
    now apply (single_copy_phase E chunks _ ctx fin k off).
Qed.

(** [download] and [Start] always come back, with an error value or nil,
    or with the panic of a division by zero. *)
Corollary download_returns (E : env) (sched : list sched_item) (w : world) :
  (download E sched w).2 <> Unfinished.
Proof.
  unfold download, run_sched. cbn [snd].
  pose proof (finish_returns E (exec E sched (download_begin E w))) as H.
  unfold running, outcome_of in *. destruct (r_pc _); congruence.
Qed.

(** ** Part files have distinct names *)

Lemma FormatInt_inj (a b : Z) : FormatInt a = FormatInt b -> a = b.
Proof.
  unfold FormatInt. intros H. apply DecimalZ.to_int_inj.
  assert (Hnn : forall z, Z.to_int z <> Decimal.Pos Decimal.Nil /\
                          Z.to_int z <> Decimal.Neg Decimal.Nil).
  { intros [|p|p]; cbn; split; try discriminate;
      intros [= Hp]; now apply (DecimalPos.Unsigned.to_uint_nonnil p). }
  pose proof (NilZero.isi (Z.to_int a) (proj1 (Hnn a)) (proj2 (Hnn a))) as Ha.
  pose proof (NilZero.isi (Z.to_int b) (proj1 (Hnn b)) (proj2 (Hnn b))) as Hb.
  rewrite H in Ha. congruence.
Qed.

Lemma getPartFilename_inj (d : Downloader) (filename : string) (i j : Z) :
  getPartFilename d filename i = getPartFilename d filename j -> i = j.
Proof.
  unfold getPartFilename, filepath_Join. intros H.
  apply String.app_inj, String.app_inj, String.app_inj, String.app_inj in H.
  now apply FormatInt_inj.
Qed.

(** ** Merge *)

Lemma seqZ_of_to_nat (m n : Z) : seqZ m n = seqZ m (Z.of_nat (Z.to_nat n)).
Proof. unfold seqZ. now rewrite Nat2Z.id. Qed.

Lemma string_length_app (a b : string) :
  String.length (a +:+ b) = (String.length a + String.length b)%nat.
Proof.
  induction a as [|c a IH]; [reflexivity |].
  change (S (String.length (a +:+ b)) = S (String.length a + String.length b)).
  now rewrite IH.
Qed.

(** A part file is never the destination. *)
Lemma part_name_not_dest (d : Downloader) (filename : string) (i : Z) :
  getPartFilename d filename i <> filename.
Proof.
  unfold getPartFilename, filepath_Join. intros H.
  apply (f_equal String.length) in H. rewrite !string_length_app in H. cbn in H. lia.
Qed.

Lemma first_failure_cons (E : env) fs d filename (m : Z) (k : nat) :
  first_failure E fs d filename (seqZ m (Z.of_nat (S k))) =
    match part_failure E fs d filename m with
    | Some (st, cause) => Some (m, st, cause)
    | None => first_failure E fs d filename (seqZ (Z.succ m) (Z.of_nat k))
    end.
Proof.
  rewrite seqZ_cons by lia.
  now replace (Z.pred (Z.of_nat (S k))) with (Z.of_nat k) by lia.
Qed.

(** [merge_parts] on the parts [m, m + k), in a world whose destination
    holds [destc] and whose parts are as in [fs0]. *)
Lemma merge_parts_result (E : env) (d : Downloader) (filename : string)
    (fs0 : gmap string (list byte)) (k : nat) :
  forall (m : Z) (w : world) (destc : list byte),
    files w !! filename = Some destc ->
    (forall i, m <= i < m + Z.of_nat k ->
       files w !! getPartFilename d filename i = fs0 !! getPartFilename d filename i) ->
    let part := getPartFilename d filename in
    let content i := default [] (fs0 !! part i) in
    let out := merge_parts E d filename (seqZ m (Z.of_nat k)) w in
    match first_failure E fs0 d filename (seqZ m (Z.of_nat k)) with
    | None =>
        out.2 = None /\
        trace out.1 = trace w ++ (EvFs <$> flat_map (part_ops d filename) (seqZ m (Z.of_nat k))) /\
        files out.1 !! filename = Some (destc ++ concat (content <$> seqZ m (Z.of_nat k))) /\
        (forall i, m <= i < m + Z.of_nat k -> part_failure E fs0 d filename i = None) /\
        (forall i, m <= i < m + Z.of_nat k -> files out.1 !! part i = None) /\
        (forall p, p <> filename -> (forall i, m <= i < m + Z.of_nat k -> p <> part i) ->
                   files out.1 !! p = files w !! p)
    | Some (j, st, cause) =>
        m <= j < m + Z.of_nat k /\
        part_failure E fs0 d filename j = Some (st, cause) /\
        out.2 = Some (Errorf_w (stage_message st j) cause) /\
        trace out.1 =
          trace w ++ (EvFs <$> (flat_map (part_ops d filename) (seqZ m (j - m))
                                 ++ failed_part_ops d filename j st)) /\
        (exists tail,
            files out.1 !! filename = Some (destc ++ concat (content <$> seqZ m (j - m)) ++ tail)
            /\ received st (content j) tail) /\
        (forall i, m <= i < j -> part_failure E fs0 d filename i = None) /\
        (forall i, m <= i < j -> files out.1 !! part i = None) /\
        (forall p, p <> filename -> (forall i, m <= i < j -> p <> part i) ->
                   files out.1 !! p = files w !! p)
    end.
Proof.
  induction k as [|k IH]; intros m w destc Hdest Hparts; cbn zeta.
  - cbn. rewrite !app_nil_r. repeat split; try (intros; lia). exact Hdest.
  - rewrite first_failure_cons.
    rewrite (seqZ_cons m (Z.of_nat (S k))) by lia.
    replace (Z.pred (Z.of_nat (S k))) with (Z.of_nat k) by lia.
    cbn [merge_parts].
    set (p := getPartFilename d filename m).
    assert (Hp : files w !! p = fs0 !! p) by (apply Hparts; lia).
    assert (Hpd : p <> filename) by apply part_name_not_dest.
    assert (Hhere : forall st (tr : list event),
      tr = trace w ++ (EvFs <$> failed_part_ops d filename m st) ->
      tr = trace w ++ (EvFs <$> (flat_map (part_ops d filename) (seqZ m (m - m))
                                  ++ failed_part_ops d filename m st))).
    { intros st tr ->. now rewrite Z.sub_diag. }
    assert (Hnone : forall i : Z, m <= i < m -> part_failure E fs0 d filename i = None)
      by (intros; lia).
    assert (Hnone' : forall (f : gmap string (list byte)) (i : Z),
               m <= i < m -> f !! getPartFilename d filename i = None)
      by (intros; lia).
    unfold part_failure at 1. fold p. rewrite <- Hp.
    destruct (fs_fault E (OpOpen p)) as [e|] eqn:Hopen.
    { cbn. split; [lia |]. split; [unfold part_failure; fold p; now rewrite Hopen |].
      split; [reflexivity |]. split; [now apply (Hhere AtOpen) |].
      split; [exists []; rewrite Z.sub_diag; cbn; rewrite !app_nil_r; now split |].
      repeat split; intros; lia || reflexivity. }
    destruct (files w !! p) as [c|] eqn:Hfile.
    2:{ cbn. split; [lia |].
        split; [unfold part_failure; fold p; now rewrite Hopen, <- Hp |].
        split; [reflexivity |]. split; [now apply (Hhere AtOpen) |].
        split; [exists []; rewrite Z.sub_diag; cbn; rewrite !app_nil_r; now split |].
        repeat split; intros; lia || reflexivity. }
    assert (Hc : default [] (fs0 !! p) = c) by now rewrite <- Hp.
    destruct (fs_fault E (OpCopy filename p)) as [e|] eqn:Hcopy.
    { cbn. split; [lia |].
      split; [unfold part_failure; fold p; now rewrite Hopen, <- Hp, Hcopy |].
      split; [reflexivity |].
      split; [apply (Hhere AtCopy); cbn; fold p; now rewrite <- !app_assoc |].
      split; [exists []; rewrite Z.sub_diag; cbn; rewrite !app_nil_r;
              split; [exact Hdest | apply prefix_nil] |].
      repeat split; intros; lia || reflexivity. }
    destruct (fs_fault E (OpClose p)) as [e|] eqn:Hclose.
    { cbn. split; [lia |].
      split; [unfold part_failure; fold p; now rewrite Hopen, <- Hp, Hcopy, Hclose |].
      split; [reflexivity |].
      split; [apply (Hhere AtClose); cbn; fold p; now rewrite <- !app_assoc |].
      split.
      { exists c. rewrite Z.sub_diag. cbn. rewrite lookup_insert_eq, Hdest. cbn.
        split; [reflexivity |]. fold p. now rewrite Hc. }
      repeat split; try (intros; lia).
      intros q Hq _. now rewrite lookup_insert_ne by congruence. }
    destruct (fs_fault E (OpRemove p)) as [e|] eqn:Hremove.
    { cbn. split; [lia |].
      split; [unfold part_failure; fold p; now rewrite Hopen, <- Hp, Hcopy, Hclose, Hremove |].
      split; [reflexivity |].
      split; [apply (Hhere AtRemove); cbn; fold p; now rewrite <- !app_assoc |].
      split.
      { exists c. rewrite Z.sub_diag. cbn. rewrite lookup_insert_eq, Hdest. cbn.
        split; [reflexivity |]. fold p. now rewrite Hc. }
      repeat split; try (intros; lia).
      intros q Hq _. now rewrite lookup_insert_ne by congruence. }
    assert (Hok : part_failure E fs0 d filename m = None)
      by (unfold part_failure; fold p; now rewrite Hopen, <- Hp, Hcopy, Hclose, Hremove).
    match goal with |- context [merge_parts E d filename _ ?w0] => set (w' := w0) end.
    assert (Hfiles' : files w' = delete p (<[filename := (destc ++ c)%list]> (files w))).
    { subst w'. cbn. now rewrite Hdest. }
    assert (Htr : trace w' = trace w ++ (EvFs <$> part_ops d filename m)).
    { subst w'. cbn. fold p. now rewrite <- !app_assoc. }
    assert (Hdest' : files w' !! filename = Some (destc ++ c)%list).
    { rewrite Hfiles', lookup_delete_ne by congruence. apply lookup_insert_eq. }
    assert (Hparts' : forall i, Z.succ m <= i < Z.succ m + Z.of_nat k ->
               files w' !! getPartFilename d filename i = fs0 !! getPartFilename d filename i).
    { intros i Hi. rewrite Hfiles'.
      rewrite lookup_delete_ne
        by (intros Heq; apply getPartFilename_inj in Heq; lia).
      rewrite lookup_insert_ne by (apply not_eq_sym, part_name_not_dest).
      apply Hparts. lia. }
    assert (Hother : forall q, q <> filename -> q <> p -> files w' !! q = files w !! q).
    { intros q Hq1 Hq2. rewrite Hfiles', lookup_delete_ne, lookup_insert_ne; congruence. }
    assert (Hgone : files w' !! p = None) by (rewrite Hfiles'; apply lookup_delete_eq).
    specialize (IH (Z.succ m) w' (destc ++ c)%list Hdest' Hparts'). cbn zeta in IH.
    destruct (first_failure E fs0 d filename (seqZ (Z.succ m) (Z.of_nat k)))
      as [[[j st] cause]|].
    + destruct IH as (Hj & Hf & Hr & Ht & (tail & Hd & Hrc) & Hbefore & Hrem & Hfr).
      split; [lia |]. split; [exact Hf |]. split; [exact Hr |].
      split.
      { rewrite Ht, Htr. rewrite (seqZ_cons m (j - m)) by lia.
        replace (Z.pred (j - m)) with (j - Z.succ m) by lia.
        cbn [flat_map]. rewrite !fmap_app, <- !app_assoc. reflexivity. }
      split.
      { exists tail. split; [| exact Hrc]. rewrite Hd.
        rewrite (seqZ_cons m (j - m)) by lia.
        replace (Z.pred (j - m)) with (j - Z.succ m) by lia.
        cbn [fmap list_fmap concat]. fold p. rewrite Hc, <- !app_assoc. reflexivity. }
      split.
      { intros i Hi. destruct (Z.eq_dec i m) as [-> | Hne]; [exact Hok | apply Hbefore; lia]. }
      split.
      { intros i Hi. destruct (Z.eq_dec i m) as [-> | Hne]; [| apply Hrem; lia].
        fold p. rewrite Hfr; [exact Hgone | exact Hpd |].
        intros i' Hi' Heq. apply getPartFilename_inj in Heq. lia. }
      intros q Hq1 Hq2. rewrite Hfr; [| exact Hq1 | intros i Hi; apply Hq2; lia].
      apply Hother; [exact Hq1 | apply Hq2; lia].
    + destruct IH as (Hr & Ht & Hd & Hbefore & Hrem & Hfr).
      split; [exact Hr |].
      split; [rewrite Ht, Htr; cbn [flat_map]; rewrite !fmap_app, <- !app_assoc; reflexivity |].
      split.
      { rewrite Hd. cbn [fmap list_fmap concat]. fold p.
        rewrite Hc, <- !app_assoc. reflexivity. }
      split.
      { intros i Hi. destruct (Z.eq_dec i m) as [-> | Hne]; [exact Hok | apply Hbefore; lia]. }
      split.
      { intros i Hi. destruct (Z.eq_dec i m) as [-> | Hne]; [| apply Hrem; lia].
        fold p. rewrite Hfr; [exact Hgone | exact Hpd |].
        intros i' Hi' Heq. apply getPartFilename_inj in Heq. lia. }
      intros q Hq1 Hq2. rewrite Hfr; [| exact Hq1 | intros i Hi; apply Hq2; lia].
      apply Hother; [exact Hq1 | apply Hq2; lia].
Qed.

Lemma part_failure_none (E : env) fs d filename (i : Z) :
  part_failure E fs d filename i = None <->
  fs !! getPartFilename d filename i <> None /\
  Forall (fun op => fs_fault E op = None) (part_ops d filename i).
Proof.
  unfold part_failure, part_ops. set (p := getPartFilename d filename i). split.
  - intros H. repeat case_match; try discriminate.
    split; [congruence | repeat constructor; assumption].
  - intros [Hf Hops].
    apply Forall_cons in Hops as [-> Hops]. apply Forall_cons in Hops as [-> Hops].
    apply Forall_cons in Hops as [-> Hops]. apply Forall_cons in Hops as [-> _].
    destruct (fs !! p); [reflexivity | contradiction].
Qed.

Lemma first_failure_none (E : env) fs d filename (parts : list Z) :
  first_failure E fs d filename parts = None <->
  forall i, i ∈ parts -> part_failure E fs d filename i = None.
Proof.
  induction parts as [|i rest IH]; cbn.
  - split; [intros _ i Hi; now apply elem_of_nil in Hi | reflexivity].
  - destruct (part_failure E fs d filename i) as [[st c]|] eqn:Hi.
    + split; [discriminate |]. intros H. specialize (H i ltac:(left)). congruence.
    + rewrite IH. split.
      * intros H j Hj. apply elem_of_cons in Hj as [-> | Hj]; [exact Hi | now apply H].
      * intros H j Hj. apply H. now right.
Qed.

(** C5. [merge] opens the destination with truncation and then takes the
    parts in ascending order, each opened, appended to the destination,
    closed and removed.  An error of opening the destination, or of one of
    these four operations on a part (a missing part file is an error of
    its opening), ends the merge there and is returned, wrapped with the
    stage and the index of the part.  The theorem gives the result of
    [merge] in every file system and for every fault:
    - when the opening of the destination fails, nothing else happens;
    - when no part fails, which is the case exactly when every part file
      exists and none of its four operations fails, [merge] returns nil,
      the destination holds the parts' contents in ascending order, the
      part files are gone and every other file is as it was;
    - otherwise, with [j] the first part that fails, the parts before [j]
      are in the destination and removed, part [j] is in the destination
      when its copy had succeeded, no later part is touched, and the error
      of the failing operation is returned.
    The close of the destination is deferred and its error dropped: the
    result does not depend on it. *)
Theorem merge_in_order (E : env) (w : world) :
  let d := dl w in
  let filename := Options.FileName (options d) in
  let N := concurrency d in
  let dest := OpOpenFile filename true false in
  let part := getPartFilename d filename in
  let content i := default [] (files w !! part i) in
  let out := merge E w in
  dl out.1 = dl w /\
  (first_failure E (files w) d filename (seqZ 0 N) = None <->
   forall i, 0 <= i < N ->
     files w !! part i <> None /\
     Forall (fun op => fs_fault E op = None) (part_ops d filename i)) /\
  match fs_fault E dest with
  | Some cause =>
      out = (emit (EvFs dest) w, Some (Errorf_w "failed to create destination file" cause))
  | None =>
      match first_failure E (files w) d filename (seqZ 0 N) with
      | None =>
          out.2 = None /\
          trace out.1 =
            trace w ++ (EvFs <$> (dest :: flat_map (part_ops d filename) (seqZ 0 N)
                                   ++ [OpClose filename])) /\
          files out.1 !! filename = Some (concat (content <$> seqZ 0 N)) /\
          (forall i, 0 <= i < N -> files out.1 !! part i = None) /\
          (forall p, p <> filename -> (forall i, 0 <= i < N -> p <> part i) ->
                     files out.1 !! p = files w !! p)
      | Some (j, st, cause) =>
          0 <= j < N /\
          (forall i, 0 <= i < j -> part_failure E (files w) d filename i = None) /\
          part_failure E (files w) d filename j = Some (st, cause) /\
          out.2 = Some (Errorf_w (stage_message st j) cause) /\
          trace out.1 =
            trace w ++ (EvFs <$> (dest :: flat_map (part_ops d filename) (seqZ 0 j)
                                   ++ failed_part_ops d filename j st
                                   ++ [OpClose filename])) /\
          (exists tail,
              files out.1 !! filename = Some (concat (content <$> seqZ 0 j) ++ tail) /\
              received st (content j) tail) /\
          (forall i, 0 <= i < j -> files out.1 !! part i = None) /\
          (forall p, p <> filename -> (forall i, 0 <= i < j -> p <> part i) ->
                     files out.1 !! p = files w !! p)
      end
  end.
Proof.
  cbn zeta.
  set (d := dl w). set (filename := Options.FileName (options d)).
  split; [apply merge_dl |]. split.
  { rewrite first_failure_none. split.
    - intros H i Hi. apply part_failure_none, H. apply elem_of_seqZ. lia.
    - intros H i Hi. apply elem_of_seqZ in Hi. apply part_failure_none, H. lia. }
  unfold merge, OpenFile. fold d filename.
  destruct (fs_fault E (OpOpenFile filename true false)) as [c|] eqn:Hdest; [reflexivity |].
  match goal with |- context [merge_parts E d filename _ ?w0] => set (w1 := w0) end.
  rewrite (seqZ_of_to_nat 0 (concurrency d)).
  assert (Htr1 : trace w1 = trace w ++ [EvFs (OpOpenFile filename true false)])
    by reflexivity.
  assert (Hd1 : files w1 !! filename = Some []) by (subst w1; cbn; apply lookup_insert_eq).
  assert (Hp1 : forall i, 0 <= i < 0 + Z.of_nat (Z.to_nat (concurrency d)) ->
                  files w1 !! getPartFilename d filename i
                  = files w !! getPartFilename d filename i).
  { intros i _. subst w1. cbn.
    now rewrite lookup_insert_ne by (apply not_eq_sym, part_name_not_dest). }
  assert (Ho1 : forall p, p <> filename -> files w1 !! p = files w !! p).
  { intros p Hp. subst w1. cbn. now rewrite lookup_insert_ne by congruence. }
  pose proof (merge_parts_result E d filename (files w) (Z.to_nat (concurrency d)) 0 w1 []
                Hd1 Hp1) as Hres.
  cbn zeta in Hres.
  destruct (merge_parts E d filename (seqZ 0 (Z.of_nat (Z.to_nat (concurrency d)))) w1)
    as [w2 r] eqn:Hm.
  cbn [fst snd] in *.
  destruct (first_failure E (files w) d filename
              (seqZ 0 (Z.of_nat (Z.to_nat (concurrency d))))) as [[[j st] cause]|].
  - destruct Hres as (Hj & Hf & Hr & Ht & (tail & Hdc & Hrc) & Hbefore & Hrem & Hfr).
    rewrite Z.sub_0_r in *.
    split; [lia |]. split; [exact Hbefore |]. split; [exact Hf |]. split; [exact Hr |].
    split.
    { cbn [trace emit]. rewrite Ht, Htr1.
      cbn [fmap list_fmap]. rewrite !fmap_app, <- !app_assoc. reflexivity. }
    split; [exists tail; now split |]. split; [exact Hrem |].
    intros p Hp1' Hp2. cbn [files emit]. rewrite Hfr by assumption. now apply Ho1.
  - destruct Hres as (Hr & Ht & Hdc & Hbefore & Hrem & Hfr).
    split; [exact Hr |].
    split.
    { cbn [trace emit]. rewrite Ht, Htr1.
      cbn [fmap list_fmap]. rewrite !fmap_app, <- !app_assoc. reflexivity. }
    split; [exact Hdc |].
    split; [intros i Hi; apply Hrem; lia |].
    intros p Hp1' Hp2. cbn [files emit].
    rewrite Hfr; [now apply Ho1 | assumption |]. intros i Hi. apply Hp2. lia.
Qed.

(** A file system in which closing the destination ["f.bin"] fails. *)
Lemma merge_drops_destination_close_error :
  let E := {| url_error := url_error (serve true ten_bytes);
              head := head (serve true ten_bytes);
              get := get (serve true ten_bytes);
              fs_fault := fun op =>
                match op with
                | OpClose "f.bin" => Some (ErrExternal "input/output error")
                | _ => None
                end |} in
  let w := new_world (observed (NewDownloader 4 0 "http://h/f.bin" [WithConcurrency 2])) ∅ in
  let w1 := with_files {[ "downloader_cache/f.bin/f.bin_0" := ["A"; "B"]%byte;
                          "downloader_cache/f.bin/f.bin_1" := ["C"]%byte ]}
              (with_dl (set_partDir "downloader_cache/f.bin" (dl w)) w) in
  fs_fault E (OpClose "f.bin") <> None /\
  EvFs (OpClose "f.bin") ∈ trace (merge E w1).1 /\
  (merge E w1).2 = None /\
  (Start E [] w).2 = Returned None /\
  last (trace (Start E [] w).1) = Some (EvOnFinished "f.bin").
Proof.
  cbn zeta. split; [discriminate |]. split.
  - vm_compute. repeat (first [left | right]). 
  - split; [vm_compute; reflexivity |]. split; vm_compute; reflexivity.
Qed.

Lemma merge_in_order_witness :
  let w := new_world (NewDownloader 4 0 "http://h/f.bin" [WithConcurrency 2]) ∅ in
  let w1 := with_files {[ "downloader_cache/f.bin/f.bin_0" := ["A"; "B"]%byte;
                          "downloader_cache/f.bin/f.bin_1" := ["C"]%byte;
                          "f.bin" := ["x"]%byte ]}
              (with_dl (set_partDir "downloader_cache/f.bin" (dl w)) w) in
  (merge (serve true ten_bytes) w1).2 = None /\
  files (merge (serve true ten_bytes) w1).1 !! "f.bin" = Some ["A"; "B"; "C"]%byte.
Proof.
  intros w w1.
  pose proof (merge_in_order (serve true ten_bytes) w1) as (_ & _ & H).
  vm_compute in H. destruct H as (Hr & _ & Hf & _).
  split; [exact Hr | exact Hf].
Defined.

(** ** What a worker step touches *)

Lemma worker_step_frame (E : env) cl ps wk w :
  let w' := (worker_step E cl ps wk w).2 in
  let part := getPartFilename (dl w) (Options.FileName (options (dl w))) (w_i wk) in
  stopSignal (dl w') = stopSignal (dl w) /\
  closed w' = closed w /\
  cancelled w' ⊆ cancelled w /\
  (forall p, p <> part -> files w' !! p = files w !! p).
Proof.
  cbn zeta.
  unfold worker_step, ReadFile, OpenFile, FileWrite, Write, sw_Write, partial_exit,
    Delete, Store, WithCancel.
  repeat case_match; simplify_eq; cbn; repeat split; try set_solver;
    intros p Hp; rewrite ?lookup_insert_ne by congruence; reflexivity.
Qed.

Lemma worker_step_gets (E : env) cl ps wk w :
  exists evs,
    trace (worker_step E cl ps wk w).2 = trace w ++ evs /\
    gets evs =
      match w_pc wk with
      | WDo a b ctx =>
          if bool_decide (ctx ∈ cancelled w) then [] else [Some (Range_header a b)]
      | _ => []
      end.
Proof.
  unfold worker_step, ReadFile, OpenFile, FileWrite, Write, sw_Write, partial_exit,
    Delete, Store, WithCancel.
  repeat case_match; simplify_eq; cbn; rewrite <- ?app_assoc; cbn;
    try (eexists; split; [reflexivity | reflexivity]);
    exists []; now rewrite app_nil_r.
Qed.

Lemma worker_step_start (E : env) cl ps wk w :
  w_pc wk = WStart ->
  files w !! getPartFilename (dl w) (Options.FileName (options (dl w))) (w_i wk) = None ->
  (worker_step E cl ps wk w).1
    = WFetch (w_rangeStart wk) (worker_rangeEnd (dl w) cl ps wk) /\
  files (worker_step E cl ps wk w).2 = files w /\
  cancelled (worker_step E cl ps wk w).2 = cancelled w.
Proof.
  intros Hpc Hf. unfold worker_step, ReadFile. rewrite Hpc, Hf.
  repeat case_match; simplify_eq; cbn; repeat split.
Qed.

Lemma worker_step_fetch (E : env) cl ps wk w a b :
  w_pc wk = WFetch a b ->
  url_error E (url (dl w)) = None ->
  (b <= a -> worker_step E cl ps wk w = (WDone None, w)) /\
  (a < b ->
     (worker_step E cl ps wk w).1 = WDo a b (next_ctx w) /\
     (next_ctx w ∉ cancelled (worker_step E cl ps wk w).2) /\
     files (worker_step E cl ps wk w).2 = files w).
Proof.
  intros Hpc Hu. unfold worker_step. rewrite Hpc, Hu. split; intros H.
  - destruct (Z.leb_spec b a); [reflexivity | lia].
  - destruct (Z.leb_spec b a); [lia |]. cbn. repeat split. set_solver.
Qed.

Lemma worker_step_past (E : env) cl ps wk w :
  match w_pc wk with
  | WDo _ _ ctx => ctx ∉ cancelled w
  | WCopy _ _ _ _ _ | WDone _ => True
  | _ => False
  end ->
  past_request (worker_step E cl ps wk w).1 = true /\
  cancelled (worker_step E cl ps wk w).2 = cancelled w.
Proof.
  unfold worker_step, OpenFile, FileWrite, Write, sw_Write, partial_exit, Delete.
  destruct (w_pc wk) eqn:Hpc; intros H; try contradiction.
  - rewrite bool_decide_eq_false_2 by exact H.
    repeat case_match; simplify_eq; cbn; split; reflexivity.
  - repeat case_match; simplify_eq; cbn; split; reflexivity.
  - split; reflexivity.
Qed.

Lemma issued_insert (N L ps : Z) (ws : list worker) (k : nat) (wk wk' : worker)
    (g : list (option string)) :
  ws !! k = Some wk ->
  issued_by N L ps wk' = issued_by N L ps wk ++ g ->
  issued N L ps (<[k := wk']> ws) ≡ₚ issued N L ps ws ++ g.
Proof.
  intros Hk Hg. pose proof (lookup_lt_Some _ _ _ Hk) as Hlt.
  rewrite insert_take_drop by exact Hlt.
  rewrite <- (take_drop_middle ws k wk Hk) at 3.
  unfold issued. rewrite !flat_map_app. cbn [flat_map]. rewrite Hg, <- !app_assoc.
  apply Permutation_app_head, Permutation_app_head, Permutation_app_comm.
Qed.

Lemma gets_app (a b : list event) : gets (a ++ b) = gets a ++ gets b.
Proof. unfold gets. apply omap_app. Qed.

Lemma worker_step_local (E : env) (N L ps : Z) (wk : worker) (w : world) :
  concurrency (dl w) = N ->
  url_error E (url (dl w)) = None ->
  pc_ok N L ps wk w ->
  (w_pc wk = WStart ->
   files w !! getPartFilename (dl w) (Options.FileName (options (dl w))) (w_i wk) = None) ->
  let pc' := (worker_step E L ps wk w).1 in
  let w' := (worker_step E L ps wk w).2 in
  pc_ok N L ps (set_pc pc' wk) w' /\
  pc' <> WStart /\
  exists evs,
    trace w' = trace w ++ evs /\
    issued_by N L ps (set_pc pc' wk) = issued_by N L ps wk ++ gets evs.
Proof.
  intros Hc Hu Hok Hf. cbn zeta.
  destruct (worker_step_gets E L ps wk w) as (evs & Htr & Hg).
  pose proof (worker_step_rank E L ps wk w) as Hrank. cbn zeta in Hrank.
  unfold pc_ok, issued_by in *. cbn [w_i w_rangeStart w_pc set_pc].
  set (hi := if w_i wk =? N - 1 then L else w_rangeStart wk + ps) in *.
  destruct (w_pc wk) as [| a b | a b ctx | ctx chunks fin k off | e] eqn:Hpc.
  - destruct (worker_step_start E L ps wk w Hpc (Hf eq_refl)) as (Hpc' & _ & _).
    rewrite Hpc'. unfold worker_rangeEnd. rewrite Hc. fold hi.
    split; [now split |]. split; [discriminate |].
    exists evs. split; [exact Htr | now rewrite Hg].
  - destruct Hok as [-> ->].
    destruct (worker_step_fetch E L ps wk w _ _ Hpc Hu) as [Hle Hlt].
    destruct (Z.le_gt_cases hi (w_rangeStart wk)) as [H | H].
    + rewrite (Hle H). cbn [fst snd].
      split; [exact I |]. split; [discriminate |].
      exists []. split; [now rewrite app_nil_r |].
      cbn. destruct (Z.ltb_spec (w_rangeStart wk) hi); [lia | reflexivity].
    + destruct (Hlt ltac:(lia)) as (Hpc' & Hctx & _). rewrite Hpc'.
      split; [repeat split; [lia | exact Hctx] |]. split; [discriminate |].
      exists evs. split; [exact Htr | now rewrite Hg].
  - destruct Hok as (-> & -> & Hlt & Hctx).
    destruct (worker_step_past E L ps wk w) as [Hpast Hcan]; [now rewrite Hpc |].
    rewrite bool_decide_eq_false_2 in Hg by exact Hctx.
    split; [| split].
    + destruct (worker_step E L ps wk w).1; try exact I; try discriminate. exact Hlt.
    + intros Heq. rewrite Heq in Hpast. discriminate.
    + exists evs. split; [exact Htr |]. rewrite Hg, Hpast. cbn.
      destruct (Z.ltb_spec (w_rangeStart wk) hi); [reflexivity | lia].
  - destruct (worker_step_past E L ps wk w) as [Hpast Hcan]; [now rewrite Hpc |].
    split; [| split].
    + destruct (worker_step E L ps wk w).1; try exact I; try discriminate. exact Hok.
    + intros Heq. rewrite Heq in Hpast. discriminate.
    + exists evs. split; [exact Htr |]. rewrite Hg, Hpast, app_nil_r. reflexivity.
  - rewrite Hrank. split; [exact I |]. split; [discriminate |].
    exists evs. split; [exact Htr |]. now rewrite Hg, app_nil_r.
Qed.

(** ** Multi mode without [Stop]: the requests of the workers *)

Section Partition.
Variable E : env.
Variable w0 : world.
Variables L N : Z.

Let d0 := dl w0.
Let fname := Options.FileName (options d0).
Let pd := getPartDir d0 fname.
Let ps := L ÷ N.
Let part (k : Z) := getPartFilename (set_partDir pd d0) fname k.

Hypothesis conc : concurrency d0 = N.
Hypothesis url_ok : url_error E (url d0) = None.
Hypothesis no_parts : forall k, 0 <= k < N -> files w0 !! part k = None.

(** The invariant of the run from the head of the spawn loop on. *)
Let inv (r : run) : Prop :=
  settings (dl (r_world r)) = settings d0 /\
  partDir (dl (r_world r)) = pd /\
  (r_contentLen r = L /\ r_partSize r = ps) /\
  (stopSignal (dl (r_world r)) = stopSignal d0 /\ closed (r_world r) = closed w0) /\
  (forall k wk, r_workers r !! k = Some wk ->
     w_i wk = Z.of_nat k /\ w_rangeStart wk = Z.of_nat k * ps /\
     pc_ok N L ps wk (r_world r)) /\
  (forall k : nat, Z.of_nat k < N ->
     (forall wk, r_workers r !! k = Some wk -> w_pc wk = WStart) ->
     files (r_world r) !! part (Z.of_nat k) = None) /\
  match r_pc r with
  | CSpawn i rs => i = Z.of_nat (length (r_workers r)) /\ rs = i * ps /\ i <= N
  | CJoin => Z.of_nat (length (r_workers r)) = N
  | CReturn _ => Z.of_nat (length (r_workers r)) = N /\ all_done (r_workers r) = true
  | _ => False
  end /\
  exists evs, trace (r_world r) = trace w0 ++ evs /\
              gets evs ≡ₚ issued N L ps (r_workers r).

Lemma part_name (w : world) (k : Z) :
  settings (dl w) = settings d0 -> partDir (dl w) = pd ->
  getPartFilename (dl w) (Options.FileName (options (dl w))) k = part k.
Proof.
  intros Hs Hp. apply settings_inv in Hs. destruct Hs as (_ & _ & _ & Ho & _).
  unfold part, getPartFilename, fname. cbn. now rewrite Hp, Ho.
Qed.

Lemma inv_length (r : run) : inv r -> Z.of_nat (length (r_workers r)) <= N.
Proof.
  intros (_ & _ & _ & _ & _ & _ & Hpc & _). destruct (r_pc r); try contradiction; lia.
Qed.

Lemma inv_worker_step (r : run) (k : nat) :
  running r = true -> inv r -> inv (step E r (SWorker k)).
Proof.
  intros Hrun Hinv. pose proof (inv_length r Hinv) as Hlen.
  destruct (r_workers r !! k) as [wk|] eqn:Hk.
  2:{ cbn. rewrite Hk. exact Hinv. }
  destruct Hinv as (I1 & I2 & [I3a I3b] & [I4a I4b] & I5 & I6 & I7 & (evs & Htr & Hperm)).
  destruct (step_worker_workers E r k wk Hk) as (Hws & Hw & Hcl & Hps).
  destruct (I5 k wk Hk) as (Hi & Hrs & Hok).
  pose proof (lookup_lt_Some _ _ _ Hk) as Hklt.
  apply settings_inv in I1 as I1'. destruct I1' as (Hurl & Hconc & _).
  pose proof (part_name (r_world r) (w_i wk) I1 I2) as Hpart.
  rewrite I3a, I3b in Hws, Hw.
  destruct (worker_step_local E N L ps wk (r_world r)) as (Hok' & Hns & evs' & Htr' & Hiss).
  { now rewrite Hconc. }
  { now rewrite Hurl. }
  { exact Hok. }
  { intros Hpc. rewrite Hpart, Hi. apply I6; [lia |].
    intros wk' Hwk'. rewrite Hk in Hwk'. now injection Hwk' as <-. }
  destruct (worker_step_settings E L ps wk (r_world r)) as [Hset Hpd].
  destruct (worker_step_frame E L ps wk (r_world r)) as (Hsig & Hclosed & Hcan & Hfiles).
  cbn zeta in Hsig, Hclosed, Hcan, Hfiles. rewrite Hpart in Hfiles.
  unfold inv. rewrite Hws, Hw, Hcl, Hps, worker_step_pc.
  split; [congruence |]. split; [congruence |]. split; [now split |].
  split; [split; congruence |]. split; [| split; [| split]].
  - intros j wj Hj. destruct (Nat.eq_dec j k) as [-> | Hne].
    + rewrite list_lookup_insert_eq in Hj by exact Hklt. injection Hj as <-.
      cbn [w_i w_rangeStart set_pc]. auto.
    + rewrite list_lookup_insert_ne in Hj by congruence.
      destruct (I5 j wj Hj) as (Hji & Hjr & Hjok). repeat split; try assumption.
      unfold pc_ok in *. destruct (w_pc wj); try assumption.
      destruct Hjok as (? & ? & ? & Hctx). repeat split; try assumption. set_solver.
  - intros j Hj Hstart. destruct (Nat.eq_dec j k) as [-> | Hne].
    + exfalso. apply Hns.
      specialize (Hstart _ (list_lookup_insert_eq _ _ _ Hklt)). exact Hstart.
    + rewrite Hfiles.
      * apply I6; [exact Hj |]. intros wj Hwj. apply Hstart.
        now rewrite list_lookup_insert_ne by congruence.
      * unfold part. intros Heq. apply getPartFilename_inj in Heq. lia.
  - rewrite length_insert. unfold running in Hrun.
    destruct (r_pc r); try exact I7; discriminate.
  - exists (evs ++ evs'). split; [now rewrite Htr', Htr, app_assoc |].
    rewrite gets_app, (issued_insert N L ps _ k wk _ (gets evs') Hk Hiss).
    now apply Permutation_app_tail.
Qed.

Hypothesis not_stopped : stopped w0 = false.

Lemma inv_not_stopped (r : run) : inv r -> stopped (r_world r) = false.
Proof.
  intros (_ & _ & _ & [Hs Hc] & _). unfold stopped in *. now rewrite Hs, Hc.
Qed.

Lemma merge_parts_frame d filename parts w :
  closed (merge_parts E d filename parts w).1 = closed w /\
  cancelled (merge_parts E d filename parts w).1 = cancelled w.
Proof.
  revert w. induction parts as [|i rest IH]; intros w; cbn [merge_parts]; [now split |].
  repeat case_match; cbn [fst]; try (now split).
  match goal with
  | |- context [merge_parts E d filename rest ?w1] => destruct (IH w1) as [Hc1 Hc2]
  end.
  split; [rewrite Hc1 | rewrite Hc2]; reflexivity.
Qed.

Lemma gets_nil (evs : list event) : Forall (fun e => is_get e = false) evs -> gets evs = [].
Proof.
  induction 1 as [|e evs He _ IH]; [reflexivity |].
  unfold gets in *. cbn. destruct e; cbn in *; try exact IH. discriminate.
Qed.

Lemma all_done_lookup (ws : list worker) (k : nat) (wk : worker) :
  all_done ws = true -> ws !! k = Some wk -> exists e, w_pc wk = WDone e.
Proof.
  unfold all_done. intros Hall Hk.
  assert (Hin : In wk ws) by (apply list_elem_of_In, list_elem_of_lookup; eauto).
  pose proof (proj1 (forallb_forall _ ws) Hall wk Hin) as H. cbn in H.
  destruct (w_pc wk); try discriminate. eauto.
Qed.

Lemma post_join_frame (r : run) :
  stopSignal (dl (r_world (post_join E r))) = stopSignal (dl (r_world r)) /\
  closed (r_world (post_join E r)) = closed (r_world r).
Proof.
  unfold post_join, on_canceled, on_finished, RemoveAll, merge, OpenFile.
  repeat case_match; simplify_eq; cbn; try (now split);
  match goal with
  | H : merge_parts E ?d ?f ?l ?w1 = _ |- _ =>
      pose proof (merge_parts_frame d f l w1) as [Hc _];
      pose proof (merge_parts_dl E d f l w1) as Hd;
      rewrite H in Hc, Hd; cbn in Hc, Hd
  end; rewrite ?Hd; split; congruence.
Qed.

Lemma inv_coord_step (r : run) : running r = true -> inv r -> inv (coord_step E r).
Proof.
  intros Hrun Hinv. pose proof (inv_not_stopped r Hinv) as Hns.
  pose proof Hinv as Hinv0.
  destruct Hinv as (I1 & I2 & [I3a I3b] & [I4a I4b] & I5 & I6 & I7 & (evs & Htr & Hperm)).
  apply settings_inv in I1 as I1'. destruct I1' as (_ & Hconc & _).
  unfold coord_step. destruct (r_pc r) as [i rs | | | | |] eqn:Hpc; try contradiction.
  - destruct I7 as (Hi & Hrs & HiN). rewrite Hconc, conc.
    destruct (Z.ltb_spec i N) as [Hlt | Hge].
    + rewrite Hns. unfold inv. cbn. rewrite length_app. cbn.
      split; [exact I1 |]. split; [exact I2 |]. split; [now split |].
      split; [now split |]. split; [| split; [| split]].
      * intros k wk Hk. apply lookup_app_Some in Hk as [Hk | [Hlen Hk]]; [now apply I5 |].
        destruct (k - length (r_workers r))%nat eqn:Hd; [| now destruct n].
        cbn in Hk. injection Hk as <-. cbn.
        assert (Hkl : Z.of_nat k = i) by lia. rewrite Hkl. now repeat split.
      * intros k Hk Hstart. apply I6; [exact Hk |]. intros wk Hwk. apply Hstart.
        now apply lookup_app_l_Some.
      * rewrite I3b, Hrs. repeat split; lia.
      * exists evs. split; [exact Htr |]. unfold issued. rewrite flat_map_app. cbn.
        now rewrite !app_nil_r.
    + unfold inv. cbn.
      split; [exact I1 |]. split; [exact I2 |]. split; [now split |].
      split; [now split |]. split; [exact I5 |]. split; [exact I6 |].
      split; [lia | eauto].
  - destruct (all_done (r_workers r)) eqn:Hdone; [| exact Hinv0].
    destruct (coord_step_settings E r) as [Hs Hp].
    unfold coord_step in Hs, Hp. rewrite Hpc, Hdone in Hs, Hp.
    destruct (post_join_frame r) as [Hsig Hclo].
    assert (Hret : exists e, r_pc (post_join E r) = CReturn e
                             /\ r_workers (post_join E r) = r_workers r
                             /\ r_contentLen (post_join E r) = r_contentLen r
                             /\ r_partSize (post_join E r) = r_partSize r).
    { unfold post_join. repeat case_match; cbn; eauto 10. }
    destruct Hret as (e & Hret & Hws & Hcl & Hps).
    assert (Hsince : since (trace (r_world r)) (fun e => is_get e = false)
                       (r_world (post_join E r))).
    { set (noget := fun e => is_get e = false).
      assert (Hemit : forall e w', noget e -> since (trace (r_world r)) noget w' ->
                                   since (trace (r_world r)) noget (emit e w'))
        by (intros; now apply since_emit).
      assert (Hframe : forall w1 w2, trace w2 = trace w1 ->
                         loaded (sw (dl w2)) = loaded (sw (dl w1)) ->
                         since (trace (r_world r)) noget w1 ->
                         since (trace (r_world r)) noget w2)
        by (intros w1 w2 Ht _; now apply since_same).
      assert (Hpl : forall e, is_plumbing e = true -> noget e)
        by (intros [] H; unfold noget; cbn in *; congruence).
      assert (Hcomp : forall e, is_completion e = true -> noget e)
        by (intros [] H; unfold noget; cbn in *; congruence).
      eapply (post_join_stable E _ noget); eauto using since_refl. }
    destruct Hsince as (evs' & Htr' & Hno).
    unfold inv. rewrite Hret, Hws, Hcl, Hps.
    split; [congruence |]. split; [congruence |]. split; [now split |].
    split; [split; congruence |]. split; [| split; [| split]].
    + intros k wk Hk. destruct (I5 k wk Hk) as (H1 & H2 & _). repeat split; try assumption.
      destruct (all_done_lookup _ k wk Hdone Hk) as [e' He']. unfold pc_ok. now rewrite He'.
    + intros k Hk Hstart. exfalso.
      destruct (lookup_lt_is_Some_2 (r_workers r) k ltac:(lia)) as [wk Hwk].
      destruct (all_done_lookup _ k wk Hdone Hwk) as [e' He'].
      specialize (Hstart wk Hwk). congruence.
    + now split.
    + exists (evs ++ evs'). split; [now rewrite Htr', Htr, app_assoc |].
      now rewrite gets_app, (gets_nil evs' Hno), app_nil_r.
  - unfold running in Hrun. rewrite Hpc in Hrun. discriminate.
Qed.

Lemma inv_rate_step (r : run) : inv r -> inv (rate_step r).
Proof.
  intros (I1 & I2 & I3 & I4 & I5 & I6 & I7 & I8). unfold inv, rate_step. cbn.
  split; [unfold settings in *; cbn; now destruct (r_rate r) |].
  split; [exact I2 |]. split; [exact I3 |]. split; [exact I4 |].
  split; [exact I5 |]. split; [exact I6 |]. split; [exact I7 | exact I8].
Qed.

Lemma inv_step (r : run) (it : sched_item) :
  it <> SStop -> running r = true -> inv r -> inv (step E r it).
Proof.
  intros Hit Hrun Hinv. destruct it; [| | contradiction |].
  - now apply inv_coord_step.
  - now apply inv_worker_step.
  - cbn. rewrite Hrun. now apply inv_rate_step.
Qed.

Lemma flat_map_index {A} (f : worker -> list A) (g : Z -> list A) (ws : list worker) :
  (forall k wk, ws !! k = Some wk -> f wk = g (Z.of_nat k)) ->
  flat_map f ws = flat_map g (seqZ 0 (Z.of_nat (length ws))).
Proof.
  induction ws as [|x ws IH] using rev_ind; intros H; [reflexivity |].
  rewrite length_app. cbn [length]. rewrite Nat.add_1_r, seqZ_S, !flat_map_app. cbn.
  rewrite !app_nil_r. f_equal.
  - apply IH. intros k wk Hk. apply H. now apply lookup_app_l_Some.
  - apply H. rewrite lookup_app_r by lia. now rewrite Nat.sub_diag.
Qed.

Lemma fmap_filter_flat_map {A B} (h : A -> B) (P : A -> Prop) `{forall x, Decision (P x)}
    (l : list A) :
  h <$> filter P l = flat_map (fun x => if decide (P x) then [h x] else []) l.
Proof.
  induction l as [|x l IH]; [reflexivity |].
  rewrite filter_cons. cbn. destruct (decide (P x)); cbn; now rewrite IH.
Qed.

Lemma inv_final (r : run) :
  inv r -> running r = false ->
  exists evs, trace (r_world r) = trace w0 ++ evs /\ gets evs ≡ₚ partition_requests L N.
Proof.
  intros (_ & _ & _ & _ & I5 & _ & I7 & (evs & Htr & Hperm)) Hrun.
  unfold running in Hrun. destruct (r_pc r); try discriminate; try contradiction.
  destruct I7 as [Hlen Hdone]. exists evs. split; [exact Htr |].
  rewrite Hperm. unfold partition_requests, issued.
  rewrite fmap_filter_flat_map.
  replace (seqZ 0 N) with (seqZ 0 (Z.of_nat (length (r_workers r)))) by now rewrite Hlen.
  rewrite (flat_map_index _
             (fun i => if decide (part_lo L N i < part_hi L N i)
                       then [Some (Range_header (part_lo L N i) (part_hi L N i))] else []));
    [reflexivity |].
  intros k wk Hk. destruct (I5 k wk Hk) as (Hi & Hrs & _).
  destruct (all_done_lookup _ k wk Hdone Hk) as [e He].
  unfold issued_by, part_lo, part_hi. rewrite He, Hi, Hrs. cbn [past_request andb].
  fold ps.
  destruct (Z.ltb_spec (Z.of_nat k * ps)
              (if Z.of_nat k =? N - 1 then L else Z.of_nat k * ps + ps));
    destruct (decide _); try reflexivity; lia.
Qed.

Lemma partition_run (sched : list sched_item) (r0 : run) :
  inv r0 -> Forall (fun it => it <> SStop) sched ->
  exists evs, trace (r_world (run_sched E sched r0)) = trace w0 ++ evs /\
              gets evs ≡ₚ partition_requests L N.
Proof.
  intros H0 Hs. apply inv_final; [| apply finish_returns].
  apply (run_sched_keeps_if E inv (fun it => it <> SStop)); try assumption; try discriminate.
  intros r it Hit Hrun Hinv. now apply inv_step.
Qed.

Lemma download_partition (sched : list sched_item) (resp : Response) :
  url d0 <> "" ->
  head E (url d0) = Ok resp ->
  StatusCode resp = StatusOK -> Accept_Ranges resp = "bytes" -> ContentLength resp = L ->
  0 < L -> 1 <= N ->
  fs_fault E (OpMkdirAll pd) = None ->
  Forall (fun it => it <> SStop) sched ->
  exists evs, trace (download E sched w0).1 = trace w0 ++ evs /\
              gets evs ≡ₚ partition_requests L N.
Proof.
  intros Hne Hhead Hst Har Hcl HL HN Hmk Hs. unfold download. cbn [fst].
  apply partition_run; [| exact Hs].
  unfold download_begin, http_Head. fold d0.
  destruct (String.eqb_spec (url d0) "") as [Heq | _]; [contradiction |].
  rewrite url_ok, Hhead, Hst, Har, Hcl. cbn [String.eqb Z.eqb andb].
  change (StatusOK =? StatusOK) with true. cbn [andb].
  unfold multiDownload_begin.
  destruct (Z.leb_spec L 0); [lia |].
  unfold inv, part, pd, fname, d0 in *. unfold on_start.
  cbn -[getPartDir getPartFilename Z.quot].
  destruct (onDownloadStart (dl w0)); cbn -[getPartDir getPartFilename Z.quot];
    rewrite conc; (destruct (Z.eqb_spec N 0); [lia |]);
    change (getPartDir (set_sw (set_total L (sw (dl w0))) (dl w0))
              (Options.FileName (options (dl w0))))
      with (getPartDir (dl w0) (Options.FileName (options (dl w0))));
    rewrite Hmk;
    cbn -[getPartDir getPartFilename Z.quot];
    (split; [reflexivity |]); (split; [reflexivity |]);
    (split; [now split |]); (split; [now split |]);
    (split; [intros k wk Hk; discriminate |]);
    (split; [intros k Hk _; apply no_parts; lia |]);
    (split; [repeat split; lia |]);
    rewrite <- ?app_assoc; eexists; (split; [reflexivity | reflexivity]).
Qed.
End Partition.

Lemma Start_world (w : world) :
  let w0 := if stopped w then init w else w in
  stopped w0 = false /\ settings (dl w0) = settings (dl w) /\
  files w0 = files w /\ trace w0 = trace w.
Proof.
  cbn zeta. destruct (stopped w) eqn:Hs; [| now repeat split].
  repeat split. apply stopped_false. cbn.
  pose proof (is_fresh ({[stopSignal (dl w)]} ∪ closed w)) as Hfresh. set_solver.
Qed.

(** C1. In multi mode, for a length [L > 0] and [N >= 1] workers, with no
    part file on disk and no [Stop] during the run: the GET requests of the
    run are, in some order, one request with header [bytes=lo-(hi-1)] for
    each worker whose range [lo, hi) is not empty, and no other; every byte
    of [0, L) lies in the span of one of these requests, no byte outside
    does, and the spans of two different workers share no byte. *)
Theorem multi_mode_requests_partition (E : env) (sched : list sched_item) (w : world)
    (resp : Response) (L N : Z) :
  let d := dl w in
  let fname := Options.FileName (options d) in
  let pd := getPartDir d fname in
  concurrency d = N -> 1 <= N -> 0 < L ->
  url d <> "" -> url_error E (url d) = None ->
  head E (url d) = Ok resp ->
  StatusCode resp = StatusOK -> Accept_Ranges resp = "bytes" -> ContentLength resp = L ->
  fs_fault E (OpMkdirAll pd) = None ->
  (forall k, 0 <= k < N -> files w !! getPartFilename (set_partDir pd d) fname k = None) ->
  Forall (fun it => it <> SStop) sched ->
  (exists evs,
      trace (Start E sched w).1 = trace w ++ evs /\
      gets evs ≡ₚ
        (fun i => Some ("bytes=" +:+ FormatInt (part_lo L N i) +:+ "-"
                          +:+ FormatInt (part_hi L N i - 1)))
          <$> filter (fun i => part_lo L N i < part_hi L N i) (seqZ 0 N)) /\
  (forall b,
      (0 <= b < L <-> exists i, 0 <= i < N /\ part_lo L N i <= b <= part_hi L N i - 1) /\
      (forall i j, 0 <= i < N -> 0 <= j < N ->
         part_lo L N i <= b <= part_hi L N i - 1 ->
         part_lo L N j <= b <= part_hi L N j - 1 -> i = j)).
Proof.
  cbn zeta. intros Hc HN HL Hne Hurl Hhead Hst Har Hcl Hmk Hparts Hs.
  split; [| intros b; now apply partition_covers].
  destruct (Start_world w) as (Hns & Hset & Hfiles & Htr). cbn zeta in *.
  unfold Start. set (w0 := if stopped w then init w else w) in *.
  apply settings_inv in Hset. destruct Hset as (Hu0 & Hc0 & _ & Ho0 & _).
  rewrite <- Htr.
  apply (download_partition E w0 L N) with (resp := resp); try assumption.
  - congruence.
  - congruence.
  - intros k Hk. rewrite Hfiles, Ho0.
    replace (getPartDir (dl w0) (Options.FileName (options (dl w)))) with
      (getPartDir (dl w) (Options.FileName (options (dl w))))
      by (unfold getPartDir; now rewrite Ho0).
    now apply Hparts.
  - congruence.
  - congruence.
  - unfold getPartDir in *. now rewrite Ho0.
Qed.

Lemma multi_mode_requests_partition_witness :
  let w := new_world (observed (NewDownloader 4 0 "http://h/f.bin" [WithConcurrency 3])) ∅ in
  let sched := [SCoord; SWorker 0; SCoord; SRate; SWorker 1; SWorker 0; SCoord; SWorker 2] in
  exists evs,
    trace (Start (serve true ten_bytes) sched w).1 = trace w ++ evs /\
    gets evs ≡ₚ [Some "bytes=0-2"; Some "bytes=3-5"; Some "bytes=6-9"].
Proof.
  intros w sched.
  refine (proj1 (multi_mode_requests_partition (serve true ten_bytes) sched w _ 10 3
                   eq_refl ltac:(lia) ltac:(lia) ltac:(vm_compute; discriminate)
                   eq_refl eq_refl eq_refl eq_refl eq_refl eq_refl _ _)).
  - intros k _. apply lookup_empty.
  - repeat constructor; discriminate.
Defined.

(** * Further properties of the code *)

(** ** Failures before the first worker *)

Section EarlyFailures.
Variable E : env.
Variable sched : list sched_item.
Variable w : world.

Let w0 := if stopped w then init w else w.
Let u := url (dl w).
Let fname := Options.FileName (options (dl w)).

Hypothesis url_nonempty : u <> "".
Hypothesis url_ok : url_error E u = None.

Lemma Start_world_url : url (dl w0) = u /\ options (dl w0) = options (dl w)
  /\ concurrency (dl w0) = concurrency (dl w)
  /\ onDownloadStart (dl w0) = onDownloadStart (dl w).
Proof. unfold w0, u. destruct (stopped w); cbn; auto. Qed.

(** X1. When the HEAD request fails, [Start] returns its error wrapped as
    "failed to get file info"; the run consists of that request: no GET is
    sent, no file is touched and no callback is called. *)
Theorem Start_head_fails (e : error) :
  head E u = Err e ->
  Start E sched w =
    (emit (EvHead u) w0, Returned (Some (Errorf_w "failed to get file info" e))).
Proof.
  intros Hh. destruct Start_world_url as (Hu & _).
  unfold Start, download. fold w0.
  assert (Hb : download_begin E w0
               = returning (emit (EvHead u) w0)
                   (Some (Errorf_w "failed to get file info" e))).
  { unfold download_begin, http_Head. rewrite Hu.
    destruct (String.eqb_spec u ""); [contradiction |].
    now rewrite url_ok, Hh. }
  rewrite Hb, run_sched_not_running by reflexivity. reflexivity.
Qed.

(** X2. When the server supports ranges and announces a length that is
    not positive (an empty file, or no [Content-Length]), [Start] returns
    "invalid content length: <length>" right after the HEAD request: no
    callback, no cache directory, no GET. *)
Theorem Start_invalid_content_length (resp : Response) :
  head E u = Ok resp ->
  StatusCode resp = StatusOK -> Accept_Ranges resp = "bytes" ->
  ContentLength resp <= 0 ->
  Start E sched w =
    (emit (EvHead u) w0,
     Returned (Some (Errorf ("invalid content length: " +:+ FormatInt (ContentLength resp))))).
Proof.
  intros Hh Hs Ha Hl. destruct Start_world_url as (Hu & _).
  unfold Start, download. fold w0.
  assert (Hb : download_begin E w0
               = returning (emit (EvHead u) w0)
                   (Some (Errorf ("invalid content length: "
                                    +:+ FormatInt (ContentLength resp))))).
  { unfold download_begin, http_Head. rewrite Hu.
    destruct (String.eqb_spec u ""); [contradiction |].
    rewrite url_ok, Hh, Hs, Ha. cbn [andb Z.eqb StatusOK String.eqb].
    change (200 =? 200) with true. cbn.
    unfold multiDownload_begin.
    destruct (Z.leb_spec (ContentLength resp) 0); [reflexivity | lia]. }
  rewrite Hb, run_sched_not_running by reflexivity. reflexivity.
Qed.

(** X3. When the cache directory cannot be created, [Start] returns the
    error wrapped as "failed to create cache directory"; the total is set
    and the start callback has been called by then, and nothing is
    downloaded. *)
Theorem Start_mkdir_fails (resp : Response) (e : error) :
  head E u = Ok resp ->
  StatusCode resp = StatusOK -> Accept_Ranges resp = "bytes" ->
  0 < ContentLength resp ->
  concurrency (dl w) <> 0 ->
  fs_fault E (OpMkdirAll (getPartDir (dl w) fname)) = Some e ->
  let out := Start E sched w in
  out.2 = Returned (Some (Errorf_w "failed to create cache directory" e)) /\
  trace out.1 =
    trace w ++ EvHead u ::
      (if onDownloadStart (dl w) then [EvOnStart (ContentLength resp) fname] else [])
      ++ [EvFs (OpMkdirAll (getPartDir (dl w) fname))] /\
  files out.1 = files w /\
  total (sw (dl out.1)) = ContentLength resp.
Proof.
  intros Hh Hs Ha Hl Hc Hf. destruct Start_world_url as (Hu & Ho & Hcc & Hos).
  assert (Hw0 : files w0 = files w /\ trace w0 = trace w)
    by (unfold w0; destruct (stopped w); cbn; auto).
  destruct Hw0 as [Hfiles Htrace].
  cbn zeta. unfold Start, download. fold w0.
  unfold download_begin, http_Head. rewrite Hu.
  destruct (String.eqb_spec u ""); [contradiction |].
  rewrite url_ok, Hh, Hs, Ha. change (200 =? 200) with true. cbn [andb String.eqb Ascii.eqb].
  cbn -[getPartDir run_sched].
  unfold multiDownload_begin.
  destruct (Z.leb_spec (ContentLength resp) 0); [lia |].
  unfold on_start. cbn -[getPartDir run_sched]. rewrite Hos, Ho. fold fname.
  destruct (onDownloadStart (dl w)); cbn -[getPartDir run_sched];
    rewrite Hcc; destruct (Z.eqb_spec (concurrency (dl w)) 0); try contradiction;
    unfold getPartDir in *; cbn -[run_sched]; rewrite Ho; cbn -[run_sched] in Hf |- *;
    rewrite Hf; rewrite run_sched_not_running by reflexivity; cbn;
    rewrite Htrace, Hfiles; repeat split; now rewrite <- ?app_assoc.
Qed.

End EarlyFailures.

Lemma Start_head_fails_witness :
  let E := {| url_error := fun _ => None; head := fun _ => Err (ErrExternal "timeout");
              get := fun _ _ => Err (ErrExternal "timeout"); fs_fault := fun _ => None |} in
  let w := new_world (observed (NewDownloader 4 0 "http://h/f.bin" [])) ∅ in
  (Start E [SCoord; SWorker 0] w).2
  = Returned (Some (Errorf_w "failed to get file info" (ErrExternal "timeout"))) /\
  trace (Start E [SCoord; SWorker 0] w).1 = [EvHead "http://h/f.bin"].
Proof.
  intros E w.
  rewrite (Start_head_fails E [SCoord; SWorker 0] w ltac:(discriminate) eq_refl
             (ErrExternal "timeout") eq_refl).
  split; reflexivity.
Defined.

Lemma Start_invalid_content_length_witness :
  let w := new_world (observed (NewDownloader 4 0 "http://h/f.bin" [])) ∅ in
  (Start (serve true []) [SCoord] w).2
  = Returned (Some (Errorf "invalid content length: 0")).
Proof.
  intros w.
  rewrite (Start_invalid_content_length (serve true []) [SCoord] w ltac:(discriminate) eq_refl
             _ eq_refl eq_refl eq_refl ltac:(cbn; lia)).
  reflexivity.
Defined.

Lemma Start_mkdir_fails_witness :
  let E := {| url_error := url_error (serve true ten_bytes);
              head := head (serve true ten_bytes);
              get := get (serve true ten_bytes);
              fs_fault := fun op =>
                match op with
                | OpMkdirAll _ => Some (ErrExternal "permission denied")
                | _ => None
                end |} in
  let w := new_world (observed (NewDownloader 4 0 "http://h/f.bin" [])) ∅ in
  (Start E [] w).2
  = Returned (Some (Errorf_w "failed to create cache directory"
                      (ErrExternal "permission denied"))) /\
  files (Start E [] w).1 = ∅.
Proof.
  intros E w.
  destruct (Start_mkdir_fails E [] w ltac:(discriminate) eq_refl _
              (ErrExternal "permission denied") eq_refl eq_refl eq_refl
              ltac:(cbn; lia) ltac:(discriminate) eq_refl) as (H1 & _ & H2 & _).
  split; [exact H1 | exact H2].
Defined.

(** ** Restarting, and sequences of writes *)

Lemma wrap64_add_l (a b : Z) : wrap64 (wrap64 a + b) = wrap64 (a + b).
Proof.
  unfold wrap64.
  replace ((a + 2 ^ 63) mod 2 ^ 64 - 2 ^ 63 + b + 2 ^ 63)
    with ((a + 2 ^ 63) mod 2 ^ 64 + b) by lia.
  rewrite Zplus_mod_idemp_l. f_equal. f_equal. lia.
Qed.



Lemma Writes_snoc (ns : list Z) (n : Z) (w : world) :
  Writes (ns ++ [n]) w = Write n (Writes ns w).
Proof. unfold Writes. now rewrite fold_left_app. Qed.

Lemma running_sums_snoc (l : Z) (ns : list Z) (n : Z) :
  running_sums l (ns ++ [n]) = running_sums l ns ++ [l + sumZ ns + n].
Proof.
  revert l. induction ns as [|m ns IH]; intros l; cbn.
  - now rewrite Z.add_0_r.
  - rewrite IH. cbn [sumZ app].
    now replace (l + m + sumZ ns + n) with (l + (m + sumZ ns) + n) by lia.
Qed.

Lemma sumZ_snoc (ns : list Z) (n : Z) : sumZ (ns ++ [n]) = sumZ ns + n.
Proof. induction ns as [|m ns IH]; cbn; [lia | rewrite IH; lia]. Qed.


Lemma Write_fields (n : Z) (w : world) :
  accPacketSize (sw (dl (Write n w))) = wrap64 (accPacketSize (sw (dl w)) + n) /\
  total (sw (dl (Write n w))) = total (sw (dl w)) /\
  rate (sw (dl (Write n w))) = rate (sw (dl w)) /\
  onProgress (sw (dl (Write n w))) = onProgress (sw (dl w)) /\
  files (Write n w) = files w.
Proof. unfold Write, sw_Write. cbn. destruct (onProgress (sw (dl w))); cbn; auto. Qed.

Lemma Writes_onProgress (ns : list Z) (w : world) :
  onProgress (sw (dl (Writes ns w))) = onProgress (sw (dl w)).
Proof.
  induction ns as [|m ns IH] using rev_ind; [reflexivity |].
  rewrite Writes_snoc. now destruct (Write_fields m (Writes ns w)) as (_ & _ & _ & -> & _).
Qed.

(** X5. A sequence of calls of the sink's [Write] with slices of lengths
    [ns], while the counter does not overflow: the counter ends at its
    initial value plus the sum of the lengths, the window count grows by the
    same sum (modulo 2^64), and with a progress callback registered there
    is one call per write, reporting the running sums with the total and
    the rate string unchanged; no file is touched. *)
Theorem Writes_progress (ns : list Z) (w : world) :
  let s := sw (dl w) in
  let w' := Writes ns w in
  Forall (fun n => 0 <= n) ns ->
  in_int64 (loaded s) -> in_int64 (accPacketSize s) ->
  loaded s + sumZ ns <= max_int64 ->
  loaded (sw (dl w')) = loaded s + sumZ ns /\
  accPacketSize (sw (dl w')) = wrap64 (accPacketSize s + sumZ ns) /\
  total (sw (dl w')) = total s /\ rate (sw (dl w')) = rate s /\
  files w' = files w /\
  exists evs,
    trace w' = trace w ++ evs /\
    omap (fun e => match e with EvSinkWrite n => Some n | _ => None end) evs = ns /\
    omap (fun e => match e with EvOnProgress l t r => Some (l, t, r) | _ => None end) evs
    = if onProgress s then (fun l => (l, total s, rate s)) <$> running_sums (loaded s) ns
      else [].
Proof.
  cbn zeta. intros Hnn Hl Ha. induction ns as [|n ns IH] using rev_ind; intros Hmax.
  - cbn. rewrite !Z.add_0_r, !wrap64_id by assumption.
    repeat split. exists []. rewrite app_nil_r. repeat split.
    now destruct (onProgress _).
  - apply Forall_app in Hnn as [Hnn Hn].
    apply Forall_inv in Hn. pose proof (sumZ_nonneg ns Hnn) as Hs.
    rewrite sumZ_snoc in Hmax.
    destruct (IH Hnn ltac:(lia)) as (IHl & IHa & IHt & IHr & IHf & evs & Ht & Hw & Hr).
    rewrite Writes_snoc, sumZ_snoc.
    destruct (Write_fields n (Writes ns w)) as (Wa & Wt & Wr & Wp & Wf).
    assert (Hnew : wrap64 (loaded (sw (dl (Writes ns w))) + n)
                   = loaded (sw (dl w)) + sumZ ns + n).
    { rewrite IHl. apply wrap64_id. unfold in_int64, min_int64, max_int64 in *. lia. }
    split; [rewrite Write_loaded, Hnew; lia |].
    split; [rewrite Wa, IHa, wrap64_add_l; f_equal; lia |].
    split; [congruence |]. split; [congruence |]. split; [congruence |].
    eexists. split; [rewrite Write_trace, Ht, <- app_assoc; reflexivity |].
    rewrite Writes_onProgress, Hnew, IHt, IHr.
    split.
    + rewrite omap_app, Hw. cbn. now destruct (onProgress _).
    + rewrite omap_app, Hr. cbn.
      destruct (onProgress (sw (dl w))); cbn; [| reflexivity].
      now rewrite running_sums_snoc, fmap_app.
Qed.

Lemma Writes_progress_witness :
  let w := new_world (observed (NewDownloader 4 0 "http://h/f.bin" [])) ∅ in
  loaded (sw (dl (Writes [3; 0; 4] w))) = 7 /\
  omap reported (trace (Writes [3; 0; 4] w)) = [3; 3; 7].
Proof.
  intros w.
  assert (Hnn : Forall (fun n => 0 <= n) [3; 0; 4]) by (repeat constructor; lia).
  destruct (Writes_progress [3; 0; 4] w Hnn) as (Hl & _);
    [unfold in_int64, min_int64, max_int64; cbn; lia .. |].
  split; [rewrite Hl; reflexivity | vm_compute; reflexivity].
Defined.

(** ** Construction from options, and the command line *)

Lemma NewDownloader_options (ncpu : positive) (chan : nat) (u : string)
    (opts : list OptionFunc) :
  options (NewDownloader ncpu chan u opts)
  = fixup_concurrency ncpu
      (fold_left (fun o (opt : OptionFunc) => opt o) opts
         {| Options.FileName := filepath_Base u; Options.BaseDir := DefaultBaseDir;
            Options.Concurrency := Z.pos ncpu; Options.Resume := true |}).
Proof. reflexivity. Qed.

Lemma NewDownloader_concurrency' (ncpu : positive) (chan : nat) (u : string)
    (opts : list OptionFunc) :
  concurrency (NewDownloader ncpu chan u opts)
  = Options.Concurrency (options (NewDownloader ncpu chan u opts)).
Proof. reflexivity. Qed.

Lemma NewDownloader_resume' (ncpu : positive) (chan : nat) (u : string)
    (opts : list OptionFunc) :
  resume (NewDownloader ncpu chan u opts)
  = Options.Resume (options (NewDownloader ncpu chan u opts)).
Proof. reflexivity. Qed.

(** X6. Options are applied in order, so the last one for a field wins and
    an option leaves the other fields as the options before it set them;
    a concurrency of zero stands for the number of CPUs. *)
Theorem NewDownloader_last_option_wins (ncpu : positive) (chan : nat) (u : string)
    (opts : list OptionFunc) (f b : string) (c : Z) (r : bool) :
  let d := NewDownloader ncpu chan u opts in
  let o := options d in
  options (NewDownloader ncpu chan u (opts ++ [WithFileName f]))
    = {| Options.FileName := f; Options.BaseDir := Options.BaseDir o;
         Options.Concurrency := Options.Concurrency o; Options.Resume := Options.Resume o |} /\
  options (NewDownloader ncpu chan u (opts ++ [WithBaseDir b]))
    = {| Options.FileName := Options.FileName o; Options.BaseDir := b;
         Options.Concurrency := Options.Concurrency o; Options.Resume := Options.Resume o |} /\
  options (NewDownloader ncpu chan u (opts ++ [WithResume r]))
    = {| Options.FileName := Options.FileName o; Options.BaseDir := Options.BaseDir o;
         Options.Concurrency := Options.Concurrency o; Options.Resume := r |} /\
  resume (NewDownloader ncpu chan u (opts ++ [WithResume r])) = r /\
  options (NewDownloader ncpu chan u (opts ++ [WithConcurrency c]))
    = {| Options.FileName := Options.FileName o; Options.BaseDir := Options.BaseDir o;
         Options.Concurrency := if c =? 0 then Z.pos ncpu else c;
         Options.Resume := Options.Resume o |} /\
  concurrency (NewDownloader ncpu chan u (opts ++ [WithConcurrency c]))
    = (if c =? 0 then Z.pos ncpu else c).
Proof.
  cbn zeta. rewrite !NewDownloader_concurrency', !NewDownloader_resume', !NewDownloader_options.
  rewrite !fold_left_app. cbn [fold_left].
  generalize (fold_left (fun o (opt : OptionFunc) => opt o) opts
                {| Options.FileName := filepath_Base u; Options.BaseDir := DefaultBaseDir;
                   Options.Concurrency := Z.pos ncpu; Options.Resume := true |}).
  intros o1. unfold fixup_concurrency. cbn.
  destruct (Options.Concurrency o1 =? 0) eqn:H1; cbn;
    repeat split; destruct (c =? 0); reflexivity.
Qed.

(** X7. The command line passes [-c] on only when it is positive, so the
    downloader it builds has a concurrency of at least one for every value
    of the flag: the flag when positive, the number of CPUs otherwise. *)
Theorem main_concurrency_positive (ncpu : positive) (chan : nat) (u output cacheDir : string)
    (noResume : bool) (c : Z) :
  let d := NewDownloader ncpu chan u (main_opts output cacheDir noResume c) in
  concurrency d = (if 0 <? c then c else Z.pos ncpu) /\
  1 <= concurrency d /\
  options d = {| Options.FileName := output; Options.BaseDir := cacheDir;
                 Options.Concurrency := concurrency d; Options.Resume := negb noResume |} /\
  resume d = negb noResume.
Proof.
  cbn zeta. unfold main_opts, NewDownloader.
  destruct (Z.ltb_spec 0 c); cbn.
  - destruct (Z.eqb_spec c 0); [lia |]. cbn. repeat split; lia.
  - repeat split; lia.
Qed.

Lemma last_element_rev_cons (c : ascii) (r : list ascii) :
  last_element_rev (c :: r) = if Ascii.eqb c "/" then [] else c :: last_element_rev r.
Proof. destruct c as [[] [] [] [] [] [] [] []]; reflexivity. Qed.

Lemma strip_trailing_slashes_rev_cons (c : ascii) (r : list ascii) :
  strip_trailing_slashes_rev (c :: r)
  = if Ascii.eqb c "/" then strip_trailing_slashes_rev r else c :: r.
Proof. destruct c as [[] [] [] [] [] [] [] []]; reflexivity. Qed.

Lemma last_element_rev_no_slash (r : list ascii) :
  Forall (fun c => c <> "/"%char) (last_element_rev r).
Proof.
  induction r as [|c r IH]; [constructor |].
  rewrite last_element_rev_cons. destruct (Ascii.eqb_spec c "/"); [constructor |].
  now constructor.
Qed.

Lemma strip_trailing_slashes_rev_head (r : list ascii) (c : ascii) (r' : list ascii) :
  strip_trailing_slashes_rev r = c :: r' -> c <> "/"%char.
Proof.
  induction r as [|a r IH]; [discriminate |].
  rewrite strip_trailing_slashes_rev_cons. destruct (Ascii.eqb_spec a "/").
  - exact IH.
  - intros [= <- _]. assumption.
Qed.

(** [filepath.Base] never returns the empty string: the result is
    ["."] for the empty path, ["/"] for a path of slashes only, and
    otherwise a non-empty name without a slash. *)
Lemma filepath_Base_element (path : string) :
  let b := filepath_Base path in
  b <> "" /\
  (path = "" -> b = ".") /\
  (b = "/" \/ Forall (fun c => c <> "/"%char) (list_ascii_of_string b)).
Proof.
  cbn zeta. unfold filepath_Base.
  destruct (list_ascii_of_string path) as [|a l] eqn:Hp.
  - repeat split; try discriminate. right. repeat constructor; discriminate.
  - assert (Hne : path <> "") by (intros ->; discriminate).
    destruct (strip_trailing_slashes_rev (rev (a :: l))) as [|c r] eqn:Hs.
    + repeat split; try discriminate; try contradiction. now left.
    + pose proof (strip_trailing_slashes_rev_head _ _ _ Hs) as Hc.
      rewrite last_element_rev_cons. destruct (Ascii.eqb_spec c "/"); [contradiction |].
      split; [| split; [contradiction |]].
      * intros H. apply (f_equal list_ascii_of_string) in H.
        rewrite list_ascii_of_string_of_list_ascii in H. cbn in H.
        apply (f_equal (@length ascii)) in H.
        rewrite length_app in H. cbn in H. lia.
      * right. rewrite list_ascii_of_string_of_list_ascii.
        apply Forall_rev. constructor; [assumption | apply last_element_rev_no_slash].
Qed.

(** X8. The command line keeps an output name that is given; without one
    it takes the last element of the URL, and ["downloaded_file"] when
    that is ["/"] or ["."]: the default name is never empty, never ["."]
    or ["/"], and holds no slash. *)
Theorem main_output_name (u : string) (c : ascii) (s : string) :
  main_output u (String c s) = String c s /\
  let o := main_output u "" in
  o <> "" /\ o <> "." /\ o <> "/" /\
  Forall (fun a => a <> "/"%char) (list_ascii_of_string o).
Proof.
  split; [reflexivity |].
  cbn zeta. unfold main_output. cbn [String.eqb].
  destruct (filepath_Base_element u) as (Hne & _ & Hs). cbn zeta in *.
  destruct (String.eqb_spec (filepath_Base u) "/") as [H1 | H1]; cbn [orb].
  { repeat split; try discriminate. repeat constructor; discriminate. }
  destruct (String.eqb_spec (filepath_Base u) ".") as [H2 | H2].
  { repeat split; try discriminate. repeat constructor; discriminate. }
  destruct Hs as [Hs | Hs]; [contradiction |]. repeat split; assumption.
Qed.

Lemma round_half_even_unit (n : Z) : round_half_even n 1 = n.
Proof.
  unfold round_half_even. rewrite Z.mod_1_r, Z.div_1_r. reflexivity.
Qed.

Lemma FormatInt_sign (b : Z) :
  FormatInt b = (if b <? 0 then "-" else "") +:+ FormatNat (Z.to_N (Z.abs b)).
Proof. destruct b; reflexivity. Qed.

(** X9. A rate below 1 KiB/s is printed as the whole number of bytes with
    two zero decimals. *)
Theorem formatRate_whole_bytes (b : Z) :
  b < 1024 -> formatRate b = FormatInt b +:+ ".00 B/s".
Proof.
  intros Hb. unfold formatRate.
  destruct (Z.leb_spec (2 ^ 30) b); [lia |].
  destruct (Z.leb_spec (2 ^ 20) b); [lia |].
  destruct (Z.leb_spec (2 ^ 10) b); [lia |].
  unfold Sprintf_2f. change (2 ^ 0) with 1. rewrite round_half_even_unit.
  rewrite Z.div_mul by lia.
  replace (Z.abs b * 100 mod 100) with 0 by (symmetry; apply Z.mod_mul; lia).
  replace (Z.abs b * 100 mod 10) with 0.
  2:{ replace (Z.abs b * 100) with (Z.abs b * 10 * 10) by lia. symmetry. apply Z.mod_mul. lia. }
  rewrite FormatInt_sign. cbn [Z.div Z.div_eucl].
  change (digit_char 0) with "0"%char.
  rewrite !string_app_assoc. reflexivity.
Qed.

Lemma formatRate_whole_bytes_witness : formatRate 1020 = "1020.00 B/s".
Proof. rewrite (formatRate_whole_bytes 1020) by lia. reflexivity. Defined.

(** ** The stop signal across a run *)

(** X10. [download] never replaces or re-opens the stop channel, and only
    [Stop] closes it: after a [Start] that no [Stop] interrupts the
    downloader is not stopped, and a [Stop] then succeeds. *)
Theorem Start_stop_signal (E : env) (sched : list sched_item) (w : world) :
  let w0 := if stopped w then init w else w in
  let out := Start E sched w in
  stopSignal (dl out.1) = stopSignal (dl w0) /\
  closed w ⊆ closed out.1 /\
  (Forall (fun it => it <> SStop) sched ->
   closed out.1 = closed w /\ stopped out.1 = false /\ (Stop out.1).2 = None).
Proof.
  cbn zeta. unfold Start, download. cbn [fst].
  set (w0 := if stopped w then init w else w).
  assert (Hc0 : closed w0 = closed w) by (unfold w0; destruct (stopped w); reflexivity).
  assert (Hs0 : stopped w0 = false) by (apply (Start_world w)).
  destruct (download_begin_signal E w0) as [Hb1 Hb2].
  split; [| split].
  - apply (run_sched_keeps E (fun r => stopSignal (dl (r_world r)) = stopSignal (dl w0)));
      [| exact Hb1].
    intros r it _ H. now rewrite (proj1 (step_signal E r it)).
  - apply (run_sched_keeps E (fun r => closed w ⊆ closed (r_world r)));
      [| rewrite Hb2, Hc0; set_solver].
    intros r it _ H. pose proof (step_signal E r it) as (_ & Hs & _). set_solver.
  - intros Hns.
    assert (H : stopSignal (dl (r_world (run_sched E sched (download_begin E w0))))
                = stopSignal (dl w0) /\
                closed (r_world (run_sched E sched (download_begin E w0))) = closed w).
    { apply (run_sched_keeps_if E
               (fun r => stopSignal (dl (r_world r)) = stopSignal (dl w0) /\
                         closed (r_world r) = closed w)
               (fun it => it <> SStop)); try discriminate; try assumption.
      - intros r it Hit _ [H1 H2].
        destruct (step_signal E r it) as (Ha & _ & Hb). rewrite Ha, Hb by assumption. now split.
      - split; congruence. }
    destruct H as [H1 H2].
    assert (Hst : stopped (r_world (run_sched E sched (download_begin E w0))) = false).
    { unfold stopped in *. rewrite H1, H2, <- Hc0. exact Hs0. }
    split; [exact H2 |]. split; [exact Hst |].
    unfold Stop. now rewrite Hst.
Qed.

Lemma Start_stop_signal_witness :
  let w := new_world (observed (NewDownloader 4 0 "http://h/f.bin" [WithConcurrency 2])) ∅ in
  let out := Start (serve true ten_bytes) [SCoord; SRate; SWorker 0] w in
  stopped out.1 = false /\ (Stop out.1).2 = None.
Proof.
  intros w out.
  assert (Hns : Forall (fun it => it <> SStop) [SCoord; SRate; SWorker 0])
    by (repeat constructor; discriminate).
  destruct (Start_stop_signal (serve true ten_bytes) [SCoord; SRate; SWorker 0] w)
    as (_ & _ & H).
  destruct (H Hns) as (_ & H1 & H2). split; assumption.
Defined.

(** *** Which errors [Start] returns *)

Lemma prefix_app (p s : string) : String.prefix p (p +:+ s) = true.
Proof.
  induction p as [|c p IH]; [now destruct s |].
  change (String.prefix (String c p) (String c (p +:+ s)) = true).
  cbn. destruct (ascii_dec c c); [exact IH | contradiction].
Qed.

Ltac by_cases :=
  repeat case_match; cbn in *; simplify_eq; cbn; try exact I; try reflexivity;
  try (apply orb_true_iff; first [left; apply prefix_app | right; apply prefix_app]).

Lemma coord_step_errors (E : env) (r : run) :
  match r_pc r with CReturn (Some e) => is_Start_error e = true | _ => True end ->
  match r_pc (coord_step E r) with
  | CReturn (Some e) => is_Start_error e = true
  | _ => True
  end.
Proof.
  unfold coord_step. destruct (r_pc r) eqn:Hpc; cbn; try (intros; exact I || assumption).
  - intros _. by_cases.
  - intros _. destruct (all_done _); [| now rewrite Hpc].
    unfold post_join. by_cases.
  - intros _. unfold OpenFile. by_cases.
  - intros _. unfold single_finish, FileWrite. by_cases.
  - now rewrite Hpc.
  - now rewrite Hpc.
Qed.

Lemma step_pc_other (E : env) (r : run) (it : sched_item) :
  it <> SCoord -> r_pc (step E r it) = r_pc r.
Proof.
  destruct it; try contradiction; intros _; cbn.
  - apply (worker_step_pc E r k).
  - reflexivity.
  - unfold rate_step. now destruct (running r).
Qed.

Lemma download_begin_errors (E : env) (w : world) :
  match r_pc (download_begin E w) with
  | CReturn (Some e) => is_Start_error e = true
  | _ => True
  end.
Proof.
  unfold download_begin, http_Head, multiDownload_begin, singleDownload_begin.
  by_cases.
Qed.

(** X11. The errors [Start] returns are [ErrInvalidURL] and the wrapped
    errors of [download], [multiDownload] up to the spawn loop, [merge] and
    [singleDownload]; what [downloadPartial] returns to a worker is never
    returned by [Start]. *)
Theorem Start_errors (E : env) (sched : list sched_item) (w : world) (e : error) :
  (Start E sched w).2 = Returned (Some e) -> is_Start_error e = true.
Proof.
  unfold Start, download. cbn [snd]. set (w0 := if stopped w then init w else w).
  assert (H : match r_pc (run_sched E sched (download_begin E w0)) with
              | CReturn (Some e) => is_Start_error e = true
              | _ => True
              end).
  { apply (run_sched_keeps E (fun r => match r_pc r with
                                       | CReturn (Some e) => is_Start_error e = true
                                       | _ => True
                                       end)); [| apply download_begin_errors].
    intros r it _ Hr. destruct it; [now apply coord_step_errors | ..];
      rewrite step_pc_other by discriminate; exact Hr. }
  unfold outcome_of. destruct (r_pc _) as [| | | | [e'|] |]; try discriminate.
  now intros [= <-].
Qed.

Lemma Start_errors_witness :
  let E := {| url_error := fun _ => None;
              head := fun _ => Ok {| StatusCode := 200; Accept_Ranges := "bytes";
                                     ContentLength := 4; Body := []; BodyEnd := io_EOF |};
              get := fun _ _ => Err (ErrExternal "connection refused");
              fs_fault := fun _ => None |} in
  let w := new_world (NewDownloader 4 0 "http://h/f.bin" [WithConcurrency 2]) ∅ in
  exists e, (Start E [] w).2 = Returned (Some e) /\ is_Start_error e = true.
Proof.
  intros E w. eexists. split; [vm_compute; reflexivity |].
  apply (Start_errors E [] w). vm_compute. reflexivity.
Defined.

(** ** Examples *)

Example formatRate_bytes : formatRate (bytesPerSecond 100) = "400.00 B/s".
Proof. reflexivity. Qed.

Example formatRate_kilobytes : formatRate (bytesPerSecond 333) = "1.30 KB/s".
Proof. reflexivity. Qed.

Example formatRate_tie_to_even : formatRate (bytesPerSecond 288) = "1.12 KB/s".
Proof. reflexivity. Qed.

Example formatRate_gigabytes : formatRate (bytesPerSecond (2 ^ 40)) = "4096.00 GB/s".
Proof. reflexivity. Qed.

Example formatRate_negative : formatRate (bytesPerSecond (-7)) = "-28.00 B/s".
Proof. reflexivity. Qed.

Example float64_rounds_to_even :
  float64_of_int64 (2 ^ 53 + 1) = 2 ^ 53 /\ float64_of_int64 (2 ^ 53 + 3) = 2 ^ 53 + 4 /\
  float64_of_int64 (2 ^ 63 - 1) = 2 ^ 63 /\ float64_of_int64 (- (2 ^ 53) - 1) = - (2 ^ 53).
Proof. vm_compute. repeat split. Qed.

Example filepath_Base_examples :
  filepath_Base "https://example.com/file.txt" = "file.txt" /\
  filepath_Base "" = "." /\ filepath_Base "///" = "/" /\ filepath_Base "a/b//" = "b".
Proof. vm_compute. repeat split. Qed.

(** Ten bytes in three parts: the parts are merged in order and the part
    files are gone. *)
Example download_ten_bytes :
  let w := new_world (observed (NewDownloader 4 0 "http://h/f.bin" [WithConcurrency 3])) ∅ in
  let out := Start (serve true ten_bytes) [SCoord; SWorker 0; SRate; SCoord; SWorker 0] w in
  out.2 = Returned None /\
  map_to_list (files out.1) = [("f.bin", ten_bytes)] /\
  loaded (sw (dl out.1)) = 10 /\
  last (trace out.1) = Some (EvOnFinished "f.bin").
Proof. vm_compute. repeat split. Qed.

(** A server without range support: one GET without [Range]. *)
Example download_single_mode :
  let w := new_world (observed (NewDownloader 4 0 "http://h/f.bin" [WithConcurrency 4])) ∅ in
  let out := Start (serve false ten_bytes) [] w in
  out.2 = Returned None /\
  gets (trace out.1) = [None] /\
  map_to_list (files out.1) = [("f.bin", ten_bytes)].
Proof. vm_compute. repeat split. Qed.

(** A [Stop] that arrives while the spawn loop is still running makes
    [multiDownload] return nil from the loop: no completion callback fires
    on that path. *)
Example stop_in_spawn_loop :
  let w := new_world (observed (NewDownloader 4 0 "http://h/f.bin" [WithConcurrency 3])) ∅ in
  let out := Start (serve true ten_bytes) [SCoord; SStop] w in
  out.2 = Returned None /\ existsb is_completion (trace out.1) = false.
Proof. vm_compute. repeat split. Qed.

(** Resume after a stop: the second [Start] re-initialises, reads the part
    files and fetches the rest. *)
Example resume_after_stop :
  let w := new_world (observed (NewDownloader 4 0 "http://h/f.bin" [WithConcurrency 2])) ∅ in
  let E := serve true ten_bytes in
  let stopped_run :=
    Start E [SCoord; SCoord; SCoord; SWorker 0; SWorker 0; SWorker 0; SWorker 0;
             SWorker 0; SStop; SWorker 1; SWorker 1; SWorker 1] w in
  let resumed := Resume E [] stopped_run.1 in
  last (trace stopped_run.1) = Some (EvOnCanceled "f.bin") /\
  resumed.2 = Returned None /\
  map_to_list (files resumed.1) = [("f.bin", ten_bytes)] /\
  loaded (sw (dl resumed.1)) = 10.
Proof. vm_compute. repeat split. Qed.
